(** * generate_dependency_tree.py: dependency graph, levels and trees

    A shallow embedding of [fhir-spec-processor/generate_dependency_tree.py]
    and of the part of Python's [graphlib.TopologicalSorter] it drives,
    followed by the properties of the extraction patterns, of the dependency
    graph, of the level table and of the tree output.

    Conventions of the embedding:
    - a Python [str] is a [string]; characters are 8-bit ([ascii]), so the
      texts covered are those whose code points are below 256, and the
      file names covered are those that [str.capitalize] keeps below 256
      ([Str.capital_in_range]);
    - a Python [dict] is an association list in insertion order ([Dict]);
    - a Python [set] is a duplicate-free list; the order of the list stands
      for the (unspecified) iteration order of the set;
    - exceptions are values of [exn], carried by the [run] monad. *)

From Stdlib Require Import String Ascii ZArith Lia.
From stdpp Require Import base option list sets relations sorting strings.

Set Warnings "-clear-no-such-hyp".


(** ** Python strings *)

Module Str.

(** [s.startswith(p)], returning what follows the prefix. *)
Fixpoint strip_prefix (p s : string) : option string :=
  match p, s with
  | EmptyString, _ => Some s
  | String a p', String b s' =>
      if Ascii.eqb a b then strip_prefix p' s' else None
  | String _ _, EmptyString => None
  end.

(** [s[:n]] *)
Fixpoint take (n : nat) (s : string) : string :=
  match n, s with
  | S n', String c s' => String c (take n' s')
  | _, _ => EmptyString
  end.

(** [s.endswith(p)] *)
Definition endswith (s p : string) : bool :=
  String.eqb (substring (String.length s - String.length p) (String.length p) s) p
  && (String.length p <=? String.length s)%nat.

Definition code (c : ascii) : nat := nat_of_ascii c.

Definition is_upper (c : ascii) : bool := (65 <=? code c)%nat && (code c <=? 90)%nat.
Definition is_lower (c : ascii) : bool := (97 <=? code c)%nat && (code c <=? 122)%nat.
Definition is_digit (c : ascii) : bool := (48 <=? code c)%nat && (code c <=? 57)%nat.

(** The class [[a-zA-Z0-9_]] (also written [[A-Za-z0-9_]]). *)
Definition is_ident (c : ascii) : bool :=
  is_lower c || is_upper c || is_digit c || Ascii.eqb c "_"%char.

(** The class [\s] of a [str] pattern, on code points below 256. *)
Definition is_space (c : ascii) : bool :=
  ((9 <=? code c)%nat && (code c <=? 13)%nat)
  || ((28 <=? code c)%nat && (code c <=? 32)%nat)
  || (code c =? 133)%nat || (code c =? 160)%nat.

Definition newline : ascii := ascii_of_nat 10.

(** The letters above 127 that have a case: the capitals 192-222 without
    the multiplication sign (215), the small letters 224-254 without the
    division sign (247). *)
Definition is_upper_latin (c : ascii) : bool :=
  (192 <=? code c)%nat && (code c <=? 222)%nat && negb (code c =? 215)%nat.
Definition is_lower_latin (c : ascii) : bool :=
  (224 <=? code c)%nat && (code c <=? 254)%nat && negb (code c =? 247)%nat.

(** [c.lower()] on code points below 256. *)
Definition lower (c : ascii) : ascii :=
  if is_upper c || is_upper_latin c then ascii_of_nat (code c + 32) else c.

(** The title case that [capitalize] gives the first character: a string,
    since the sharp s (223) becomes [Ss]. The micro sign (181) and the y
    with diaeresis (255) have their capitals at the code points 924 and
    376, which a [string] cannot hold: the embedding keeps these two
    characters, and [capital_in_range] tells the strings on which
    [capitalize] is what Python computes. *)
Definition title (c : ascii) : string :=
  if (code c =? 223)%nat then String (ascii_of_nat 83) (String (ascii_of_nat 115) EmptyString)
  else if is_lower c || is_lower_latin c
       then String (ascii_of_nat (code c - 32)) EmptyString
       else String c EmptyString.

Definition capital_in_range (s : string) : bool :=
  match s with
  | EmptyString => true
  | String c _ => negb ((code c =? 181)%nat || (code c =? 255)%nat)
  end.

Fixpoint map (f : ascii → ascii) (s : string) : string :=
  match s with
  | EmptyString => EmptyString
  | String c s' => String (f c) (map f s')
  end.

(** [s.capitalize()] on code points below 256: the first character in
    title case, the others lower-cased; characters without a case are
    kept. *)
Definition capitalize (s : string) : string :=
  match s with
  | EmptyString => EmptyString
  | String c s' => String.append (title c) (map lower s')
  end.

(** [s.split(sep)[0]] for a one-character separator. *)
Fixpoint before (sep : ascii) (s : string) : string :=
  match s with
  | EmptyString => EmptyString
  | String c s' => if Ascii.eqb c sep then EmptyString else String c (before sep s')
  end.

(** [sep.join(l)] *)
Definition join (sep : string) (l : list string) : string := String.concat sep l.

(** [sorted(l)] for a list of strings; [String.le] is the order of [str]
    values, lexicographic on code points. *)
Definition sorted (l : list string) : list string := merge_sort String.le l.

End Str.

(** ** Python dictionaries and sets *)

Module Dict.
Section dict.
Context {V : Type}.

Definition t := list (string * V).

(** [d.get(k)] *)
Fixpoint get (d : t) (k : string) : option V :=
  match d with
  | [] => None
  | (k', v) :: d' => if String.eqb k' k then Some v else get d' k
  end.

(** [d[k] = v]: a present key keeps its place, a new key goes last. *)
Fixpoint set (d : t) (k : string) (v : V) : t :=
  match d with
  | [] => [(k, v)]
  | (k', v') :: d' =>
      if String.eqb k' k then (k', v) :: d' else (k', v') :: set d' k v
  end.

(** [del d[k]] *)
Fixpoint del (d : t) (k : string) : t :=
  match d with
  | [] => []
  | (k', v') :: d' => if String.eqb k' k then d' else (k', v') :: del d' k
  end.

Definition keys (d : t) : list string := d.*1.
Definition values (d : t) : list V := d.*2.
Definition mem (d : t) (k : string) : bool := bool_decide (is_Some (get d k)).
End dict.
Arguments t : clear implicits.
End Dict.

Module PySet.
Abbreviation t := (list string).

Definition mem (x : string) (s : t) : bool := bool_decide (x ∈ s).

(** [s.add(x)] *)
Definition add (x : string) (s : t) : t := if mem x s then s else s ++ [x].

(** [s - u] *)
Definition diff (s u : t) : t := filter (λ x, x ∉ u) s.

(** [set(l)] *)
Definition of_list (l : list string) : t := foldl (λ s x, add x s) [] l.
End PySet.

(** ** Regular expressions: the fragment of [re] the program uses

    [matches r s] lists, in the order in which a backtracking matcher tries
    them, the inputs left over after each way [r] can match a prefix of [s].
    The first success of a whole pattern is therefore the match [re] reports. *)

Module Re.

Inductive regex : Type :=
| Lit (l : string)              (* literal text *)
| Class (p : ascii → bool)      (* one character of a class *)
| Cat (r1 r2 : regex)
| Alt (r1 r2 : regex)
| Star (r : regex)              (* greedy [r*] *)
| LazyStar (r : regex).         (* [r*?] *)

Definition Plus (r : regex) : regex := Cat r (Star r).   (* [r+] *)
Definition Opt (r : regex) : regex := Alt r (Lit "").    (* [r?] *)

Definition shorter (s s' : string) : bool := (String.length s' <? String.length s)%nat.

(** Repetition; every iteration must consume input, so that [n] rounds
    with [n] the length of the input are all there can be. *)
Fixpoint star_greedy (step : string → list string) (n : nat) (s : string) : list string :=
  match n with
  | 0 => [s]
  | S n' =>
      (s' ← filter (λ s', shorter s s' = true) (step s); star_greedy step n' s') ++ [s]
  end.

Fixpoint star_lazy (step : string → list string) (n : nat) (s : string) : list string :=
  match n with
  | 0 => [s]
  | S n' =>
      s :: (s' ← filter (λ s', shorter s s' = true) (step s); star_lazy step n' s')
  end.

Fixpoint matches (r : regex) (s : string) {struct r} : list string :=
  match r with
  | Lit l => match Str.strip_prefix l s with Some s' => [s'] | None => [] end
  | Class p =>
      match s with
      | String c s' => if p c then [s'] else []
      | EmptyString => []
      end
  | Cat r1 r2 => s1 ← matches r1 s; matches r2 s1
  | Alt r1 r2 => matches r1 s ++ matches r2 s
  | Star r1 => star_greedy (matches r1) (String.length s) s
  | LazyStar r1 => star_lazy (matches r1) (String.length s) s
  end.

(** A pattern with one capturing group: [pre(grp)post]. *)
Record pattern := { pre : regex; grp : regex; post : regex }.

(** Match at the start of [s]: the text of the group and the input left. *)
Definition match_at (p : pattern) (s : string) : option (string * string) :=
  head (s1 ← matches (pre p) s;
        s2 ← matches (grp p) s1;
        s3 ← matches (post p) s2;
        [(Str.take (String.length s1 - String.length s2) s1, s3)]).

(** [re.search(p, s).group(1)], [None] when there is no match. *)
Fixpoint search (p : pattern) (s : string) : option string :=
  match match_at p s with
  | Some (g, _) => Some g
  | None =>
      match s with
      | EmptyString => None
      | String _ s' => search p s'
      end
  end.

(** [re.findall(p, s)]: the groups of the successive non-overlapping
    matches, leftmost first. *)
Fixpoint findall_from (p : pattern) (n : nat) (s : string) : list string :=
  match n with
  | 0 => []
  | S n' =>
      match match_at p s with
      | Some (g, rest) => g :: findall_from p n' rest
      | None =>
          match s with
          | EmptyString => []
          | String _ s' => findall_from p n' s'
          end
      end
  end.

Definition findall (p : pattern) (s : string) : list string :=
  findall_from p (S (String.length s)) s.

Definition space : regex := Class Str.is_space.
Definition ident : regex := Class Str.is_ident.
Definition any : regex := Class (λ _, true).                              (* [.] with DOTALL *)
Definition dot : regex := Class (λ c, negb (Ascii.eqb c Str.newline)).    (* [.] *)

(** [[A-Z][a-zA-Z0-9_]+] *)
Definition type_name : regex := Cat (Class Str.is_upper) (Plus ident).

End Re.

(** ** The program *)

Definition SCALAR_TYPES : PySet.t :=
  [ "ID"; "String"; "Boolean"; "uri"; "code"; "markdown"; "instant";
    "positiveInt"; "dateTime"; "Int"; "Float"; "date"; "base64Binary";
    "canonical"; "oid"; "time"; "unsignedInt"; "url"; "uuid"; "xhtml";
    "decimal" ].

(** [(?:type|interface)\s+([A-Z][a-zA-Z0-9_]+)] *)
Definition defined_type_pattern : Re.pattern :=
  {| Re.pre := Re.Cat (Re.Alt (Re.Lit "type") (Re.Lit "interface")) (Re.Plus Re.space);
     Re.grp := Re.type_name;
     Re.post := Re.Lit "" |}.

Definition get_defined_types (content : string) : list string :=
  Re.findall defined_type_pattern content.

(** [type\s+([A-Z][a-zA-Z0-9_]+)\s*implements\s*.*?{interface}] *)
Definition implements_pattern (interface : string) : Re.pattern :=
  {| Re.pre := Re.Cat (Re.Lit "type") (Re.Plus Re.space);
     Re.grp := Re.type_name;
     Re.post :=
       Re.Cat (Re.Star Re.space)
         (Re.Cat (Re.Lit "implements")
            (Re.Cat (Re.Star Re.space)
               (Re.Cat (Re.LazyStar Re.dot) (Re.Lit interface)))) |}.

(** [type\s+([A-Z][a-zA-Z0-9_]+)] *)
Definition first_type_pattern : Re.pattern :=
  {| Re.pre := Re.Cat (Re.Lit "type") (Re.Plus Re.space);
     Re.grp := Re.type_name;
     Re.post := Re.Lit "" |}.

(** The two declaration branches of [get_main_resource_name]: the loop over
    the marker interfaces, then the first type declaration. *)
Fixpoint first_implementing (interfaces : list string) (content : string) : option string :=
  match interfaces with
  | [] => None
  | interface :: rest =>
      match Re.search (implements_pattern interface) content with
      | Some name => Some name
      | None => first_implementing rest content
      end
  end.

Definition declared_resource_name (content : string) : option string :=
  match first_implementing ["IDomainResource"; "IResource"] content with
  | Some name => Some name
  | None => Re.search first_type_pattern content
  end.

Definition get_main_resource_name (content filename : string) : string :=
  match declared_resource_name content with
  | Some name => name
  | None => Str.capitalize (Str.before "."%char filename)
  end.

(** [(?:type|interface)\s+[A-Za-z0-9_]+\s*(?:implements\s*.*?)*\s*\{([^}]+)\}]
    with [re.DOTALL] *)
Definition type_body_pattern : Re.pattern :=
  {| Re.pre :=
       Re.Cat (Re.Alt (Re.Lit "type") (Re.Lit "interface"))
         (Re.Cat (Re.Plus Re.space)
            (Re.Cat (Re.Plus Re.ident)
               (Re.Cat (Re.Star Re.space)
                  (Re.Cat
                     (Re.Star (Re.Cat (Re.Lit "implements")
                                 (Re.Cat (Re.Star Re.space) (Re.LazyStar Re.any))))
                     (Re.Cat (Re.Star Re.space) (Re.Lit "{"))))));
     Re.grp := Re.Plus (Re.Class (λ c, negb (Ascii.eqb c "}"%char)));
     Re.post := Re.Lit "}" |}.

(** [:\s*\[?([A-Z][a-zA-Z0-9_]+)] *)
Definition field_type_pattern : Re.pattern :=
  {| Re.pre := Re.Cat (Re.Lit ":") (Re.Cat (Re.Star Re.space) (Re.Opt (Re.Lit "[")));
     Re.grp := Re.type_name;
     Re.post := Re.Lit "" |}.

(** The field types found in the bodies, in the order the loops meet them. *)
Definition field_types_of_content (content : string) : list string :=
  type_def ← Re.findall type_body_pattern content;
  Re.findall field_type_pattern type_def.

Definition get_dependencies_from_content (content : string) : PySet.t :=
  foldl (λ dependencies ftype, PySet.add ftype dependencies) [] (field_types_of_content content).

(** ** Exceptions and partial runs *)

Inductive exn : Type :=
| ValueError
| KeyError
| IndexError
| CycleError (cycle : list string).

(** The outcome of running a piece of the program: a value, an exception
    that nothing catches, or a run that is still going when the fuel given
    to a loop or to a recursion is used up. *)
Inductive run (A : Type) : Type :=
| Ok (a : A)
| Raise (e : exn)
| OutOfFuel.
Arguments Ok {A} a.
Arguments Raise {A} e.
Arguments OutOfFuel {A}.

#[export] Instance run_ret : MRet run := λ A a, Ok a.
#[export] Instance run_bind : MBind run := λ A B f m,
  match m with
  | Ok a => f a
  | Raise e => Raise e
  | OutOfFuel => OutOfFuel
  end.

(** A comprehension or [for] loop whose body updates a state. *)
Fixpoint mapM_st {A B S : Type} (f : S → A → run (B * S)) (s : S) (l : list A)
  : run (list B * S) :=
  match l with
  | [] => Ok ([], s)
  | a :: l' =>
      '(b, s1) ← f s a;
      '(bs, s2) ← mapM_st f s1 l';
      Ok (b :: bs, s2)
  end.

Fixpoint foldM {A S : Type} (f : S → A → run S) (s : S) (l : list A) : run S :=
  match l with
  | [] => Ok s
  | a :: l' => s1 ← f s a; foldM f s1 l'
  end.

(** ** [graphlib.TopologicalSorter] *)

Module graphlib.

Definition _NODE_OUT : Z := -1.
Definition _NODE_DONE : Z := -2.

Record _NodeInfo : Type := {
  node : string;
  npredecessors : Z;
  successors : list string
}.

Definition set_npredecessors (n : Z) (i : _NodeInfo) : _NodeInfo :=
  {| node := node i; npredecessors := n; successors := successors i |}.

Definition append_successor (s : string) (i : _NodeInfo) : _NodeInfo :=
  {| node := node i; npredecessors := npredecessors i; successors := successors i ++ [s] |}.

Record TopologicalSorter : Type := {
  _node2info : Dict.t _NodeInfo;
  _ready_nodes : option (list string);     (* [None] before [prepare] *)
  _npassedout : nat;
  _nfinished : nat
}.

Definition with_node2info (n2i : Dict.t _NodeInfo) (ts : TopologicalSorter) : TopologicalSorter :=
  {| _node2info := n2i; _ready_nodes := _ready_nodes ts;
     _npassedout := _npassedout ts; _nfinished := _nfinished ts |}.

(** [TopologicalSorter()] *)
Definition empty : TopologicalSorter :=
  {| _node2info := []; _ready_nodes := None; _npassedout := 0; _nfinished := 0 |}.

(** [_get_nodeinfo]: the dictionary afterwards always has the node. *)
Definition _get_nodeinfo (n2i : Dict.t _NodeInfo) (n : string) : Dict.t _NodeInfo :=
  match Dict.get n2i n with
  | Some _ => n2i
  | None => Dict.set n2i n {| node := n; npredecessors := 0; successors := [] |}
  end.

(** An attribute update of the object stored under [n]. *)
Definition update (f : _NodeInfo → _NodeInfo) (n2i : Dict.t _NodeInfo) (n : string)
  : Dict.t _NodeInfo :=
  match Dict.get n2i n with
  | Some i => Dict.set n2i n (f i)
  | None => n2i
  end.

Definition add_edges (n : string) (n2i : Dict.t _NodeInfo) (predecessors : list string)
  : Dict.t _NodeInfo :=
  foldl (λ n2i pred, update (append_successor n) (_get_nodeinfo n2i pred) pred)
        n2i predecessors.

Definition add (ts : TopologicalSorter) (n : string) (predecessors : list string)
  : run TopologicalSorter :=
  match _ready_nodes ts with
  | Some _ => Raise ValueError
  | None =>
      let n2i := _get_nodeinfo (_node2info ts) n in
      let n2i :=
        update (λ i, set_npredecessors (npredecessors i + Z.of_nat (length predecessors)) i)
               n2i n in
      Ok (with_node2info (add_edges n n2i predecessors) ts)
  end.

(** [TopologicalSorter(graph)] *)
Definition init (graph : Dict.t (list string)) : run TopologicalSorter :=
  foldM (λ ts '(n, predecessors), add ts n predecessors) empty graph.

(** The traversal state of [_find_cycle]. The two stacks are kept top
    first: the head of [stack] is the last element of the Python list. *)
Record dfs : Type := {
  stack : list string;
  itstack : list (list string);     (* what each iterator has still to yield *)
  seen : PySet.t;
  node2stacki : Dict.t nat
}.

Definition dfs_empty : dfs :=
  {| stack := []; itstack := []; seen := []; node2stacki := [] |}.

(** The inner [while stack] loop: the next successor to look at, if the
    stack does not run empty first. *)
Fixpoint backtrack (stk : list string) (its : list (list string)) (n2s : Dict.t nat)
  : run (option string * (list string * list (list string) * Dict.t nat)) :=
  match stk with
  | [] => Ok (None, (stk, its, n2s))
  | top :: stk' =>
      match its with
      | [] => Raise IndexError
      | [] :: its' => backtrack stk' its' (Dict.del n2s top)
      | (nxt :: it) :: its' => Ok (Some nxt, (stk, it :: its', n2s))
      end
  end.

(** [stack[i:] + [node]] *)
Definition cycle_of (stk : list string) (i : nat) (n : string) : list string :=
  drop i (reverse stk) ++ [n].

(** The [while True] loop entered with [node = n]. *)
Fixpoint visit (fuel : nat) (n2i : Dict.t _NodeInfo) (n : string) (st : dfs)
  : run (option (list string) * dfs) :=
  match fuel with
  | 0 => OutOfFuel
  | S fuel' =>
      let continue (st1 : dfs) :=
        '(next, (stk, its, n2s)) ← backtrack (stack st1) (itstack st1) (node2stacki st1);
        let st2 := {| stack := stk; itstack := its; seen := seen st1; node2stacki := n2s |} in
        match next with
        | Some n' => visit fuel' n2i n' st2
        | None => Ok (None, st2)
        end in
      if PySet.mem n (seen st) then
        match Dict.get (node2stacki st) n with
        | Some i => Ok (Some (cycle_of (stack st) i n), st)
        | None => continue st
        end
      else
        match Dict.get n2i n with
        | None => Raise KeyError
        | Some info =>
            continue {| stack := n :: stack st;
                        itstack := successors info :: itstack st;
                        seen := PySet.add n (seen st);
                        node2stacki := Dict.set (node2stacki st) n (length (stack st)) |}
        end
  end.

(** The [for node in n2i] loop. *)
Fixpoint find_cycle_from (fuel : nat) (n2i : Dict.t _NodeInfo) (nodes : list string) (st : dfs)
  : run (option (list string)) :=
  match nodes with
  | [] => Ok None
  | n :: nodes' =>
      if PySet.mem n (seen st) then find_cycle_from fuel n2i nodes' st
      else
        '(found, st') ← visit fuel n2i n st;
        match found with
        | Some cycle => Ok (Some cycle)
        | None => find_cycle_from fuel n2i nodes' st'
        end
  end.

(** Every round of [visit] either pushes a node for the first time or
    takes one successor off an iterator, so this many rounds are enough
    (lemma [visit_spec]). *)
Definition dfs_fuel (n2i : Dict.t _NodeInfo) : nat :=
  S (sum_list ((λ i, S (length (successors i))) <$> Dict.values n2i)).

Definition _find_cycle (ts : TopologicalSorter) : run (option (list string)) :=
  find_cycle_from (dfs_fuel (_node2info ts)) (_node2info ts)
                  (Dict.keys (_node2info ts)) dfs_empty.

Definition prepare (ts : TopologicalSorter) : run TopologicalSorter :=
  match _ready_nodes ts with
  | Some _ => Raise ValueError
  | None =>
      let ts' :=
        {| _node2info := _node2info ts;
           _ready_nodes :=
             Some (node <$> filter (λ i, npredecessors i = 0%Z) (Dict.values (_node2info ts)));
           _npassedout := _npassedout ts; _nfinished := _nfinished ts |} in
      cycle ← _find_cycle ts';
      match cycle with
      | Some ((_ :: _) as c) => Raise (CycleError c)
      | _ => Ok ts'
      end
  end.

Definition get_ready (ts : TopologicalSorter) : run (list string * TopologicalSorter) :=
  match _ready_nodes ts with
  | None => Raise ValueError
  | Some result =>
      n2i ← foldM (λ n2i n,
               match Dict.get n2i n with
               | None => Raise KeyError
               | Some i => Ok (Dict.set n2i n (set_npredecessors _NODE_OUT i))
               end) (_node2info ts) result;
      Ok (result,
          {| _node2info := n2i; _ready_nodes := Some [];
             _npassedout := _npassedout ts + length result;
             _nfinished := _nfinished ts |})
  end.

Definition is_active (ts : TopologicalSorter) : run bool :=
  match _ready_nodes ts with
  | None => Raise ValueError
  | Some ready =>
      Ok (bool_decide (_nfinished ts < _npassedout ts)
          || bool_decide (ready ≠ []))
  end.

(** The loop of [done] over the successors of the finished node. *)
Definition notify (st : Dict.t _NodeInfo * list string) (successor : string)
  : run (Dict.t _NodeInfo * list string) :=
  let '(n2i, ready) := st in
  match Dict.get n2i successor with
  | None => Raise KeyError
  | Some info =>
      let info' := set_npredecessors (npredecessors info - 1) info in
      Ok (Dict.set n2i successor info',
          if bool_decide (npredecessors info' = 0%Z) then ready ++ [successor] else ready)
  end.

(** [done(n)] for one node. *)
Definition done1 (ts : TopologicalSorter) (n : string) : run TopologicalSorter :=
  match _ready_nodes ts with
  | None => Raise ValueError
  | Some ready =>
      match Dict.get (_node2info ts) n with
      | None => Raise ValueError
      | Some nodeinfo =>
          if bool_decide (npredecessors nodeinfo ≠ _NODE_OUT) then Raise ValueError
          else
            let n2i := Dict.set (_node2info ts) n (set_npredecessors _NODE_DONE nodeinfo) in
            '(n2i', ready') ← foldM notify (n2i, ready) (successors nodeinfo);
            Ok {| _node2info := n2i'; _ready_nodes := Some ready';
                  _npassedout := _npassedout ts; _nfinished := S (_nfinished ts) |}
      end
  end.

(** [done] for a sequence of nodes. *)
Definition done (ts : TopologicalSorter) (nodes : list string) : run TopologicalSorter :=
  foldM done1 ts nodes.

End graphlib.

(** ** [main] *)

(** Lines 46-59: one pass over the files fills [file_data] (resource to raw
    references) and [type_to_resource_map]. *)
Definition is_graphql (f : string) : bool := Str.endswith f ".graphql".

Definition read_file (st : Dict.t PySet.t * Dict.t string) (file : string * string)
  : Dict.t PySet.t * Dict.t string :=
  let '(file_data, type_to_resource_map) := st in
  let '(filename, content) := file in
  let main_resource := get_main_resource_name content filename in
  let defined_types := get_defined_types content in
  let raw_deps := get_dependencies_from_content content in
  (Dict.set file_data main_resource raw_deps,
   foldl (λ m t, Dict.set m t main_resource) type_to_resource_map defined_types).

Definition read_files (listing : list (string * string)) : Dict.t PySet.t * Dict.t string :=
  foldl read_file ([], []) (filter (λ f, is_graphql f.1 = true) listing).

(** Lines 61-71. [dependency_map] is a [defaultdict(set)]: reading a missing
    key in [dependency_map[resource].add(dep)] creates it. *)
Definition add_dependency (type_to_resource_map : Dict.t string) (resource : string)
    (dependency_map : Dict.t PySet.t) (dep : string) : Dict.t PySet.t :=
  if PySet.mem dep SCALAR_TYPES || String.eqb dep resource then dependency_map
  else if bool_decide (Dict.get type_to_resource_map dep ≠ Some resource) then
    Dict.set dependency_map resource
      (PySet.add dep (default [] (Dict.get dependency_map resource)))
  else dependency_map.

Definition build_dependency_map (file_data : Dict.t PySet.t)
    (type_to_resource_map : Dict.t string) : Dict.t PySet.t :=
  foldl (λ dependency_map '(resource, raw_deps),
           foldl (add_dependency type_to_resource_map resource) dependency_map raw_deps)
        [] file_data.

(** [dependency_map.get(node, [])] *)
Definition deps_of (dependency_map : Dict.t PySet.t) (n : string) : list string :=
  default [] (Dict.get dependency_map n).

(** A line of the CSV table (the header line is constant and left out). *)
Record row : Type := {
  Level : nat;
  Resource : string;
  Dependencies : string
}.

(** Lines 87-90: the rows of one level. *)
Definition write_row (dependency_map : Dict.t PySet.t) (level : nat)
    (st : graphlib.TopologicalSorter * list row) (n : string)
  : run (graphlib.TopologicalSorter * list row) :=
  let '(ts, rows) := st in
  let dependencies := Str.sorted (deps_of dependency_map n) in
  ts' ← graphlib.done ts [n];
  Ok (ts', rows ++ [ {| Level := level; Resource := n;
                        Dependencies := Str.join ", " dependencies |} ]).

(** Lines 82-91: the [while ts.is_active()] loop. The boolean tells whether
    the branch printing "Error: Cycle detected in dependencies." was taken. *)
Fixpoint level_loop (fuel : nat) (dependency_map : Dict.t PySet.t)
    (ts : graphlib.TopologicalSorter) (level : nat) (rows : list row)
  : run (list row * bool) :=
  match fuel with
  | 0 => OutOfFuel
  | S fuel' =>
      active ← graphlib.is_active ts;
      if active : bool then
        '(ready, ts1) ← graphlib.get_ready ts;
        let ready_nodes := Str.sorted ready in
        match ready_nodes with
        | [] => Ok (rows, true)
        | _ =>
            '(ts2, rows2) ← foldM (write_row dependency_map level) (ts1, rows) ready_nodes;
            level_loop fuel' dependency_map ts2 (S level) rows2
        end
      else Ok (rows, false)
  end.

(** Lines 73-92. Every turn of the loop that goes on finishes at least one
    node, so one turn more than there are nodes is enough
    (lemma [level_loop_spec]). *)
Definition leveler (dependency_map : Dict.t PySet.t) : run (list row * bool) :=
  let graph := dependency_map in
  ts ← graphlib.init graph;
  ts ← graphlib.prepare ts;
  level_loop (S (length (graphlib._node2info ts))) dependency_map ts 0 [].

(** Lines 94-109. *)
#[warnings="-register-all"]
Inductive TreeNode : Type :=
| Node (name : string) (children : option (list TreeNode)).

Definition name (t : TreeNode) : string := let 'Node n _ := t in n.
Definition children (t : TreeNode) : option (list TreeNode) := let 'Node _ c := t in c.

Definition all_dependencies (dependency_map : Dict.t PySet.t) : PySet.t :=
  PySet.of_list (deps ← Dict.values dependency_map; deps).

Definition root_nodes (dependency_map : Dict.t PySet.t) : PySet.t :=
  PySet.diff (PySet.of_list (Dict.keys dependency_map)) (all_dependencies dependency_map).

(** [build_node], with the recursion depth bounded by [fuel]; Python's own
    recursion limit is not modelled. *)
Fixpoint build_node (fuel : nat) (dependency_map : Dict.t PySet.t)
    (memo : Dict.t TreeNode) (resource_name : string) : run (TreeNode * Dict.t TreeNode) :=
  match fuel with
  | 0 => OutOfFuel
  | S fuel' =>
      match Dict.get memo resource_name with
      | Some n => Ok (n, memo)
      | None =>
          let dependencies := Str.sorted (deps_of dependency_map resource_name) in
          match dependencies with
          | [] =>
              let n := Node resource_name None in
              Ok (n, Dict.set memo resource_name n)
          | _ =>
              '(cs, memo') ← mapM_st (build_node fuel' dependency_map) memo dependencies;
              let n := Node resource_name (Some cs) in
              Ok (n, Dict.set memo' resource_name n)
          end
      end
  end.

Definition build_trees (fuel : nat) (dependency_map : Dict.t PySet.t) : run (list TreeNode) :=
  '(json_tree, _) ← mapM_st (build_node fuel dependency_map) []
                      (Str.sorted (root_nodes dependency_map));
  Ok json_tree.

(** What [main] leaves behind when no exception escapes it. *)
Record output : Type := {
  csv_rows : list row;
  cycle_message : bool;
  json_tree : list TreeNode
}.

Definition main (fuel : nat) (listing : list (string * string)) : run output :=
  let '(file_data, type_to_resource_map) := read_files listing in
  let dependency_map := build_dependency_map file_data type_to_resource_map in
  '(rows, msg) ← leveler dependency_map;
  trees ← build_trees fuel dependency_map;
  Ok {| csv_rows := rows; cycle_message := msg; json_tree := trees |}.

(** ** Notions used to state the properties *)

(** Every node of a tree, the root first. *)
Fixpoint nodes_of (t : TreeNode) : list TreeNode :=
  t :: match children t with
       | None => []
       | Some cs => (fix go (l : list TreeNode) : list TreeNode :=
                       match l with
                       | [] => []
                       | c :: l' => nodes_of c ++ go l'
                       end) cs
       end.

(** A tree node agrees with the graph: no [children] key when the resource
    has no dependency, otherwise the children are its dependencies, sorted. *)
Definition node_matches (dependency_map : Dict.t PySet.t) (t : TreeNode) : Prop :=
  match children t with
  | None => deps_of dependency_map (name t) = []
  | Some cs =>
      deps_of dependency_map (name t) ≠ []
      ∧ name <$> cs = Str.sorted (deps_of dependency_map (name t))
  end.

(** The graph as [TopologicalSorter(graph)] reads it: the predecessors
    given for a node, the nodes that gave [p] as a predecessor, and every
    node named. *)
Definition count (x : string) (l : list string) : nat := length (filter (λ y, y = x) l).

Definition graph_preds (graph : Dict.t (list string)) (n : string) : list string :=
  '(k, ps) ← graph; if decide (k = n) then ps else [].

Definition graph_succs (graph : Dict.t (list string)) (p : string) : list string :=
  '(k, ps) ← graph; replicate (count p ps) k.

Definition graph_nodes (graph : Dict.t (list string)) : list string :=
  '(k, ps) ← graph; k :: ps.

(** The attributes of a node in [_node2info]. *)
Definition npred_of (n2i : Dict.t graphlib._NodeInfo) (n : string) : Z :=
  from_option graphlib.npredecessors 0%Z (Dict.get n2i n).

Definition succs_of (n2i : Dict.t graphlib._NodeInfo) (n : string) : list string :=
  from_option graphlib.successors [] (Dict.get n2i n).

(** The successor edges stored in [_node2info]; the dictionary is closed
    when every successor is a key. *)
Definition edge (n2i : Dict.t graphlib._NodeInfo) (x y : string) : Prop :=
  y ∈ succs_of n2i x.

Definition closed (n2i : Dict.t graphlib._NodeInfo) : Prop :=
  ∀ x y, edge n2i x y → x ∈ Dict.keys n2i ∧ y ∈ Dict.keys n2i.

(** The nodes [_find_cycle] is through with, latest first: all the
    successors of a node were finished before it. *)
Fixpoint finishing_order (n2i : Dict.t graphlib._NodeInfo) (F : list string) : Prop :=
  match F with
  | [] => True
  | x :: F' => (x ∉ F') ∧ (∀ y, edge n2i x y → y ∈ F') ∧ finishing_order n2i F'
  end.

(** The stack of [_find_cycle] while it looks at the node [above]: each
    entry has yielded successors that are finished, then the entry above
    it, and has [it] still to yield. *)
Fixpoint frames (n2i : Dict.t graphlib._NodeInfo) (F : list string) (above : string)
    (stk : list string) (its : list (list string)) : Prop :=
  match stk, its with
  | [], [] => True
  | x :: stk', it :: its' =>
      (∃ c, succs_of n2i x = c ++ above :: it ∧ ∀ y, y ∈ c → y ∈ F)
      ∧ frames n2i F x stk' its'
  | _, _ => False
  end.

(** The same when the successors the top entry has yielded are all finished. *)
Definition frames_top (n2i : Dict.t graphlib._NodeInfo) (F : list string)
    (stk : list string) (its : list (list string)) : Prop :=
  match stk, its with
  | [], [] => True
  | x :: stk', it :: its' =>
      (∃ c, succs_of n2i x = c ++ it ∧ ∀ y, y ∈ c → y ∈ F)
      ∧ frames n2i F x stk' its'
  | _, _ => False
  end.

Definition dfs_inv (n2i : Dict.t graphlib._NodeInfo) (F stk : list string)
    (sn : PySet.t) (n2s : Dict.t nat) : Prop :=
  (∀ x, x ∈ sn ↔ x ∈ stk ∨ x ∈ F)
  ∧ (∀ x, is_Some (Dict.get n2s x) ↔ x ∈ stk)
  ∧ NoDup (Dict.keys n2s)
  ∧ NoDup stk
  ∧ (∀ x, x ∈ stk → x ∉ F)
  ∧ finishing_order n2i F.

(** What bounds the number of rounds [visit] still has to make. *)
Definition unseen_weight (n2i : Dict.t graphlib._NodeInfo) (sn : PySet.t) : nat :=
  sum_list ((λ e, if decide (e.1 ∈ sn) then 0 else S (length (graphlib.successors e.2)))
              <$> n2i).

Definition dfs_weight (n2i : Dict.t graphlib._NodeInfo) (its : list (list string))
    (sn : PySet.t) : nat :=
  sum_list (length <$> its) + unseen_weight n2i sn.

(** The state of the sorter between [prepare] and the last [done].
    [waiting] counts the predecessors not yet marked done; [out] lists the
    nodes passed out by [get_ready] and not yet done; [pend] lists the
    successors that the running [done] has still to notify. *)
Definition waiting (n2i : Dict.t graphlib._NodeInfo) (l : list string) : nat :=
  length (filter (λ p, npred_of n2i p ≠ graphlib._NODE_DONE) l).

Definition sorter_static (graph : Dict.t (list string)) (n2i : Dict.t graphlib._NodeInfo)
  : Prop :=
  NoDup (Dict.keys n2i)
  ∧ (∀ x, x ∈ Dict.keys n2i ↔ x ∈ graph_nodes graph)
  ∧ (∀ m, succs_of n2i m = graph_succs graph m).

Definition node_inv (graph : Dict.t (list string)) (n2i : Dict.t graphlib._NodeInfo)
    (out pend : list string) (n : string) : Prop :=
  (npred_of n2i n = graphlib._NODE_DONE
   ∧ waiting n2i (graph_preds graph n) = 0 ∧ n ∉ pend)
  ∨ (npred_of n2i n = graphlib._NODE_OUT ∧ n ∈ out
     ∧ waiting n2i (graph_preds graph n) = 0 ∧ n ∉ pend)
  ∨ npred_of n2i n = Z.of_nat (waiting n2i (graph_preds graph n) + count n pend).

Definition sorter_inv (graph : Dict.t (list string)) (out pend : list string)
    (n2i : Dict.t graphlib._NodeInfo) (ready : list string) : Prop :=
  sorter_static graph n2i
  ∧ NoDup ready ∧ NoDup out
  ∧ (∀ n, n ∈ ready ↔ n ∈ Dict.keys n2i ∧ npred_of n2i n = 0%Z)
  ∧ (∀ n, n ∈ Dict.keys n2i → node_inv graph n2i out pend n)
  ∧ (∀ n, n ∈ out → n ∈ Dict.keys n2i ∧ npred_of n2i n = graphlib._NODE_OUT).

(** Every [_NodeInfo] is stored under the node it describes. *)
Definition node_ok (n2i : Dict.t graphlib._NodeInfo) : Prop :=
  ∀ k i, Dict.get n2i k = Some i → graphlib.node i = k.

(** The level table. [row_of] is the line lines 88-89 write for a node;
    [has_row] reads a level off the table; [tight] says that a level is the
    least one above the levels of the predecessors; [row_lt] is the order
    of the lines: by level, then by name. *)
Definition row_of (dependency_map : Dict.t PySet.t) (level : nat) (n : string) : row :=
  {| Level := level; Resource := n;
     Dependencies := Str.join ", " (Str.sorted (deps_of dependency_map n)) |}.

Definition has_row (rows : list row) (l : nat) (n : string) : Prop :=
  ∃ r, r ∈ rows ∧ Level r = l ∧ Resource r = n.

Definition tight (graph : Dict.t (list string)) (rows : list row) (l : nat) (n : string)
  : Prop :=
  (l = 0 ∧ graph_preds graph n = [])
  ∨ (∃ p l', p ∈ graph_preds graph n ∧ has_row rows l' p ∧ l = S l').

Definition row_lt (r1 r2 : row) : Prop :=
  Level r1 < Level r2
  ∨ (Level r1 = Level r2 ∧ strict String.le (Resource r1) (Resource r2)).

(** The table is a leveling of the nodes in [done]: one line per node, with
    a level above those of its predecessors, and the least such. *)
Definition rows_inv (dependency_map : Dict.t PySet.t) (done : string → Prop)
    (rows : list row) : Prop :=
  (∀ n, done n ↔ n ∈ Resource <$> rows)
  ∧ NoDup (Resource <$> rows)
  ∧ (∀ r, r ∈ rows → r = row_of dependency_map (Level r) (Resource r))
  ∧ (∀ r p, r ∈ rows → p ∈ graph_preds dependency_map (Resource r) →
            ∃ l', has_row rows l' p ∧ l' < Level r)
  ∧ (∀ r, r ∈ rows → tight dependency_map rows (Level r) (Resource r))
  ∧ StronglySorted row_lt rows.

(** At the head of the [while] loop, about to hand out level [k]. *)
Definition head_inv (dependency_map : Dict.t PySet.t) (n2i : Dict.t graphlib._NodeInfo)
    (k : nat) (ready : list string) (rows : list row) : Prop :=
  rows_inv dependency_map (λ n, npred_of n2i n = graphlib._NODE_DONE) rows
  ∧ (∀ r, r ∈ rows → Level r < k)
  ∧ (∀ n, n ∈ ready → tight dependency_map rows k n).

(** Inside the [for] loop of level [k], with [out] still to write. *)
Definition inner_inv (dependency_map : Dict.t PySet.t) (n2i : Dict.t graphlib._NodeInfo)
    (k : nat) (out ready : list string) (rows : list row) : Prop :=
  head_inv dependency_map n2i (S k) ready rows
  ∧ StronglySorted String.le out
  ∧ ∀ n, n ∈ out →
      tight dependency_map rows k n
      ∧ (∀ p, p ∈ graph_preds dependency_map n → ∃ l', has_row rows l' p ∧ l' < k)
      ∧ (∀ r, r ∈ rows → row_lt r (row_of dependency_map k n)).

(** [depends graph a b]: the graph gives [b] as a predecessor of [a]. *)
Definition depends (graph : Dict.t (list string)) (a b : string) : Prop :=
  b ∈ graph_preds graph a.

Definition acyclic (graph : Dict.t (list string)) : Prop :=
  ∀ x, ¬ tc (depends graph) x x.

(** The finished table: a leveling of every node the graph names. *)
Definition leveled (dependency_map : Dict.t PySet.t) (rows : list row) : Prop :=
  rows_inv dependency_map (λ n, n ∈ graph_nodes dependency_map) rows.

(** [chain graph n k]: a chain of [k] dependencies starts at [n]
    ([n] depends on a node that depends on a node ..., [k] times). *)
Inductive chain (graph : Dict.t (list string)) : string → nat → Prop :=
| chain_0 n : chain graph n 0
| chain_S n d k : depends graph n d → chain graph d k → chain graph n (S k).

(** Two dictionaries that hold the same graph: the same keys and, under
    each key, the same dependencies, in whatever order. *)
Definition same_graph (dm1 dm2 : Dict.t PySet.t) : Prop :=
  Dict.keys dm1 ≡ₚ Dict.keys dm2 ∧ ∀ n, deps_of dm1 n ≡ₚ deps_of dm2 n.

(** What holds of every tree the builder returns or keeps in [memo]. *)
Definition tree_ok (dependency_map : Dict.t PySet.t) (n : string) (t : TreeNode) : Prop :=
  name t = n ∧ Forall (node_matches dependency_map) (nodes_of t).

Definition memo_ok (dependency_map : Dict.t PySet.t) (memo : Dict.t TreeNode) : Prop :=
  ∀ n t, Dict.get memo n = Some t → tree_ok dependency_map n t.

(** ** Notions used to state the further properties *)

(** Every character of [s] is in the class [p]; [c] occurs in [s]. *)
Fixpoint all_chars (p : ascii → bool) (s : string) : bool :=
  match s with
  | EmptyString => true
  | String c s' => p c && all_chars p s'
  end.

Fixpoint occurs (c : ascii) (s : string) : bool :=
  match s with
  | EmptyString => false
  | String c' s' => Ascii.eqb c' c || occurs c s'
  end.

(** A capitalized identifier: an upper-case letter, then one or more
    letters, digits or underscores. *)
Definition is_type_name (s : string) : bool :=
  match s with
  | String c (String c' rest) =>
      Str.is_upper c && Str.is_ident c' && all_chars Str.is_ident rest
  | _ => false
  end.

(** The files of the listing that line 47 keeps. *)
Definition graphql_files (listing : list (string * string)) : list (string * string) :=
  filter (λ f, is_graphql f.1 = true) listing.

(** The dependency map that [main] builds from the files (lines 46-71). *)
Definition dependency_map_of (listing : list (string * string)) : Dict.t PySet.t :=
  build_dependency_map (read_files listing).1 (read_files listing).2.

(** The height of a tree: 0 for a node without [children]. *)
Fixpoint height (t : TreeNode) : nat :=
  match children t with
  | None => 0
  | Some cs => S ((fix go (l : list TreeNode) : nat :=
                     match l with
                     | [] => 0
                     | c :: l' => height c `max` go l'
                     end) cs)
  end.

(** What lines 62-71 keep true of [dependency_map]: a key is there only
    because something was added under it, and [set.add] keeps a set free of
    duplicates. *)
Definition map_shape (keys : list string) (dependency_map : Dict.t PySet.t) : Prop :=
  ∀ R ds, Dict.get dependency_map R = Some ds → ds ≠ [] ∧ NoDup ds ∧ R ∈ keys.

(** [node2stacki] gives a node on the stack of [_find_cycle] its index in
    the Python list [stack], which is [stk] read from its far end. *)
Definition index_inv (stk : list string) (n2s : Dict.t nat) : Prop :=
  ∀ x i, Dict.get n2s x = Some i → reverse stk !! i = Some x.

(** [is_path R c]: each element of [c] is related to the next by [R];
    [is_cycle R c]: such a path, of two elements at least, that ends where
    it starts. *)
Fixpoint is_path (R : string → string → Prop) (c : list string) : Prop :=
  match c with
  | [] => True
  | x :: c' => match c' with [] => True | y :: _ => R x y end ∧ is_path R c'
  end.

Definition is_cycle (R : string → string → Prop) (c : list string) : Prop :=
  2 ≤ length c ∧ head c = last c ∧ is_path R c.

(** A listing without naming conflicts: no two [.graphql] files have the
    same main resource, and no type is defined in the files of two
    resources. *)
Definition conflict_free (listing : list (string * string)) : Prop :=
  (∀ f c f' c', (f, c) ∈ graphql_files listing → (f', c') ∈ graphql_files listing →
     get_main_resource_name c f = get_main_resource_name c' f' → (f, c) = (f', c'))
  ∧ (∀ t f c f' c', (f, c) ∈ graphql_files listing → (f', c') ∈ graphql_files listing →
       t ∈ get_defined_types c → t ∈ get_defined_types c' →
       get_main_resource_name c f = get_main_resource_name c' f').

(** [t] occurs in [s]. *)
Definition substring (t s : string) : Prop := ∃ a b, s = a +:+ t +:+ b.


(** * Properties *)

(** ** The program on small inputs *)

Example capitalize_ex :
  Str.capitalize (String (ascii_of_nat 233) "LAN") = String (ascii_of_nat 201) "lan"
  ∧ Str.capitalize (String (ascii_of_nat 223) "X") = "Ssx"
  ∧ Str.capitalize "valueSet" = "Valueset".
Proof. vm_compute. done. Qed.

Example get_defined_types_ex :
  get_defined_types "type Patient implements IDomainResource { id: ID name: [HumanName] }
interface IResource { x: String } type A {}" = ["Patient"; "IResource"].
Proof. vm_compute. reflexivity. Qed.

Example get_deps_ex :
  get_dependencies_from_content "type Patient implements IDomainResource { id: ID name: [HumanName] c: Patient_Contact }
type Patient_Contact { x: String y: A z:HumanName }" = ["ID"; "HumanName"; "Patient_Contact"; "String"].
Proof. vm_compute. reflexivity. Qed.

Example get_main_ex :
  get_main_resource_name "type Foo { a: B } type Patientimplements IResource { id: ID }" "x.graphql" = "Patient"
  ∧ get_main_resource_name "interface foo" "patient.Extra.graphql" = "Patient".
Proof. vm_compute. split; reflexivity. Qed.

Example main_ex :
  main 5 [("a.graphql", "type Aa implements IResource { b: Bar s: String }");
          ("b.graphql", "type Bb { x: ID }  type Bar { y : Bb }");
          ("c.txt", "type Zed { x : Aa }")]
  = Ok {| csv_rows := [ {| Level := 0; Resource := "Bar"; Dependencies := "" |};
                        {| Level := 1; Resource := "Aa"; Dependencies := "Bar" |} ];
          cycle_message := false;
          json_tree := [Node "Aa" (Some [Node "Bar" None])] |}.
Proof. vm_compute. reflexivity. Qed.

Example cyc_ex :
  leveler [("A", ["B"]); ("B", ["A"]); ("C", ["D"])] = Raise (CycleError ["A"; "B"; "A"]).
Proof. vm_compute. reflexivity. Qed.

(** ** Extraction patterns: what a captured name looks like *)

Section patterns.

Lemma take_length n s :
  n ≤ String.length s → String.length (Str.take n s) = n.
Proof.
  revert s; induction n as [|n IH]; intros [|c s] Hn; simpl in *; try lia.
  rewrite IH; lia.
Qed.

Lemma strip_prefix_length p s s' :
  Str.strip_prefix p s = Some s' →
  String.length s = String.length p + String.length s'.
Proof.
  revert s; induction p as [|a p IH]; intros s; simpl.
  - intros [= ->]; lia.
  - destruct s as [|b s]; [done|].
    destruct (Ascii.eqb a b); [|done].
    intros H; apply IH in H; simpl; lia.
Qed.

Lemma star_greedy_length step n s s' :
  s' ∈ Re.star_greedy step n s → String.length s' ≤ String.length s.
Proof.
  revert s; induction n as [|n IH]; intros s; simpl.
  - rewrite list_elem_of_singleton; intros ->; lia.
  - rewrite elem_of_app, list_elem_of_bind, list_elem_of_singleton.
    intros [(s1 & Hs' & Hs1)| ->]; [|lia].
    apply list_elem_of_filter in Hs1 as [Hsh _].
    apply IH in Hs'. unfold Re.shorter in Hsh.
    apply Nat.ltb_lt in Hsh. lia.
Qed.

Lemma star_lazy_length step n s s' :
  s' ∈ Re.star_lazy step n s → String.length s' ≤ String.length s.
Proof.
  revert s; induction n as [|n IH]; intros s; simpl.
  - rewrite list_elem_of_singleton; intros ->; lia.
  - rewrite elem_of_cons, list_elem_of_bind.
    intros [->|(s1 & Hs' & Hs1)]; [lia|].
    apply list_elem_of_filter in Hs1 as [Hsh _].
    apply IH in Hs'. unfold Re.shorter in Hsh.
    apply Nat.ltb_lt in Hsh. lia.
Qed.

(** A match consumes a prefix: what is left is never longer. *)
Lemma matches_length r s s' :
  s' ∈ Re.matches r s → String.length s' ≤ String.length s.
Proof.
  revert s s'; induction r as [l|p|r1 IH1 r2 IH2|r1 IH1 r2 IH2|r IH|r IH];
    intros s s'; simpl.
  - destruct (Str.strip_prefix l s) as [s0|] eqn:E.
    + rewrite list_elem_of_singleton; intros ->.
      apply strip_prefix_length in E; lia.
    + by rewrite elem_of_nil.
  - destruct s as [|c s]; [by rewrite elem_of_nil|].
    destruct (p c); [|by rewrite elem_of_nil].
    rewrite list_elem_of_singleton; intros ->; simpl; lia.
  - rewrite list_elem_of_bind. intros (s1 & H2 & H1).
    apply IH1 in H1. apply IH2 in H2. lia.
  - rewrite elem_of_app. intros [H|H]; eauto.
  - apply star_greedy_length.
  - apply star_lazy_length.
Qed.

(** [[A-Z][a-zA-Z0-9_]+] consumes an upper-case letter and at least one
    more character. *)
Lemma type_name_consumes s s' :
  s' ∈ Re.matches Re.type_name s → String.length s' + 2 ≤ String.length s.
Proof.
  unfold Re.type_name, Re.Plus, Re.ident. simpl Re.matches.
  rewrite list_elem_of_bind. intros (s1 & H2 & H1).
  destruct s as [|c s]; [by apply elem_of_nil in H1|].
  destruct (Str.is_upper c); [|by apply elem_of_nil in H1].
  apply list_elem_of_singleton in H1 as ->.
  apply list_elem_of_bind in H2 as (s2 & H3 & H2).
  destruct s as [|c' s]; [by apply elem_of_nil in H2|].
  destruct (Str.is_ident c'); [|by apply elem_of_nil in H2].
  apply list_elem_of_singleton in H2 as ->.
  apply star_greedy_length in H3. simpl. lia.
Qed.

Lemma type_name_head s s' :
  s' ∈ Re.matches Re.type_name s →
  ∃ c rest, s = String c rest ∧ Str.is_upper c = true.
Proof.
  unfold Re.type_name. simpl Re.matches.
  rewrite list_elem_of_bind. intros (s1 & _ & H1).
  destruct s as [|c s]; [by apply elem_of_nil in H1|].
  destruct (Str.is_upper c) eqn:E; [|by apply elem_of_nil in H1].
  eauto.
Qed.

Lemma match_at_group p s g rest :
  Re.grp p = Re.type_name → Re.match_at p s = Some (g, rest) → 2 ≤ String.length g.
Proof.
  unfold Re.match_at. intros Hp H.
  apply head_Some_elem_of in H.
  apply list_elem_of_bind in H as (s1 & H & _).
  apply list_elem_of_bind in H as (s2 & H & H2).
  apply list_elem_of_bind in H as (s3 & H & _).
  apply list_elem_of_singleton in H. injection H as -> ->.
  rewrite Hp in H2. apply type_name_consumes in H2.
  rewrite take_length; lia.
Qed.

Lemma search_group p s g :
  Re.grp p = Re.type_name → Re.search p s = Some g → 2 ≤ String.length g.
Proof.
  intros Hp. induction s as [|c s IH]; simpl.
  - destruct (Re.match_at p "") as [[g' r]|] eqn:E; [|done].
    intros [= ->]. eapply match_at_group; eauto.
  - destruct (Re.match_at p (String c s)) as [[g' r]|] eqn:E; [|done].
    intros [= ->]. eapply match_at_group; eauto.
Qed.

Lemma findall_from_group p n s g :
  Re.grp p = Re.type_name → g ∈ Re.findall_from p n s → 2 ≤ String.length g.
Proof.
  intros Hp. revert s; induction n as [|n IH]; intros s; simpl.
  - by rewrite elem_of_nil.
  - destruct (Re.match_at p s) as [[g' r]|] eqn:E.
    + rewrite elem_of_cons. intros [->|H]; [eapply match_at_group|]; eauto.
    + destruct s; [by rewrite elem_of_nil|eauto].
Qed.

Lemma elem_of_foldl_add (l : list string) (acc : PySet.t) x :
  x ∈ foldl (λ s y, PySet.add y s) acc l ↔ x ∈ acc ∨ x ∈ l.
Proof.
  revert acc; induction l as [|y l IH]; intros acc; simpl.
  - rewrite elem_of_nil. tauto.
  - rewrite IH, elem_of_cons. unfold PySet.add, PySet.mem.
    case_bool_decide as Hy.
    + split; [tauto|]. intros [?|[->|?]]; tauto.
    + rewrite elem_of_app, list_elem_of_singleton. tauto.
Qed.

Lemma elem_of_get_dependencies content x :
  x ∈ get_dependencies_from_content content ↔ x ∈ field_types_of_content content.
Proof.
  unfold get_dependencies_from_content.
  rewrite (elem_of_foldl_add _ [] x), elem_of_nil. tauto.
Qed.

End patterns.

(** C10. Every name the patterns extract has at least two characters: the
    defined types, the resource chosen by a declaration match (not the
    file-name fallback), and the collected references. A type named by a
    single upper-case letter is therefore never extracted. *)
Theorem extracted_names_have_two_characters (content : string) :
  (∀ t, t ∈ get_defined_types content → 2 ≤ String.length t)
  ∧ (∀ t, declared_resource_name content = Some t → 2 ≤ String.length t)
  ∧ (∀ t, t ∈ get_dependencies_from_content content → 2 ≤ String.length t)
  ∧ get_defined_types "type A" = []
  ∧ declared_resource_name "type A implements IResource { x: A }" = None
  ∧ get_dependencies_from_content "type Aa { x: A y: [A] }" = [].
Proof.
  split_and!.
  - intros t. by apply findall_from_group.
  - intros t. unfold declared_resource_name; simpl.
    destruct (Re.search (implements_pattern "IDomainResource") content) eqn:E1.
    { intros [= ->]. by eapply search_group in E1. }
    destruct (Re.search (implements_pattern "IResource") content) eqn:E2.
    { intros [= ->]. by eapply search_group in E2. }
    by apply search_group.
  - intros t. rewrite elem_of_get_dependencies. unfold field_types_of_content.
    rewrite list_elem_of_bind. intros (body & H & _).
    by eapply findall_from_group in H.
  - vm_compute. reflexivity.
  - vm_compute. reflexivity.
  - vm_compute. reflexivity.
Qed.

Lemma extracted_names_have_two_characters_witness :
  get_defined_types "type Patient { id: ID }" = ["Patient"]
  ∧ 2 ≤ String.length "Patient".
Proof.
  split; [vm_compute; reflexivity|].
  apply (proj1 (extracted_names_have_two_characters "type Patient { id: ID }") "Patient").
  vm_compute. left.
Defined.

(** ** Dictionaries *)

Section dict_facts.
Context {V : Type}.
Implicit Types (d : Dict.t V) (k : string) (v : V).

Lemma get_set_eq d k v : Dict.get (Dict.set d k v) k = Some v.
Proof.
  induction d as [|[k' v'] d IH]; simpl.
  - by rewrite String.eqb_refl.
  - destruct (String.eqb k' k) eqn:E; simpl; by rewrite E.
Qed.

Lemma get_set_ne d k k' v : k ≠ k' → Dict.get (Dict.set d k v) k' = Dict.get d k'.
Proof.
  intros Hne. induction d as [|[k0 v0] d IH]; simpl.
  - by apply String.eqb_neq in Hne as ->.
  - destruct (String.eqb k0 k) eqn:E; simpl; [|by rewrite IH].
    apply String.eqb_eq in E as ->.
    by apply String.eqb_neq in Hne as ->.
Qed.

Lemma get_set d k k' v :
  Dict.get (Dict.set d k v) k' = if decide (k = k') then Some v else Dict.get d k'.
Proof. case_decide; [subst; apply get_set_eq|by apply get_set_ne]. Qed.

Lemma get_Some_elem_of d k v : Dict.get d k = Some v → (k, v) ∈ d.
Proof.
  induction d as [|[k' v'] d IH]; simpl; [done|].
  destruct (String.eqb k' k) eqn:E.
  - apply String.eqb_eq in E as ->. intros [= ->]. left.
  - intros H. right. auto.
Qed.

Lemma get_is_Some d k : is_Some (Dict.get d k) ↔ k ∈ Dict.keys d.
Proof.
  unfold Dict.keys. induction d as [|[k' v'] d IH]; simpl.
  - rewrite elem_of_nil. split; [by intros [? ?]|done].
  - rewrite elem_of_cons. destruct (String.eqb k' k) eqn:E.
    + apply String.eqb_eq in E as ->. split; eauto.
    + apply String.eqb_neq in E. rewrite IH. split; [auto|].
      intros [?|?]; [congruence|done].
Qed.

Lemma get_None d k : Dict.get d k = None ↔ k ∉ Dict.keys d.
Proof. rewrite <-get_is_Some, eq_None_not_Some. done. Qed.

Lemma keys_set d k v :
  Dict.keys (Dict.set d k v)
  = if decide (k ∈ Dict.keys d) then Dict.keys d else Dict.keys d ++ [k].
Proof.
  unfold Dict.keys. induction d as [|[k' v'] d IH]; csimpl.
  - done.
  - destruct (String.eqb k' k) eqn:E; csimpl.
    + apply String.eqb_eq in E as ->.
      destruct (decide (k ∈ k :: d.*1)) as [H|H]; [done|].
      destruct H. apply elem_of_cons; auto.
    + apply String.eqb_neq in E. rewrite IH.
      destruct (decide (k ∈ d.*1)) as [H|H], (decide (k ∈ k' :: d.*1)) as [H'|H'];
        try done; exfalso; rewrite elem_of_cons in *; intuition congruence.
Qed.

Lemma elem_of_get d k v : NoDup (Dict.keys d) → (k, v) ∈ d → Dict.get d k = Some v.
Proof.
  unfold Dict.keys. induction d as [|[k' v'] d IH]; simpl.
  - by rewrite elem_of_nil.
  - rewrite NoDup_cons, elem_of_cons. intros [Hk' Hnd] [[= <- <-]|Hin].
    + by rewrite String.eqb_refl.
    + destruct (String.eqb k' k) eqn:E; [|auto].
      apply String.eqb_eq in E as ->. destruct Hk'.
      apply list_elem_of_fmap. by exists (k, v).
Qed.

End dict_facts.

(** ** The dependency graph *)

Section graph_builder.
Implicit Types (file_data dependency_map : Dict.t PySet.t).
Implicit Types (type_to_resource_map : Dict.t string).

Lemma elem_of_add x y (s : PySet.t) : x ∈ PySet.add y s ↔ x = y ∨ x ∈ s.
Proof.
  unfold PySet.add, PySet.mem. case_bool_decide.
  - naive_solver.
  - rewrite elem_of_app, list_elem_of_singleton. tauto.
Qed.

Lemma NoDup_add y (s : PySet.t) : NoDup s → NoDup (PySet.add y s).
Proof.
  unfold PySet.add, PySet.mem. case_bool_decide; [done|].
  intros. apply NoDup_app. split_and!; [done| |apply NoDup_singleton].
  intros x ? ->%list_elem_of_singleton. done.
Qed.

(** The test of lines 64 and 70 under which a reference becomes an edge. *)
Lemma add_dependency_spec type_to_resource_map R dependency_map dep R' D :
  D ∈ deps_of (add_dependency type_to_resource_map R dependency_map dep) R'
  ↔ D ∈ deps_of dependency_map R'
    ∨ (R' = R ∧ D = dep ∧ (dep ∉ SCALAR_TYPES) ∧ dep ≠ R
       ∧ Dict.get type_to_resource_map dep ≠ Some R).
Proof.
  unfold add_dependency, PySet.mem.
  case_bool_decide as Hs; simpl; [naive_solver|].
  destruct (String.eqb dep R) eqn:E.
  { apply String.eqb_eq in E. naive_solver. }
  apply String.eqb_neq in E.
  case_bool_decide as Ho; [|naive_solver].
  unfold deps_of at 1. rewrite get_set. case_decide as HR; simpl.
  - subst R'. rewrite elem_of_add. unfold deps_of. naive_solver.
  - fold (deps_of dependency_map R'). naive_solver.
Qed.

Lemma add_dependencies_spec type_to_resource_map R raw_deps dependency_map R' D :
  D ∈ deps_of (foldl (add_dependency type_to_resource_map R) dependency_map raw_deps) R'
  ↔ D ∈ deps_of dependency_map R'
    ∨ (R' = R ∧ D ∈ raw_deps ∧ (D ∉ SCALAR_TYPES) ∧ D ≠ R
       ∧ Dict.get type_to_resource_map D ≠ Some R).
Proof.
  revert dependency_map. induction raw_deps as [|dep raw IH]; intros dm; simpl.
  - rewrite elem_of_nil. tauto.
  - rewrite IH, add_dependency_spec, elem_of_cons. naive_solver.
Qed.

Lemma build_from_spec type_to_resource_map file_data dependency_map R D :
  D ∈ deps_of
        (foldl (λ dm '(resource, raw_deps),
                  foldl (add_dependency type_to_resource_map resource) dm raw_deps)
               dependency_map file_data) R
  ↔ D ∈ deps_of dependency_map R
    ∨ ((∃ raw_deps, (R, raw_deps) ∈ file_data ∧ D ∈ raw_deps)
       ∧ (D ∉ SCALAR_TYPES) ∧ D ≠ R ∧ Dict.get type_to_resource_map D ≠ Some R).
Proof.
  revert dependency_map. induction file_data as [|[R0 raw] fd IH]; intros dm; simpl.
  - setoid_rewrite elem_of_nil. naive_solver.
  - rewrite IH, add_dependencies_spec. setoid_rewrite elem_of_cons.
    split.
    + intros [[?|(-> & ? & ? & ? & ?)]|((raw' & ? & ?) & ? & ? & ?)]; eauto 10.
    + intros [?|((raw' & [[= -> ->]|?] & ?) & ? & ? & ?)]; eauto 10.
Qed.

Lemma build_dependency_map_spec file_data type_to_resource_map R D :
  D ∈ deps_of (build_dependency_map file_data type_to_resource_map) R
  ↔ (∃ raw_deps, (R, raw_deps) ∈ file_data ∧ D ∈ raw_deps)
    ∧ (D ∉ SCALAR_TYPES) ∧ D ≠ R ∧ Dict.get type_to_resource_map D ≠ Some R.
Proof.
  unfold build_dependency_map. rewrite build_from_spec.
  unfold deps_of at 1; simpl. rewrite elem_of_nil. tauto.
Qed.

End graph_builder.

(** C1, as the program has it. A reference [D] found in the document of
    resource [R] becomes the edge from [R] to the name [D] itself, exactly
    when [D] is not a scalar, is not [R], and is not owned by [R] in the
    ownership map; a name with no owner at all is kept. *)
Theorem dependency_target_is_raw_reference
    (file_data : Dict.t PySet.t) (type_to_resource_map : Dict.t string) (R D : string) :
  D ∈ deps_of (build_dependency_map file_data type_to_resource_map) R
  ↔ (∃ raw_deps, (R, raw_deps) ∈ file_data ∧ D ∈ raw_deps)
    ∧ (D ∉ SCALAR_TYPES) ∧ D ≠ R ∧ Dict.get type_to_resource_map D ≠ Some R.
Proof. apply build_dependency_map_spec. Qed.

(** C1, as stated, fails: the targets are not the owners of the references.
    A reference that the ownership map does not know gives an edge, and a
    reference owned by another resource gives an edge to the referenced
    name, not to its owner. *)
Lemma dependency_target_not_owner :
  ¬ (∀ (file_data : Dict.t PySet.t) (type_to_resource_map : Dict.t string) (R T : string),
       T ∈ deps_of (build_dependency_map file_data type_to_resource_map) R →
       ∃ D raw_deps, (R, raw_deps) ∈ file_data ∧ D ∈ raw_deps
                     ∧ Dict.get type_to_resource_map D = Some T).
Proof.
  intros H.
  destruct (H [("Aa", ["Bar"])] [] "Aa" "Bar") as (D & raw & _ & _ & Hget).
  - vm_compute. left.
  - discriminate Hget.
Qed.

(** C8. No resource is among its own dependencies. *)
Theorem no_self_loops
    (file_data : Dict.t PySet.t) (type_to_resource_map : Dict.t string) (R : string) :
  R ∉ deps_of (build_dependency_map file_data type_to_resource_map) R.
Proof. rewrite build_dependency_map_spec. naive_solver. Qed.

(** ** Sorting and sets *)

Section sorted_facts.
Implicit Types (l : list string).

Lemma sorted_perm l : Str.sorted l ≡ₚ l.
Proof. apply merge_sort_Permutation. Qed.

Lemma elem_of_sorted l x : x ∈ Str.sorted l ↔ x ∈ l.
Proof. by rewrite sorted_perm. Qed.

Lemma sorted_Sorted l : StronglySorted String.le (Str.sorted l).
Proof. apply StronglySorted_merge_sort; apply _. Qed.

Lemma sorted_NoDup l : NoDup l → NoDup (Str.sorted l).
Proof. by rewrite sorted_perm. Qed.

Lemma sorted_nil l : Str.sorted l = [] ↔ l = [].
Proof.
  split; [|by intros ->].
  intros H. apply Permutation_nil_r. by rewrite <-H, sorted_perm.
Qed.

(** The result of [sorted] depends on the elements only, not on the order
    in which the set or the list yields them. *)
Lemma sorted_unique l1 l2 : l1 ≡ₚ l2 → Str.sorted l1 = Str.sorted l2.
Proof.
  intros H. apply (StronglySorted_unique String.le); try apply sorted_Sorted.
  by rewrite !sorted_perm.
Qed.

Lemma elem_of_of_list l x : x ∈ PySet.of_list l ↔ x ∈ l.
Proof.
  unfold PySet.of_list. rewrite (elem_of_foldl_add l [] x), elem_of_nil. tauto.
Qed.

Lemma NoDup_foldl_add l (acc : PySet.t) :
  NoDup acc → NoDup (foldl (λ s y, PySet.add y s) acc l).
Proof.
  revert acc; induction l as [|y l IH]; intros acc Hacc; simpl; [done|].
  by apply IH, NoDup_add.
Qed.

Lemma NoDup_of_list l : NoDup (PySet.of_list l).
Proof. apply NoDup_foldl_add, NoDup_nil_2. Qed.

Lemma elem_of_diff (s u : PySet.t) x : x ∈ PySet.diff s u ↔ x ∈ s ∧ x ∉ u.
Proof. unfold PySet.diff. rewrite list_elem_of_filter. tauto. Qed.

Lemma NoDup_diff (s u : PySet.t) : NoDup s → NoDup (PySet.diff s u).
Proof. apply NoDup_filter. Qed.

End sorted_facts.

(** ** The tree builder *)

Section tree_builder.
Variable dependency_map : Dict.t PySet.t.

Lemma elem_of_all_dependencies x :
  x ∈ all_dependencies dependency_map
  ↔ ∃ P deps, (P, deps) ∈ dependency_map ∧ x ∈ deps.
Proof.
  unfold all_dependencies, Dict.values.
  rewrite elem_of_of_list, list_elem_of_bind. split.
  - intros (deps & Hx & Hd). apply list_elem_of_fmap in Hd as ([P d] & -> & Hd).
    eauto.
  - intros (P & deps & Hd & Hx). exists deps. split; [done|].
    apply list_elem_of_fmap. by exists (P, deps).
Qed.

Lemma elem_of_root_nodes x :
  x ∈ root_nodes dependency_map
  ↔ x ∈ Dict.keys dependency_map
    ∧ ∀ P deps, (P, deps) ∈ dependency_map → x ∉ deps.
Proof.
  unfold root_nodes.
  rewrite elem_of_diff, elem_of_of_list, elem_of_all_dependencies.
  naive_solver.
Qed.

Lemma NoDup_root_nodes : NoDup (root_nodes dependency_map).
Proof. apply NoDup_diff, NoDup_of_list. Qed.

(** A loop with a state, one element at a time. *)
Lemma mapM_st_inv {A B S : Type} (f : S → A → run (B * S))
    (I : S → Prop) (Q : A → B → Prop) (l : list A) :
  (∀ s a b s', a ∈ l → I s → f s a = Ok (b, s') → Q a b ∧ I s') →
  ∀ s bs s', I s → mapM_st f s l = Ok (bs, s') → Forall2 Q l bs ∧ I s'.
Proof.
  induction l as [|a l IH]; intros Hf s bs s' Hs; simpl.
  - intros [= <- <-]. auto.
  - destruct (f s a) as [[b s1]| |] eqn:Ef; simpl; try done.
    destruct (mapM_st f s1 l) as [[bs' s2]| |] eqn:El; simpl; try done.
    intros [= <- <-].
    destruct (Hf s a b s1) as [Hq Hs1]; [left|done|done|].
    destruct (IH (λ s a b s' Ha, Hf s a b s' (list_elem_of_further _ _ _ Ha))
                 s1 bs' s2 Hs1 El) as [Hqs Hs2].
    auto.
Qed.


Abbreviation tree_ok := (tree_ok dependency_map).
Abbreviation memo_ok := (memo_ok dependency_map).

Lemma memo_ok_set memo n t : memo_ok memo → tree_ok n t → memo_ok (Dict.set memo n t).
Proof.
  intros Hm Ht n' t'. rewrite get_set. case_decide; [|apply Hm].
  by intros [= <-]; subst.
Qed.

Lemma nodes_of_inner n cs :
  nodes_of (Node n (Some cs)) = Node n (Some cs) :: (c ← cs; nodes_of c).
Proof.
  reflexivity.
Qed.

Lemma build_node_ok fuel memo n t memo' :
  memo_ok memo →
  build_node fuel dependency_map memo n = Ok (t, memo') →
  tree_ok n t ∧ memo_ok memo'.
Proof.
  revert memo n t memo'. induction fuel as [|fuel IH]; intros memo n t memo' Hm; [done|].
  simpl. destruct (Dict.get memo n) as [t0|] eqn:Eg.
  { intros [= <- <-]. auto. }
  destruct (Str.sorted (deps_of dependency_map n)) as [|d ds] eqn:Es.
  - intros [= <- <-]. apply (proj1 (sorted_nil _)) in Es.
    assert (tree_ok n (Node n None)) as Hok.
    { split; [done|]. simpl. constructor; [|constructor]. done. }
    split; [done|]. by apply memo_ok_set.
  - destruct (mapM_st (build_node fuel dependency_map) memo (d :: ds))
      as [[cs memo1]| |] eqn:Em; simpl; try done.
    intros [= <- <-].
    apply (mapM_st_inv _ memo_ok tree_ok) in Em as [Hcs Hm1]; [|by eauto|done].
    assert (tree_ok n (Node n (Some cs))) as Hok.
    { split; [done|]. rewrite nodes_of_inner. constructor.
      - split; simpl.
        + intros Hnil. by rewrite Hnil in Es.
        + rewrite Es. clear -Hcs. symmetry.
          induction Hcs as [|x c l cs' [Hx _] _ IHl]; csimpl; [done|].
          by rewrite Hx, IHl.
      - clear -Hcs. apply Forall_bind.
        induction Hcs as [|x c l cs' [_ Hx] _ IHl]; constructor; done. }
    split; [done|]. by apply memo_ok_set.
Qed.

Lemma build_trees_ok fuel trees :
  build_trees fuel dependency_map = Ok trees →
  Forall2 tree_ok (Str.sorted (root_nodes dependency_map)) trees.
Proof.
  unfold build_trees.
  destruct (mapM_st _ _ _) as [[ts memo]| |] eqn:Em; simpl; try done.
  intros [= <-].
  apply (mapM_st_inv _ memo_ok tree_ok) in Em as [Hts _]; [done| |done].
  intros s a b s' _. apply build_node_ok.
Qed.

Lemma build_trees_names fuel trees :
  build_trees fuel dependency_map = Ok trees →
  name <$> trees = Str.sorted (root_nodes dependency_map).
Proof.
  intros H%build_trees_ok.
  induction H as [|x c l cs' [Hx _] _ IHl]; csimpl; [done|].
  by rewrite Hx, IHl.
Qed.

End tree_builder.



(** C6, as the program has it. The roots of the tree output are exactly
    the keys of the graph that occur in no dependency set, each once, in
    ascending order. *)
Theorem roots_are_unreferenced_keys
    (dependency_map : Dict.t PySet.t) (fuel : nat) (trees : list TreeNode) :
  build_trees fuel dependency_map = Ok trees →
  (∀ R, R ∈ name <$> trees
        ↔ R ∈ Dict.keys dependency_map
          ∧ ∀ P deps, (P, deps) ∈ dependency_map → R ∉ deps)
  ∧ StronglySorted String.le (name <$> trees)
  ∧ NoDup (name <$> trees).
Proof.
  intros Hb. rewrite (build_trees_names _ _ _ Hb). split_and!.
  - intros R. by rewrite elem_of_sorted, elem_of_root_nodes.
  - apply sorted_Sorted.
  - apply sorted_NoDup, NoDup_root_nodes.
Qed.

Lemma roots_are_unreferenced_keys_witness :
  build_trees 3 [("Bb", ["Cc"]); ("Aa", ["Cc"])] = Ok [Node "Aa" (Some [Node "Cc" None]); Node "Bb" (Some [Node "Cc" None])]
  ∧ StronglySorted String.le
      (name <$> [Node "Aa" (Some [Node "Cc" None]); Node "Bb" (Some [Node "Cc" None])]).
Proof.
  split; [vm_compute; reflexivity|].
  apply (roots_are_unreferenced_keys [("Bb", ["Cc"]); ("Aa", ["Cc"])] 3).
  vm_compute; reflexivity.
Defined.

(** C6, as stated, fails: a resource without any edge that no other
    resource refers to is in no dependency set, yet it is not a root. *)
Lemma isolated_resource_is_no_root :
  Dict.keys (read_files [("patient.graphql", "type Patient { id: ID }")]).1 = ["Patient"]
  ∧ build_dependency_map
      (read_files [("patient.graphql", "type Patient { id: ID }")]).1
      (read_files [("patient.graphql", "type Patient { id: ID }")]).2 = []
  ∧ main 1 [("patient.graphql", "type Patient { id: ID }")]
    = Ok {| csv_rows := []; cycle_message := false; json_tree := [] |}.
Proof. split_and!; vm_compute; reflexivity. Qed.

(** ** [TopologicalSorter(graph)]: what the constructor stores *)

Section sorter_init.
Implicit Types (d n2i : Dict.t graphlib._NodeInfo) (n m p : string).
Implicit Types (ts : graphlib.TopologicalSorter).

Lemma get_get_nodeinfo d n m :
  Dict.get (graphlib._get_nodeinfo d n) m
  = if decide (n = m)
    then Some (default {| graphlib.node := n; graphlib.npredecessors := 0;
                          graphlib.successors := [] |} (Dict.get d n))
    else Dict.get d m.
Proof.
  unfold graphlib._get_nodeinfo. destruct (Dict.get d n) eqn:E.
  - case_decide; [by subst|done].
  - by rewrite get_set.
Qed.

Lemma get_update f d n m :
  Dict.get (graphlib.update f d n) m
  = if decide (n = m) then f <$> Dict.get d n else Dict.get d m.
Proof.
  unfold graphlib.update. destruct (Dict.get d n) eqn:E.
  - rewrite get_set. by case_decide.
  - case_decide; [by subst; rewrite E|done].
Qed.

Lemma keys_get_nodeinfo d n :
  Dict.keys (graphlib._get_nodeinfo d n)
  = if decide (n ∈ Dict.keys d) then Dict.keys d else Dict.keys d ++ [n].
Proof.
  unfold graphlib._get_nodeinfo. destruct (Dict.get d n) eqn:E.
  - rewrite decide_True; [done|]. apply get_is_Some. eauto.
  - rewrite keys_set. done.
Qed.

Lemma keys_update f d n : Dict.keys (graphlib.update f d n) = Dict.keys d.
Proof.
  unfold graphlib.update. destruct (Dict.get d n) eqn:E; [|done].
  rewrite keys_set, decide_True; [done|]. apply get_is_Some. eauto.
Qed.

Lemma count_cons x y (l : list string) :
  count x (y :: l) = (if decide (y = x) then 1 else 0) + count x l.
Proof. unfold count. rewrite filter_cons. by case_decide. Qed.

Lemma count_app x (l1 l2 : list string) : count x (l1 ++ l2) = count x l1 + count x l2.
Proof. unfold count. by rewrite filter_app, length_app. Qed.

Lemma count_replicate x y k : count x (replicate k y) = if decide (y = x) then k else 0.
Proof.
  induction k as [|k IH]; simpl; [by case_decide|].
  rewrite count_cons, IH. by case_decide.
Qed.

Lemma count_pos x (l : list string) : 0 < count x l ↔ x ∈ l.
Proof.
  induction l as [|y l IH]; [unfold count; simpl; rewrite elem_of_nil; lia|].
  rewrite count_cons, elem_of_cons. case_decide; [subst|]; naive_solver lia.
Qed.

Lemma add_edges_spec n preds d :
  (∀ m, npred_of (graphlib.add_edges n d preds) m = npred_of d m)
  ∧ (∀ m, succs_of (graphlib.add_edges n d preds) m
          = succs_of d m ++ replicate (count m preds) n)
  ∧ (∀ x, x ∈ Dict.keys (graphlib.add_edges n d preds) ↔ x ∈ Dict.keys d ∨ x ∈ preds)
  ∧ (NoDup (Dict.keys d) → NoDup (Dict.keys (graphlib.add_edges n d preds))).
Proof.
  unfold graphlib.add_edges.
  revert d. induction preds as [|p preds IH]; intros d; simpl.
  - split_and!; try done.
    + intros m. unfold count; simpl. by rewrite app_nil_r.
    + intros x. rewrite elem_of_nil. tauto.
  - destruct (IH (graphlib.update (graphlib.append_successor n)
                    (graphlib._get_nodeinfo d p) p)) as (H1 & H2 & H3 & H4).
    split_and!.
    + intros m. rewrite H1. unfold npred_of.
      rewrite get_update, !get_get_nodeinfo.
      case_decide; [subst m|done]. rewrite decide_True by done.
      by destruct (Dict.get d p).
    + intros m. rewrite H2, count_cons. unfold succs_of.
      rewrite get_update, !get_get_nodeinfo.
      case_decide; [subst m|done]. rewrite decide_True by done.
      destruct (Dict.get d p); simpl; by rewrite <-?app_assoc.
    + intros x. rewrite H3, keys_update, keys_get_nodeinfo, elem_of_cons.
      case_decide; [|rewrite elem_of_app, list_elem_of_singleton]; naive_solver.
    + intros Hd. apply H4. rewrite keys_update, keys_get_nodeinfo.
      case_decide; [done|]. apply NoDup_app. split_and!; [done| |apply NoDup_singleton].
      intros x ? ->%list_elem_of_singleton. done.
Qed.

Lemma add_spec ts n preds :
  graphlib._ready_nodes ts = None →
  ∃ ts', graphlib.add ts n preds = Ok ts'
    ∧ graphlib._ready_nodes ts' = None
    ∧ graphlib._npassedout ts' = graphlib._npassedout ts
    ∧ graphlib._nfinished ts' = graphlib._nfinished ts
    ∧ (∀ m, npred_of (graphlib._node2info ts') m
            = (npred_of (graphlib._node2info ts) m
               + if decide (n = m) then Z.of_nat (length preds) else 0)%Z)
    ∧ (∀ m, succs_of (graphlib._node2info ts') m
            = succs_of (graphlib._node2info ts) m ++ replicate (count m preds) n)
    ∧ (∀ x, x ∈ Dict.keys (graphlib._node2info ts')
            ↔ x ∈ Dict.keys (graphlib._node2info ts) ∨ x = n ∨ x ∈ preds)
    ∧ (NoDup (Dict.keys (graphlib._node2info ts))
       → NoDup (Dict.keys (graphlib._node2info ts'))).
Proof.
  intros Hr. unfold graphlib.add. rewrite Hr. eexists. split; [done|].
  simpl. split_and!; try done.
  - intros m. destruct (add_edges_spec n preds
      (graphlib.update
         (λ i, graphlib.set_npredecessors
                 (graphlib.npredecessors i + Z.of_nat (length preds)) i)
         (graphlib._get_nodeinfo (graphlib._node2info ts) n) n)) as (H1 & _).
    rewrite H1. unfold npred_of. rewrite get_update, !get_get_nodeinfo.
    case_decide; [subst m|lia]. rewrite decide_True by done.
    by destruct (Dict.get _ n).
  - intros m. destruct (add_edges_spec n preds
      (graphlib.update
         (λ i, graphlib.set_npredecessors
                 (graphlib.npredecessors i + Z.of_nat (length preds)) i)
         (graphlib._get_nodeinfo (graphlib._node2info ts) n) n)) as (_ & H2 & _).
    rewrite H2. f_equal. unfold succs_of. rewrite get_update, !get_get_nodeinfo.
    case_decide; [subst m|done]. rewrite decide_True by done.
    by destruct (Dict.get _ n).
  - intros x. destruct (add_edges_spec n preds
      (graphlib.update
         (λ i, graphlib.set_npredecessors
                 (graphlib.npredecessors i + Z.of_nat (length preds)) i)
         (graphlib._get_nodeinfo (graphlib._node2info ts) n) n)) as (_ & _ & H3 & _).
    rewrite H3, keys_update, keys_get_nodeinfo.
    case_decide; [|rewrite elem_of_app, list_elem_of_singleton]; naive_solver.
  - intros Hd. destruct (add_edges_spec n preds
      (graphlib.update
         (λ i, graphlib.set_npredecessors
                 (graphlib.npredecessors i + Z.of_nat (length preds)) i)
         (graphlib._get_nodeinfo (graphlib._node2info ts) n) n)) as (_ & _ & _ & H4).
    apply H4. rewrite keys_update, keys_get_nodeinfo.
    case_decide; [done|]. apply NoDup_app. split_and!; [done| |apply NoDup_singleton].
    intros x ? ->%list_elem_of_singleton. done.
Qed.

Lemma foldM_add_spec graph ts :
  graphlib._ready_nodes ts = None →
  ∃ ts', foldM (λ ts '(n, predecessors), graphlib.add ts n predecessors) ts graph = Ok ts'
    ∧ graphlib._ready_nodes ts' = None
    ∧ graphlib._npassedout ts' = graphlib._npassedout ts
    ∧ graphlib._nfinished ts' = graphlib._nfinished ts
    ∧ (∀ m, npred_of (graphlib._node2info ts') m
            = (npred_of (graphlib._node2info ts) m
               + Z.of_nat (length (graph_preds graph m)))%Z)
    ∧ (∀ m, succs_of (graphlib._node2info ts') m
            = succs_of (graphlib._node2info ts) m ++ graph_succs graph m)
    ∧ (∀ x, x ∈ Dict.keys (graphlib._node2info ts')
            ↔ x ∈ Dict.keys (graphlib._node2info ts) ∨ x ∈ graph_nodes graph)
    ∧ (NoDup (Dict.keys (graphlib._node2info ts))
       → NoDup (Dict.keys (graphlib._node2info ts'))).
Proof.
  revert ts. induction graph as [|[n preds] graph IH]; intros ts Hr.
  - exists ts. simpl. split_and!; try done.
    + intros m. unfold graph_preds; simpl. lia.
    + intros m. unfold graph_succs; simpl. by rewrite app_nil_r.
    + intros x. unfold graph_nodes; simpl. rewrite elem_of_nil. tauto.
  - destruct (add_spec ts n preds Hr) as (ts1 & E1 & Hr1 & Hp1 & Hf1 & Hn1 & Hs1 & Hk1 & Hd1).
    destruct (IH ts1 Hr1) as (ts2 & E2 & Hr2 & Hp2 & Hf2 & Hn2 & Hs2 & Hk2 & Hd2).
    exists ts2. simpl. rewrite E1. simpl. split_and!; try done; try congruence.
    + intros m. rewrite Hn2, Hn1. unfold graph_preds; csimpl.
      fold (graph_preds graph m). rewrite length_app.
      case_decide; simpl; lia.
    + intros m. rewrite Hs2, Hs1. unfold graph_succs; csimpl.
      fold (graph_succs graph m). by rewrite <-app_assoc.
    + intros x. rewrite Hk2, Hk1. unfold graph_nodes; csimpl.
      fold (graph_nodes graph). rewrite elem_of_cons, elem_of_app. tauto.
    + auto.
Qed.

(** The constructor never fails; it stores, for every node named in the
    graph, the number of its predecessors and the list of its successors. *)
Lemma init_spec graph :
  ∃ ts, graphlib.init graph = Ok ts
    ∧ graphlib._ready_nodes ts = None
    ∧ graphlib._npassedout ts = 0
    ∧ graphlib._nfinished ts = 0
    ∧ (∀ m, npred_of (graphlib._node2info ts) m = Z.of_nat (length (graph_preds graph m)))
    ∧ (∀ m, succs_of (graphlib._node2info ts) m = graph_succs graph m)
    ∧ (∀ x, x ∈ Dict.keys (graphlib._node2info ts) ↔ x ∈ graph_nodes graph)
    ∧ NoDup (Dict.keys (graphlib._node2info ts)).
Proof.
  destruct (foldM_add_spec graph graphlib.empty eq_refl)
    as (ts & E & Hr & Hp & Hf & Hn & Hs & Hk & Hd).
  exists ts. split_and!; try done.
  - intros x. rewrite Hk. simpl. rewrite elem_of_nil. tauto.
  - apply Hd. simpl. apply NoDup_nil_2.
Qed.

Lemma count_graph_succs graph p n :
  count n (graph_succs graph p) = count p (graph_preds graph n).
Proof.
  induction graph as [|[k ps] graph IH]; [done|].
  unfold graph_succs, graph_preds; csimpl.
  fold (graph_succs graph p) (graph_preds graph n).
  rewrite !count_app, IH, count_replicate.
  case_decide; [done|]. done.
Qed.

Lemma elem_of_graph_succs graph p n :
  n ∈ graph_succs graph p ↔ p ∈ graph_preds graph n.
Proof. by rewrite <-!count_pos, count_graph_succs. Qed.

Lemma graph_preds_nodes graph n p :
  p ∈ graph_preds graph n → n ∈ graph_nodes graph ∧ p ∈ graph_nodes graph.
Proof.
  unfold graph_preds, graph_nodes. rewrite !list_elem_of_bind.
  intros ([k ps] & Hp & Hk). case_decide; [subst k|by apply elem_of_nil in Hp].
  split; exists (n, ps); (split; [|done]); rewrite elem_of_cons; auto.
Qed.

(** For a dictionary (distinct keys) the predecessors are the entry. *)
Lemma graph_preds_get (graph : Dict.t (list string)) n :
  NoDup (Dict.keys graph) → graph_preds graph n = default [] (Dict.get graph n).
Proof.
  unfold Dict.keys, graph_preds.
  induction graph as [|[k ps] graph IH]; csimpl; [done|].
  rewrite NoDup_cons. intros [Hk Hnd].
  case_decide as E.
  - subst k. rewrite String.eqb_refl. simpl.
    rewrite (IH Hnd).
    assert (Dict.get graph n = None) as ->; [|by rewrite app_nil_r].
    by apply get_None.
  - apply String.eqb_neq in E as ->. simpl. auto.
Qed.

End sorter_init.

(** ** [_find_cycle]: it ends, and it finds a cycle exactly when there is one *)

Lemma sum_list_cons (x : nat) (l : list nat) : sum_list (x :: l) = x + sum_list l.
Proof. reflexivity. Qed.

Lemma unseen_weight_mono (d : Dict.t graphlib._NodeInfo) (sn sn' : PySet.t) :
  (∀ x, x ∈ sn → x ∈ sn') → unseen_weight d sn' ≤ unseen_weight d sn.
Proof.
  intros H. unfold unseen_weight. induction d as [|[k i] d IH]; csimpl; [done|].
  destruct (decide (k ∈ sn')), (decide (k ∈ sn)); try lia. naive_solver.
Qed.

Lemma unseen_weight_add (d : Dict.t graphlib._NodeInfo) (sn : PySet.t) n info :
  Dict.get d n = Some info → n ∉ sn →
  unseen_weight d (PySet.add n sn) + S (length (graphlib.successors info))
  ≤ unseen_weight d sn.
Proof.
  intros Hget Hn.
  induction d as [|[k i] d IH]; [done|].
  pose proof (unseen_weight_mono d sn (PySet.add n sn)) as Hmono.
  unfold unseen_weight in *. csimpl.
  simpl in Hget. destruct (String.eqb k n) eqn:E.
  - apply String.eqb_eq in E as ->. injection Hget as ->.
    destruct (decide (n ∈ PySet.add n sn)) as [_|Hn']; [|destruct Hn'; apply elem_of_add; auto].
    destruct (decide (n ∈ sn)); [done|].
    assert (∀ x, x ∈ sn → x ∈ PySet.add n sn) as Hsub
      by (intros x; rewrite elem_of_add; auto).
    specialize (Hmono Hsub). lia.
  - apply String.eqb_neq in E. specialize (IH Hget).
    destruct (decide (k ∈ PySet.add n sn)) as [Hk|Hk], (decide (k ∈ sn)) as [Hk'|Hk'];
      try lia.
    destruct Hk. apply elem_of_add; auto.
Qed.

Section find_cycle.
Variable n2i : Dict.t graphlib._NodeInfo.
Hypothesis Hclosed : closed n2i.

Implicit Types (F stk : list string) (its : list (list string)).
Implicit Types (sn : PySet.t) (n2s : Dict.t nat).

Lemma NoDup_keys_set {V} (d : Dict.t V) k v :
  NoDup (Dict.keys d) → NoDup (Dict.keys (Dict.set d k v)).
Proof.
  intros Hd. rewrite keys_set. case_decide; [done|].
  apply NoDup_app. split_and!; [done| |apply NoDup_singleton].
  intros x ? ->%list_elem_of_singleton. done.
Qed.

Lemma keys_del_subseteq {V} (d : Dict.t V) k x :
  x ∈ Dict.keys (Dict.del d k) → x ∈ Dict.keys d.
Proof.
  unfold Dict.keys. induction d as [|[k' v'] d IH]; csimpl; [done|].
  destruct (String.eqb k' k); csimpl; rewrite ?elem_of_cons; naive_solver.
Qed.

Lemma NoDup_keys_del {V} (d : Dict.t V) k :
  NoDup (Dict.keys d) → NoDup (Dict.keys (Dict.del d k)).
Proof.
  unfold Dict.keys. induction d as [|[k' v'] d IH]; csimpl; [done|].
  rewrite NoDup_cons. intros [Hk Hd].
  destruct (String.eqb k' k); csimpl; [done|].
  apply NoDup_cons. split; [|auto].
  intros Hin. apply Hk. by eapply keys_del_subseteq.
Qed.

Lemma get_del {V} (d : Dict.t V) k k' :
  NoDup (Dict.keys d) →
  Dict.get (Dict.del d k) k' = if decide (k = k') then None else Dict.get d k'.
Proof.
  unfold Dict.keys. induction d as [|[k0 v0] d IH]; csimpl.
  - by case_decide.
  - rewrite NoDup_cons. intros [Hk Hd].
    destruct (String.eqb k0 k) eqn:E.
    + apply String.eqb_eq in E as ->. case_decide as E'.
      * subst k'. by apply get_None.
      * by apply String.eqb_neq in E' as ->.
    + simpl. rewrite (IH Hd). apply String.eqb_neq in E.
      case_decide; [|done]. subst k'.
      by apply String.eqb_neq in E as ->.
Qed.

Lemma frames_mono F F' above stk its :
  (∀ x, x ∈ F → x ∈ F') → frames n2i F above stk its → frames n2i F' above stk its.
Proof.
  intros HF. revert above its. induction stk as [|x stk IH]; intros above [|it its]; simpl;
    try done.
  intros [(c & Hc & HcF) Hfr]. split; [|auto]. exists c. auto.
Qed.

(** Every stack entry reaches the node being looked at. *)
Lemma frames_path F above stk its x :
  frames n2i F above stk its → x ∈ stk → tc (edge n2i) x above.
Proof.
  revert above its. induction stk as [|y stk IH]; intros above [|it its]; simpl;
    try done; try (by intros _ ?%elem_of_nil).
  intros [(c & Hc & _) Hfr] [->|Hx]%elem_of_cons.
  - apply tc_once. unfold edge. rewrite Hc. set_solver.
  - eapply tc_r; [by eapply IH|]. unfold edge. rewrite Hc. set_solver.
Qed.

Lemma frames_length F above stk its :
  frames n2i F above stk its → length stk = length its.
Proof.
  revert above its. induction stk as [|y stk IH]; intros above [|it its]; simpl;
    try done.
  intros [_ Hfr]. f_equal. eauto.
Qed.

(** The [while stack] loop keeps the invariant; the nodes it pops are
    finished. *)
Lemma backtrack_spec stk : ∀ its F sn n2s,
  dfs_inv n2i F stk sn n2s → frames_top n2i F stk its →
  ∃ next stk' its' n2s' F',
    graphlib.backtrack stk its n2s = Ok (next, (stk', its', n2s'))
    ∧ dfs_inv n2i F' stk' sn n2s'
    ∧ match next with
      | Some nxt =>
          frames n2i F' nxt stk' its' ∧ (∃ x, edge n2i x nxt)
          ∧ S (sum_list (length <$> its')) ≤ sum_list (length <$> its)
      | None => stk' = [] ∧ its' = []
      end.
Proof.
  induction stk as [|x stk IH]; intros its F sn n2s Hinv Hfr.
  - destruct its; [|done]. simpl. exists None, [], [], n2s, F. auto.
  - destruct its as [|it its]; [done|].
    destruct Hfr as [(c & Hc & HcF) Hfr].
    destruct Hinv as (Hsn & Hn2s & Hnd & Hstk & Hdis & Hord).
    apply NoDup_cons in Hstk as [Hx Hstk].
    destruct it as [|nxt it]; simpl.
    + (* the iterator of [x] is used up: [x] is popped and finished *)
      rewrite app_nil_r in Hc.
      destruct (IH its (x :: F) sn (Dict.del n2s x)) as
        (next & stk' & its' & n2s' & F' & E & Hinv' & Hnext).
      * split_and!.
        -- intros y. rewrite Hsn, !elem_of_cons. tauto.
        -- intros y. rewrite get_del by done. case_decide.
           ++ subst y. split; [by intros [? ?]|done].
           ++ rewrite Hn2s, elem_of_cons. naive_solver.
        -- by apply NoDup_keys_del.
        -- done.
        -- intros y Hy [->|HyF]%elem_of_cons; [done|].
           apply (Hdis y); [by right|done].
        -- simpl. split_and!; [| |done].
           ++ apply Hdis. by left.
           ++ intros y Hy. apply HcF. unfold edge in Hy. by rewrite Hc in Hy.
      * destruct stk as [|y stk], its as [|it' its]; try done.
        destruct Hfr as [(c' & Hc' & Hc'F) Hfr]. split.
        -- exists (c' ++ [x]). rewrite <-app_assoc. split; [done|].
           intros z [Hz| ->%list_elem_of_singleton]%elem_of_app; [right; auto|left].
        -- eapply frames_mono; [|done]. intros z Hz. by right.
      * exists next, stk', its', n2s', F'. split_and!; [done..|].
        destruct next; [|done]. destruct Hnext as (? & ? & Hle).
        split_and!; [done..|]. exact Hle.
    + (* the top entry yields [nxt] *)
      exists (Some nxt), (x :: stk), (it :: its), n2s, F.
      split; [done|split].
      * split_and!; try done. by apply NoDup_cons.
      * split_and!.
        -- split; [|done]. exists c. auto.
        -- exists x. unfold edge. rewrite Hc. set_solver.
        -- simpl. lia.
Qed.


Lemma frames_frames_top F n stk its :
  frames n2i F n stk its → n ∈ F → frames_top n2i F stk its.
Proof.
  destruct stk as [|x stk], its as [|it its]; simpl; try done.
  intros [(c & Hc & HcF) Hfr] Hn. split; [|done].
  exists (c ++ [n]). rewrite <-app_assoc. split; [done|].
  intros y [?| ->%list_elem_of_singleton]%elem_of_app; auto.
Qed.

(** One call of the [while True] loop: it ends within the fuel, with a
    real cycle or with everything reached from [n] finished. *)
Lemma visit_spec fuel : ∀ n st F,
  dfs_inv n2i F (graphlib.stack st) (graphlib.seen st) (graphlib.node2stacki st) →
  frames n2i F n (graphlib.stack st) (graphlib.itstack st) →
  n ∈ Dict.keys n2i →
  dfs_weight n2i (graphlib.itstack st) (graphlib.seen st) < fuel →
  ∃ found st', graphlib.visit fuel n2i n st = Ok (found, st')
    ∧ match found with
      | Some c => c ≠ [] ∧ ∃ x, tc (edge n2i) x x
      | None =>
          graphlib.stack st' = [] ∧ graphlib.itstack st' = []
          ∧ (∃ F', dfs_inv n2i F' [] (graphlib.seen st') (graphlib.node2stacki st'))
          ∧ n ∈ graphlib.seen st'
          ∧ (∀ x, x ∈ graphlib.seen st → x ∈ graphlib.seen st')
          ∧ dfs_weight n2i [] (graphlib.seen st')
            ≤ dfs_weight n2i (graphlib.itstack st) (graphlib.seen st)
      end.
Proof.
  induction fuel as [|fuel IH]; intros n st F Hinv Hfr Hn Hw; [lia|].
  (* what follows the push or the look at a finished node *)
  assert (∀ st1 F1,
    dfs_inv n2i F1 (graphlib.stack st1) (graphlib.seen st1) (graphlib.node2stacki st1) →
    frames_top n2i F1 (graphlib.stack st1) (graphlib.itstack st1) →
    dfs_weight n2i (graphlib.itstack st1) (graphlib.seen st1) ≤ fuel →
    n ∈ graphlib.seen st1 →
    (∀ x, x ∈ graphlib.seen st → x ∈ graphlib.seen st1) →
    dfs_weight n2i (graphlib.itstack st1) (graphlib.seen st1)
      ≤ dfs_weight n2i (graphlib.itstack st) (graphlib.seen st) →
    ∃ found st',
      ('(next, (stk, its, n2s)) ← graphlib.backtrack (graphlib.stack st1)
                                    (graphlib.itstack st1) (graphlib.node2stacki st1);
       match next with
       | Some n' =>
           graphlib.visit fuel n2i n'
             {| graphlib.stack := stk; graphlib.itstack := its;
                graphlib.seen := graphlib.seen st1; graphlib.node2stacki := n2s |}
       | None =>
           Ok (None, {| graphlib.stack := stk; graphlib.itstack := its;
                        graphlib.seen := graphlib.seen st1;
                        graphlib.node2stacki := n2s |})
       end) = Ok (found, st')
      ∧ match found with
        | Some c => c ≠ [] ∧ ∃ x, tc (edge n2i) x x
        | None =>
            graphlib.stack st' = [] ∧ graphlib.itstack st' = []
            ∧ (∃ F', dfs_inv n2i F' [] (graphlib.seen st') (graphlib.node2stacki st'))
            ∧ n ∈ graphlib.seen st'
            ∧ (∀ x, x ∈ graphlib.seen st → x ∈ graphlib.seen st')
            ∧ dfs_weight n2i [] (graphlib.seen st')
              ≤ dfs_weight n2i (graphlib.itstack st) (graphlib.seen st)
        end) as Hcont.
  { intros st1 F1 Hinv1 Hfr1 Hw1 Hn1 Hsub1 Hle1.
    destruct (backtrack_spec _ _ _ _ _ Hinv1 Hfr1)
      as (next & stk' & its' & n2s' & F' & -> & Hinv' & Hnext).
    simpl. destruct next as [nxt|].
    - destruct Hnext as (Hfr' & [x Hx] & Hsum).
      destruct (IH nxt {| graphlib.stack := stk'; graphlib.itstack := its';
                          graphlib.seen := graphlib.seen st1;
                          graphlib.node2stacki := n2s' |} F')
        as (found & st' & -> & Hres); simpl; try done.
      + by apply (Hclosed x).
      + unfold dfs_weight in *. lia.
      + exists found, st'. split; [done|]. destruct found; [done|].
        simpl in Hres. destruct Hres as (? & ? & ? & ? & Hsub & Hle).
        split_and!; try done; [auto..|].
        unfold dfs_weight in *. lia.
    - destruct Hnext as [-> ->]. eexists None, _. split; [done|]. simpl.
      split_and!; try done; [eauto|].
      unfold dfs_weight in *. simpl. lia. }
  destruct Hinv as (Hsn & Hn2s & Hnd & Hstk & Hdis & Hord).
  simpl. unfold PySet.mem. case_bool_decide as Hseen.
  - destruct (Dict.get (graphlib.node2stacki st) n) as [i|] eqn:Ei.
    + (* [n] is on the stack: a cycle *)
      eexists _, _. split; [done|]. split.
      * unfold graphlib.cycle_of. by destruct (drop _ _).
      * exists n. eapply frames_path; [done|]. apply Hn2s. by rewrite Ei.
    + assert (n ∈ F) as HnF.
      { apply Hsn in Hseen as [Hs|?]; [|done].
        apply Hn2s in Hs as [? Hs]. congruence. }
      apply (Hcont st F); try done.
      * by eapply frames_frames_top.
      * lia.
  - destruct (Dict.get n2i n) as [info|] eqn:Einfo.
    2:{ apply get_None in Einfo. done. }
    assert (n ∉ graphlib.stack st) as Hnstk by (intros ?; apply Hseen, Hsn; auto).
    assert (n ∉ F) as HnF by (intros ?; apply Hseen, Hsn; auto).
    pose proof (unseen_weight_add _ _ _ _ Einfo Hseen) as Hadd.
    apply (Hcont {| graphlib.stack := n :: graphlib.stack st;
                    graphlib.itstack := graphlib.successors info :: graphlib.itstack st;
                    graphlib.seen := PySet.add n (graphlib.seen st);
                    graphlib.node2stacki :=
                      Dict.set (graphlib.node2stacki st) n (length (graphlib.stack st)) |}
                 F);
      cbn [graphlib.stack graphlib.itstack graphlib.seen graphlib.node2stacki].
    * split_and!; try done.
      -- intros x. rewrite elem_of_add, Hsn, elem_of_cons. tauto.
      -- intros x. rewrite get_set, elem_of_cons. case_decide.
         ++ subst. split; eauto.
         ++ rewrite Hn2s. naive_solver.
      -- by apply NoDup_keys_set.
      -- by apply NoDup_cons.
      -- intros x [->|?]%elem_of_cons; auto.
    * split; [|done]. exists []. split; [|by intros ? ?%elem_of_nil].
      unfold succs_of. by rewrite Einfo.
    * unfold dfs_weight in *. rewrite fmap_cons, sum_list_cons. lia.
    * apply elem_of_add. auto.
    * intros x ?. apply elem_of_add. auto.
    * unfold dfs_weight in *. rewrite fmap_cons, sum_list_cons. lia.
Qed.


(** The [for node in n2i] loop. *)
Lemma find_cycle_from_spec fuel nodes : ∀ st F,
  dfs_inv n2i F [] (graphlib.seen st) (graphlib.node2stacki st) →
  graphlib.stack st = [] → graphlib.itstack st = [] →
  (∀ x, x ∈ nodes → x ∈ Dict.keys n2i) →
  dfs_weight n2i [] (graphlib.seen st) < fuel →
  ∃ r, graphlib.find_cycle_from fuel n2i nodes st = Ok r
    ∧ match r with
      | Some c => c ≠ [] ∧ ∃ x, tc (edge n2i) x x
      | None =>
          ∃ F', finishing_order n2i F'
                ∧ ∀ x, x ∈ nodes ∨ x ∈ graphlib.seen st → x ∈ F'
      end.
Proof.
  induction nodes as [|n nodes IH]; intros st F Hinv Hstk Hits Hkeys Hw; simpl.
  - exists None. split; [done|]. exists F.
    destruct Hinv as (Hsn & _ & _ & _ & _ & Hord). split; [done|].
    intros x [[]%elem_of_nil|Hx]. apply Hsn in Hx as [[]%elem_of_nil|?]. done.
  - unfold PySet.mem. case_bool_decide as Hseen.
    + destruct (IH st F) as (r & -> & Hr); try done.
      { intros x ?. apply Hkeys. by right. }
      exists r. split; [done|]. destruct r; [done|].
      destruct Hr as (F' & ? & HF'). exists F'. split; [done|].
      intros x [[->|?]%elem_of_cons|?]; auto.
    + destruct (visit_spec fuel n st F) as (found & st' & -> & Hres).
      * by rewrite Hstk.
      * by rewrite Hstk, Hits.
      * apply Hkeys. by left.
      * by rewrite Hits.
      * simpl. destruct found as [c|]; [by exists (Some c)|].
        destruct Hres as (Hstk' & Hits' & [F1 Hinv1] & Hn' & Hsub & Hle).
        destruct (IH st' F1) as (r & -> & Hr); try done.
        { intros x ?. apply Hkeys. by right. }
        { rewrite Hits in Hle. lia. }
        exists r. split; [done|]. destruct r; [done|].
        destruct Hr as (F' & ? & HF'). exists F'. split; [done|].
        intros x [[->|?]%elem_of_cons|?]; auto.
Qed.

(** No cycle goes through a finished node. *)
Lemma finishing_order_closed F :
  finishing_order n2i F → ∀ x y, x ∈ F → tc (edge n2i) x y → y ∈ F.
Proof.
  induction F as [|z F IH]; simpl; [by intros _ x y ?%elem_of_nil|].
  intros (Hz & Hsucc & Hord) x y Hx Htc. right.
  apply elem_of_cons in Hx as [->|Hx]; [|by eapply IH].
  inversion Htc as [? ? Hstep|? w ? Hstep Hrest]; subst.
  - by apply Hsucc.
  - eapply IH; [done| |done]. by apply Hsucc.
Qed.

Lemma finishing_order_head z F y :
  finishing_order n2i (z :: F) → tc (edge n2i) z y → y ∈ F.
Proof.
  simpl. intros (Hz & Hsucc & Hord) Htc.
  inversion Htc as [? ? Hstep|? w ? Hstep Hrest]; subst.
  - by apply Hsucc.
  - eapply finishing_order_closed; [done| |done]. by apply Hsucc.
Qed.

Lemma finishing_order_acyclic F x :
  finishing_order n2i F → x ∈ F → ¬ tc (edge n2i) x x.
Proof.
  induction F as [|z F IH]; [by intros _ ?%elem_of_nil|].
  intros Hord Hx Htc.
  apply elem_of_cons in Hx as [->|Hx].
  - pose proof (finishing_order_head _ _ _ Hord Htc). simpl in Hord. tauto.
  - simpl in Hord. apply IH; [apply Hord|done|done].
Qed.

(** Among the finished nodes, a node that fails [D] has one failing [D]
    around it whose predecessors all pass. *)
Lemma finishing_order_first F (D : string → bool) :
  finishing_order n2i F →
  (∃ n, n ∈ F ∧ D n = false) →
  ∃ m, m ∈ F ∧ D m = false ∧ ∀ p, p ∈ F → edge n2i p m → D p = true.
Proof.
  induction F as [|z F IH]; simpl; [by intros _ (? & ?%elem_of_nil & _)|].
  intros (Hz & Hsucc & Hord) (n & Hn & HDn).
  destruct (D z) eqn:HDz.
  - destruct (IH Hord) as (m & Hm & HDm & Hpreds).
    { exists n. split; [|done]. apply elem_of_cons in Hn as [->|?]; [congruence|done]. }
    exists m. split_and!; [by right|done|].
    intros p [->|?]%elem_of_cons ?; auto.
  - exists z. split_and!; [left|done|].
    intros p Hp Hedge. exfalso. apply Hz.
    apply elem_of_cons in Hp as [->|Hp]; [by apply Hsucc|].
    eapply (finishing_order_closed F Hord p z); [done|]. by apply tc_once.
Qed.

End find_cycle.

Lemma unseen_weight_nil (d : Dict.t graphlib._NodeInfo) :
  S (unseen_weight d []) = graphlib.dfs_fuel d.
Proof.
  unfold graphlib.dfs_fuel, unseen_weight, Dict.values. f_equal.
  induction d as [|[k i] d IH]; [done|].
  rewrite !fmap_cons, !sum_list_cons, IH. done.
Qed.

(** [_find_cycle] returns: with a non-empty list when the successor edges
    have a cycle, with [None] together with a finishing order of all the
    nodes when they have none. *)
Lemma find_cycle_spec (ts : graphlib.TopologicalSorter) :
  closed (graphlib._node2info ts) →
  ∃ r, graphlib._find_cycle ts = Ok r
    ∧ match r with
      | Some c => c ≠ [] ∧ ∃ x, tc (edge (graphlib._node2info ts)) x x
      | None =>
          ∃ F, finishing_order (graphlib._node2info ts) F
               ∧ ∀ x, x ∈ Dict.keys (graphlib._node2info ts) → x ∈ F
      end.
Proof.
  intros Hclosed. unfold graphlib._find_cycle.
  destruct (find_cycle_from_spec (graphlib._node2info ts) Hclosed
              (graphlib.dfs_fuel (graphlib._node2info ts))
              (Dict.keys (graphlib._node2info ts)) graphlib.dfs_empty [])
    as (r & -> & Hr); simpl; try done.
  - split_and!; try done; try apply NoDup_nil_2.
    + intros x. rewrite !elem_of_nil. tauto.
    + intros x. rewrite elem_of_nil. split; [by intros [? ?]|done].
    + by intros x ?%elem_of_nil.
  - unfold dfs_weight. simpl. rewrite <-unseen_weight_nil. lia.
  - exists r. split; [done|]. destruct r; [done|].
    destruct Hr as (F & ? & HF). exists F. auto.
Qed.

(** ** [get_ready] and [done]: the counters of the sorter *)

Lemma bind_Ok {A B : Type} (a : A) (f : A → run B) : (Ok a ≫= f) = f a.
Proof. reflexivity. Qed.

Section sorter_steps.
Variable graph : Dict.t (list string).
Implicit Types (n2i : Dict.t graphlib._NodeInfo) (n m s : string).
Implicit Types (out pend ready : list string).

Lemma set_npredecessors_spec n2i n i v :
  Dict.get n2i n = Some i →
  (∀ m, npred_of (Dict.set n2i n (graphlib.set_npredecessors v i)) m
        = if decide (n = m) then v else npred_of n2i m)
  ∧ (∀ m, succs_of (Dict.set n2i n (graphlib.set_npredecessors v i)) m = succs_of n2i m)
  ∧ Dict.keys (Dict.set n2i n (graphlib.set_npredecessors v i)) = Dict.keys n2i.
Proof.
  intros Hget. split_and!.
  - intros m. unfold npred_of. rewrite get_set. by case_decide.
  - intros m. unfold succs_of. rewrite get_set. case_decide; [subst m|done].
    by rewrite Hget.
  - rewrite keys_set, decide_True; [done|]. apply get_is_Some. eauto.
Qed.

Lemma static_set n2i n i v :
  sorter_static graph n2i → Dict.get n2i n = Some i →
  sorter_static graph (Dict.set n2i n (graphlib.set_npredecessors v i)).
Proof.
  intros (Hnd & Hk & Hs) Hget.
  destruct (set_npredecessors_spec n2i n i v Hget) as (_ & Hs' & Hk').
  split_and!.
  - by rewrite Hk'.
  - intros x. by rewrite Hk'.
  - intros m. by rewrite Hs'.
Qed.

Lemma waiting_ext n2i n2i' l :
  (∀ p, npred_of n2i' p = graphlib._NODE_DONE ↔ npred_of n2i p = graphlib._NODE_DONE) →
  waiting n2i' l = waiting n2i l.
Proof.
  intros H. unfold waiting. induction l as [|p l IH]; [done|].
  rewrite !filter_cons.
  destruct (decide (npred_of n2i' p ≠ graphlib._NODE_DONE)) as [H1|H1],
           (decide (npred_of n2i p ≠ graphlib._NODE_DONE)) as [H2|H2];
    simpl; try (by rewrite IH); exfalso.
  - apply H1, H. by apply dec_stable.
  - apply H2, H. by apply dec_stable.
Qed.

Lemma waiting_mark_done n2i n2i' n l :
  npred_of n2i n ≠ graphlib._NODE_DONE →
  (∀ p, npred_of n2i' p = graphlib._NODE_DONE
        ↔ p = n ∨ npred_of n2i p = graphlib._NODE_DONE) →
  waiting n2i l = waiting n2i' l + count n l.
Proof.
  intros Hn H. unfold waiting. induction l as [|p l IH]; [done|].
  rewrite count_cons, !filter_cons. pose proof (H p) as [Ha Hb].
  destruct (decide (npred_of n2i' p = graphlib._NODE_DONE)) as [E'|E'],
           (decide (npred_of n2i p = graphlib._NODE_DONE)) as [E|E];
    repeat case_decide; simpl; subst; try lia; try done; exfalso; tauto.
Qed.

Lemma waiting_0 n2i l :
  waiting n2i l = 0 ↔ ∀ p, p ∈ l → npred_of n2i p = graphlib._NODE_DONE.
Proof.
  unfold waiting. induction l as [|p l IH].
  - split; [by intros _ ? ?%elem_of_nil|done].
  - rewrite filter_cons. setoid_rewrite elem_of_cons.
    destruct (decide (npred_of n2i p ≠ graphlib._NODE_DONE)) as [H1|H1]; simpl.
    + split; [lia|]. intros H. destruct H1. auto.
    + apply dec_stable in H1. rewrite IH. naive_solver.
Qed.

(** One turn of the loop of [done] over the successors. *)
Lemma notify_spec out s pend n2i ready :
  sorter_inv graph out (s :: pend) n2i ready →
  s ∈ Dict.keys n2i →
  ∃ n2i' ready',
    graphlib.notify (n2i, ready) s = Ok (n2i', ready')
    ∧ sorter_inv graph out pend n2i' ready'
    ∧ (∀ p, npred_of n2i' p = graphlib._NODE_DONE ↔ npred_of n2i p = graphlib._NODE_DONE)
    ∧ (∀ x, x ∈ ready' → x ∈ ready ∨ x = s)
    ∧ (∀ x, x ∈ ready → x ∈ ready').
Proof.
  intros (Hst & Hrnd & Hond & Hready & Hnodes & Hout) Hs.
  destruct (proj2 (get_is_Some n2i s) Hs) as [info Hinfo].
  assert (npred_of n2i s = graphlib.npredecessors info) as Hnp
    by (unfold npred_of; by rewrite Hinfo).
  assert (graphlib.npredecessors info
          = Z.of_nat (S (waiting n2i (graph_preds graph s) + count s pend))) as Hval.
  { destruct (Hnodes s Hs) as [(_ & _ & Hp)|[(_ & _ & _ & Hp)|Hp]].
    - destruct Hp. left.
    - destruct Hp. left.
    - rewrite <-Hnp, Hp, count_cons, decide_True by done. f_equal. lia. }
  destruct (set_npredecessors_spec n2i s info (graphlib.npredecessors info - 1) Hinfo)
    as (Hnp' & Hsucc' & Hkeys').
  set (n2i' := Dict.set n2i s
                 (graphlib.set_npredecessors (graphlib.npredecessors info - 1) info)) in *.
  assert (∀ p, npred_of n2i' p = graphlib._NODE_DONE
               ↔ npred_of n2i p = graphlib._NODE_DONE) as Hdone.
  { intros p. rewrite Hnp'. case_decide; [subst p|done].
    rewrite Hnp, Hval. unfold graphlib._NODE_DONE. lia. }
  assert (s ∉ ready) as Hsr.
  { intros Hin. apply Hready in Hin as [_ Hz]. rewrite Hnp, Hval in Hz. lia. }
  assert (s ∉ out) as Hso.
  { intros Hin. apply Hout in Hin as [_ Hz]. rewrite Hnp, Hval in Hz.
    unfold graphlib._NODE_OUT in Hz. lia. }
  eexists n2i', _. split.
  { unfold graphlib.notify. rewrite Hinfo. reflexivity. }
  simpl. split_and!; [|done| |].
  - split_and!; try done.
    + by apply static_set.
    + case_bool_decide; [|done]. apply NoDup_app. split_and!; [done| |apply NoDup_singleton].
      intros x ? ->%list_elem_of_singleton. done.
    + intros m. rewrite Hkeys', Hnp'. case_bool_decide as Hz.
      * rewrite elem_of_app, list_elem_of_singleton, Hready.
        case_decide; [subst m|naive_solver]. naive_solver.
      * rewrite Hready. case_decide; [subst m|done].
        split; [intros [_ Hz']|intros [_ Hz']]; [|done].
        rewrite Hnp, Hval in Hz'. lia.
    + intros m Hm. rewrite Hkeys' in Hm. unfold node_inv.
      rewrite (waiting_ext n2i n2i') by done. rewrite Hnp'.
      case_decide as Hms.
      * subst m. right. right. rewrite Hval. lia.
      * destruct (Hnodes m Hm) as [(? & ? & Hp)|[(? & ? & ? & Hp)|Hp]].
        -- left. split_and!; [done..|]. intros ?. apply Hp. by right.
        -- right; left. split_and!; [done..|]. intros ?. apply Hp. by right.
        -- right; right. rewrite Hp, count_cons, decide_False by done. done.
    + intros m Hm. rewrite Hkeys', Hnp'. rewrite decide_False; [auto|].
      intros ->. done.
  - intros x. case_bool_decide; [|auto].
    rewrite elem_of_app, list_elem_of_singleton. tauto.
  - intros x ?. case_bool_decide; [|done]. apply elem_of_app. auto.
Qed.

Lemma notify_all_spec out pend : ∀ n2i ready,
  sorter_inv graph out pend n2i ready →
  (∀ x, x ∈ pend → x ∈ Dict.keys n2i) →
  ∃ n2i' ready',
    foldM graphlib.notify (n2i, ready) pend = Ok (n2i', ready')
    ∧ sorter_inv graph out [] n2i' ready'
    ∧ (∀ p, npred_of n2i' p = graphlib._NODE_DONE ↔ npred_of n2i p = graphlib._NODE_DONE)
    ∧ (∀ x, x ∈ ready' → x ∈ ready ∨ x ∈ pend)
    ∧ (∀ x, x ∈ ready → x ∈ ready').
Proof.
  induction pend as [|s pend IH]; intros n2i ready Hinv Hkeys.
  - exists n2i, ready. simpl. split_and!; auto.
  - destruct (notify_spec out s pend n2i ready Hinv) as
      (n2i1 & ready1 & E1 & Hinv1 & Hd1 & Hr1 & Hs1).
    { apply Hkeys. left. }
    destruct (IH n2i1 ready1 Hinv1) as (n2i2 & ready2 & E2 & Hinv2 & Hd2 & Hr2 & Hs2).
    { intros x Hx. destruct Hinv1 as ((_ & Hk1 & _) & _).
      destruct Hinv as ((_ & Hk & _) & _). apply Hk1, Hk, Hkeys. by right. }
    exists n2i2, ready2. cbn [foldM]. rewrite E1, bind_Ok.
    split_and!; [done..| | |].
    + intros p. by rewrite Hd2, Hd1.
    + intros x Hx. rewrite elem_of_cons.
      destruct (Hr2 x Hx) as [Hx1|?]; [|auto]. destruct (Hr1 x Hx1); auto.
    + auto.
Qed.


(** [done(n)] for a node passed out: it is marked done and its successors
    lose one waiting predecessor each; those left with none become ready. *)
Lemma done1_spec ts n out ready :
  graphlib._ready_nodes ts = Some ready →
  sorter_inv graph (n :: out) [] (graphlib._node2info ts) ready →
  ∃ ts' ready',
    graphlib.done1 ts n = Ok ts'
    ∧ graphlib._ready_nodes ts' = Some ready'
    ∧ graphlib._npassedout ts' = graphlib._npassedout ts
    ∧ graphlib._nfinished ts' = S (graphlib._nfinished ts)
    ∧ sorter_inv graph out [] (graphlib._node2info ts') ready'
    ∧ (∀ p, npred_of (graphlib._node2info ts') p = graphlib._NODE_DONE
            ↔ p = n ∨ npred_of (graphlib._node2info ts) p = graphlib._NODE_DONE)
    ∧ (∀ x, x ∈ ready' → x ∈ ready ∨ n ∈ graph_preds graph x)
    ∧ (∀ x, x ∈ ready → x ∈ ready').
Proof.
  intros Hr (Hst & Hrnd & Hond & Hready & Hnodes & Hout).
  set (n2i := graphlib._node2info ts) in *.
  destruct (Hout n) as [Hn Hnout]; [left|].
  destruct (proj2 (get_is_Some n2i n) Hn) as [info Hinfo].
  assert (graphlib.npredecessors info = graphlib._NODE_OUT) as Hnp.
  { unfold npred_of in Hnout. by rewrite Hinfo in Hnout. }
  apply NoDup_cons in Hond as [Hnotin Hond].
  destruct (set_npredecessors_spec n2i n info graphlib._NODE_DONE Hinfo)
    as (Hnp1 & Hsucc1 & Hkeys1).
  set (n2i1 := Dict.set n2i n (graphlib.set_npredecessors graphlib._NODE_DONE info)) in *.
  assert (npred_of n2i n ≠ graphlib._NODE_DONE) as Hnd by (by rewrite Hnout).
  assert (∀ p, npred_of n2i1 p = graphlib._NODE_DONE
               ↔ p = n ∨ npred_of n2i p = graphlib._NODE_DONE) as Hdone1.
  { intros p. rewrite Hnp1. case_decide; [subst p|]; naive_solver. }
  assert (graphlib.successors info = graph_succs graph n) as Hsuccs.
  { destruct Hst as (_ & _ & Hs). rewrite <-Hs. unfold succs_of. by rewrite Hinfo. }
  assert (∀ m, waiting n2i (graph_preds graph m) = 0 → m ∉ graph_succs graph n) as Hnosucc.
  { intros m Hw Hin. apply elem_of_graph_succs in Hin.
    rewrite waiting_0 in Hw. by apply Hw in Hin. }
  assert (sorter_inv graph out (graph_succs graph n) n2i1 ready) as Hinv1.
  { split_and!; try done.
    - by apply static_set.
    - intros m. rewrite Hkeys1, Hnp1, Hready. case_decide; [subst m|done].
      rewrite Hnout. split; intros [_ ?]; done.
    - intros m Hm. rewrite Hkeys1 in Hm. unfold node_inv.
      pose proof (waiting_mark_done n2i n2i1 n (graph_preds graph m) Hnd Hdone1) as Hw.
      rewrite Hnp1. case_decide as Hmn.
      + subst m. left.
        destruct (Hnodes n Hn) as [(? & Hw0 & _)|[(_ & _ & Hw0 & _)|Hp]].
        * split_and!; [done|lia|auto].
        * split_and!; [done|lia|auto].
        * rewrite Hnout in Hp. unfold graphlib._NODE_OUT in Hp. lia.
      + destruct (Hnodes m Hm) as [(? & Hw0 & _)|[(? & Hin & Hw0 & _)|Hp]].
        * left. split_and!; [done|lia|auto].
        * right; left. apply elem_of_cons in Hin as [?|?]; [done|].
          split_and!; [done|done|lia|auto].
        * right; right. rewrite Hp, Hw.
          rewrite count_graph_succs. unfold count at 2. simpl. f_equal. lia.
    - intros m Hm. rewrite Hkeys1, Hnp1. destruct (Hout m) as [? ?]; [by right|].
      rewrite decide_False; [done|]. intros ->. done. }
  destruct (notify_all_spec out (graph_succs graph n) n2i1 ready Hinv1)
    as (n2i2 & ready2 & E2 & Hinv2 & Hd2 & Hr2 & Hs2).
  { intros x Hx. rewrite Hkeys1. destruct Hst as (_ & Hk & _). apply Hk.
    apply elem_of_graph_succs, graph_preds_nodes in Hx. tauto. }
  eexists _, ready2. split.
  { unfold graphlib.done1. rewrite Hr. fold n2i. rewrite Hinfo.
    rewrite bool_decide_false by (by intros ?).
    fold n2i1. rewrite Hsuccs, E2, bind_Ok. reflexivity. }
  simpl. split_and!; try done.
  - intros p. by rewrite Hd2, Hdone1.
  - intros x Hx. destruct (Hr2 x Hx) as [?|Hin]; [auto|].
    right. by apply elem_of_graph_succs.
Qed.

Lemma mark_out_spec l : ∀ n2i,
  sorter_static graph n2i → (∀ x, x ∈ l → x ∈ Dict.keys n2i) →
  ∃ n2i',
    foldM (λ n2i n,
             match Dict.get n2i n with
             | None => Raise KeyError
             | Some i => Ok (Dict.set n2i n (graphlib.set_npredecessors graphlib._NODE_OUT i))
             end) n2i l = Ok n2i'
    ∧ sorter_static graph n2i'
    ∧ Dict.keys n2i' = Dict.keys n2i
    ∧ ∀ m, npred_of n2i' m = if decide (m ∈ l) then graphlib._NODE_OUT else npred_of n2i m.
Proof.
  induction l as [|n l IH]; intros n2i Hst Hkeys.
  - exists n2i. split_and!; done.
  - destruct (proj2 (get_is_Some n2i n)) as [info Hinfo]; [apply Hkeys; left|].
    destruct (set_npredecessors_spec n2i n info graphlib._NODE_OUT Hinfo)
      as (Hnp1 & Hsucc1 & Hkeys1).
    destruct (IH (Dict.set n2i n (graphlib.set_npredecessors graphlib._NODE_OUT info)))
      as (n2i' & E & Hst' & Hk' & Hnp').
    + by apply static_set.
    + intros x ?. rewrite Hkeys1. apply Hkeys. by right.
    + exists n2i'. cbn [foldM]. rewrite Hinfo, bind_Ok. split_and!; try done.
      * by rewrite Hk'.
      * intros m. rewrite Hnp', Hnp1.
        destruct (decide (m ∈ l)), (decide (n = m)), (decide (m ∈ n :: l)) as [Hin|Hin];
          try done; exfalso; rewrite elem_of_cons in Hin; naive_solver.
Qed.

(** [get_ready] passes out the ready nodes. *)
Lemma get_ready_spec ts ready :
  graphlib._ready_nodes ts = Some ready →
  sorter_inv graph [] [] (graphlib._node2info ts) ready →
  ∃ ts',
    graphlib.get_ready ts = Ok (ready, ts')
    ∧ graphlib._ready_nodes ts' = Some []
    ∧ graphlib._npassedout ts' = graphlib._npassedout ts + length ready
    ∧ graphlib._nfinished ts' = graphlib._nfinished ts
    ∧ sorter_inv graph ready [] (graphlib._node2info ts') []
    ∧ (∀ p, npred_of (graphlib._node2info ts') p = graphlib._NODE_DONE
            ↔ npred_of (graphlib._node2info ts) p = graphlib._NODE_DONE).
Proof.
  intros Hr (Hst & Hrnd & Hond & Hready & Hnodes & Hout).
  set (n2i := graphlib._node2info ts) in *.
  destruct (mark_out_spec ready n2i Hst) as (n2i' & E & Hst' & Hk' & Hnp').
  { intros x Hx. by apply Hready in Hx as [? _]. }
  assert (∀ p, npred_of n2i' p = graphlib._NODE_DONE
               ↔ npred_of n2i p = graphlib._NODE_DONE) as Hdone.
  { intros p. rewrite Hnp'. case_decide as Hin; [|done].
    apply Hready in Hin as [_ ->]. done. }
  eexists. split.
  { unfold graphlib.get_ready. rewrite Hr. fold n2i. rewrite E, bind_Ok. reflexivity. }
  simpl. split_and!; try done.
  split_and!; try done.
  - intros m. rewrite Hk', Hnp'. rewrite elem_of_nil. split; [done|].
    intros [Hm Hz]. case_decide as Hin; [done|]. apply Hin, Hready. done.
  - intros m Hm. rewrite Hk' in Hm. unfold node_inv.
    rewrite (waiting_ext n2i n2i') by done. rewrite Hnp'.
    case_decide as Hin.
    + right; left. apply Hready in Hin as Hz. destruct Hz as [_ Hz].
      destruct (Hnodes m Hm) as [(Hp & _)|[(Hp & _)|Hp]]; rewrite Hz in Hp;
        [discriminate Hp..|].
      change (count m []) with 0 in Hp.
      split_and!; [done|done|lia|apply not_elem_of_nil].
    + destruct (Hnodes m Hm) as [?|[(_ & []%elem_of_nil & _)|?]]; auto.
  - intros m Hm. rewrite Hk', Hnp'. rewrite decide_True by done.
    by apply Hready in Hm as [? _].
Qed.

End sorter_steps.

(** ** [prepare] *)

Section prepare.
Implicit Types (d n2i : Dict.t graphlib._NodeInfo) (n m p : string).

Lemma node_ok_get_nodeinfo d n : node_ok d → node_ok (graphlib._get_nodeinfo d n).
Proof.
  intros Hd k i. rewrite get_get_nodeinfo. case_decide; [subst k|apply Hd].
  destruct (Dict.get d n) eqn:E; simpl; intros [= <-]; [by apply Hd|done].
Qed.

Lemma node_ok_update f d n :
  (∀ i, graphlib.node (f i) = graphlib.node i) → node_ok d → node_ok (graphlib.update f d n).
Proof.
  intros Hf Hd k i. rewrite get_update. case_decide; [subst k|apply Hd].
  destruct (Dict.get d n) eqn:E; simpl; intros [= <-]. rewrite Hf. by apply Hd.
Qed.

Lemma node_ok_add_edges n preds : ∀ d, node_ok d → node_ok (graphlib.add_edges n d preds).
Proof.
  unfold graphlib.add_edges. induction preds as [|p preds IH]; intros d Hd; simpl; [done|].
  apply IH, node_ok_update; [done|]. by apply node_ok_get_nodeinfo.
Qed.

Lemma node_ok_add ts n preds ts' :
  node_ok (graphlib._node2info ts) → graphlib.add ts n preds = Ok ts' →
  node_ok (graphlib._node2info ts').
Proof.
  intros Hts. unfold graphlib.add. destruct (graphlib._ready_nodes ts); [done|].
  intros [= <-]. simpl.
  apply node_ok_add_edges, node_ok_update; [done|]. by apply node_ok_get_nodeinfo.
Qed.

Lemma node_ok_foldM_add graph : ∀ ts ts',
  node_ok (graphlib._node2info ts) →
  foldM (λ ts '(n, predecessors), graphlib.add ts n predecessors) ts graph = Ok ts' →
  node_ok (graphlib._node2info ts').
Proof.
  induction graph as [|[n preds] graph IH]; intros ts ts' Hts; cbn [foldM].
  - by intros [= <-].
  - destruct (graphlib.add ts n preds) as [ts1| |] eqn:E; try done.
    rewrite bind_Ok. apply IH. by eapply node_ok_add.
Qed.

Lemma init_node_ok graph ts : graphlib.init graph = Ok ts → node_ok (graphlib._node2info ts).
Proof. apply node_ok_foldM_add. by intros k i. Qed.

Lemma init_closed graph ts : graphlib.init graph = Ok ts → closed (graphlib._node2info ts).
Proof.
  intros Hinit. destruct (init_spec graph) as (ts0 & E & _ & _ & _ & _ & Hs & Hk & _).
  rewrite Hinit in E. injection E as <-.
  intros x y. unfold edge. rewrite Hs, elem_of_graph_succs, !Hk.
  intros H%graph_preds_nodes. tauto.
Qed.

Lemma ready_filter d (l : Dict.t graphlib._NodeInfo) :
  node_ok d → (∀ k i, (k, i) ∈ l → Dict.get d k = Some i) →
  graphlib.node <$> filter (λ i, graphlib.npredecessors i = 0%Z) (Dict.values l)
  = filter (λ k, npred_of d k = 0%Z) (Dict.keys l).
Proof.
  intros Hd. unfold Dict.values, Dict.keys.
  induction l as [|[k i] l IH]; intros Hl; [done|].
  rewrite !fmap_cons, !filter_cons. simpl.
  pose proof (Hl k i ltac:(left)) as Hget.
  assert (npred_of d k = graphlib.npredecessors i) as -> by (unfold npred_of; by rewrite Hget).
  rewrite <-IH by (intros ? ? ?; apply Hl; by right).
  case_decide; [|done]. rewrite fmap_cons. f_equal. by apply Hd.
Qed.

Lemma waiting_none_done n2i l :
  (∀ p, npred_of n2i p ≠ graphlib._NODE_DONE) → waiting n2i l = length l.
Proof.
  intros H. unfold waiting. induction l as [|p l IH]; [done|].
  rewrite filter_cons, decide_True by done. simpl. by rewrite IH.
Qed.

(** [prepare] on a freshly built sorter: a [CycleError] when the graph has
    a cycle; otherwise the nodes without predecessors are ready and the
    nodes can be listed so that successors come after predecessors. *)
Lemma prepare_spec graph ts :
  graphlib.init graph = Ok ts →
  (∃ c, graphlib.prepare ts = Raise (CycleError c)
        ∧ ∃ x, tc (edge (graphlib._node2info ts)) x x)
  ∨ (∃ ready F,
       graphlib.prepare ts
       = Ok {| graphlib._node2info := graphlib._node2info ts;
               graphlib._ready_nodes := Some ready;
               graphlib._npassedout := 0; graphlib._nfinished := 0 |}
       ∧ sorter_inv graph [] [] (graphlib._node2info ts) ready
       ∧ (∀ p, npred_of (graphlib._node2info ts) p ≠ graphlib._NODE_DONE)
       ∧ finishing_order (graphlib._node2info ts) F
       ∧ ∀ x, x ∈ Dict.keys (graphlib._node2info ts) → x ∈ F).
Proof.
  intros Hinit. pose proof (init_closed _ _ Hinit) as Hclosed.
  pose proof (init_node_ok _ _ Hinit) as Hnode.
  destruct (init_spec graph) as (ts0 & E & Hr & Hp & Hf & Hn & Hs & Hk & Hnd).
  rewrite Hinit in E. injection E as <-.
  unfold graphlib.prepare. rewrite Hr, Hp, Hf.
  set (ts' := {| graphlib._node2info := graphlib._node2info ts |}).
  destruct (find_cycle_spec ts' Hclosed) as (r & -> & Hres). rewrite bind_Ok.
  destruct r as [c|].
  - left. destruct Hres as [Hc Hx]. destruct c as [|a c]; [done|]. eauto.
  - right. destruct Hres as (F & HF & HkF).
    assert (∀ p, npred_of (graphlib._node2info ts) p ≠ graphlib._NODE_DONE) as Hnone.
    { intros p. rewrite Hn. unfold graphlib._NODE_DONE. lia. }
    eexists _, F. split; [reflexivity|]. split_and!; try done.
    split_and!; try done.
    + rewrite (ready_filter (graphlib._node2info ts)); [|done|].
      * by apply NoDup_filter.
      * intros k i. by apply elem_of_get.
    + apply NoDup_nil_2.
    + intros n. rewrite (ready_filter (graphlib._node2info ts)); [|done|].
      * rewrite list_elem_of_filter. tauto.
      * intros k i. by apply elem_of_get.
    + intros n _. right; right. rewrite Hn, waiting_none_done by done.
      change (count n []) with 0. f_equal. lia.
    + by intros n ?%elem_of_nil.
Qed.

End prepare.

(** ** The leveler *)

Section leveler.
Variable dependency_map : Dict.t PySet.t.
Implicit Types (n m p : string) (rows : list row) (out ready : list string).
Implicit Types (ts : graphlib.TopologicalSorter).

Local Abbreviation dm := dependency_map.

Lemma has_row_app rows rows' l n : has_row rows l n → has_row (rows ++ rows') l n.
Proof. intros (r & ? & ? & ?). exists r. rewrite elem_of_app. auto. Qed.

Lemma tight_app rows rows' l n : tight dm rows l n → tight dm (rows ++ rows') l n.
Proof.
  intros [?|(p & l' & ? & ? & ?)]; [by left|right].
  exists p, l'. split_and!; [done| |done]. by apply has_row_app.
Qed.

Lemma strict_le_of_sorted n n' out :
  StronglySorted String.le (n :: out) → NoDup (n :: out) → n' ∈ out →
  strict String.le n n'.
Proof.
  intros Hs Hnd Hin. apply StronglySorted_inv in Hs as [_ Hall].
  apply NoDup_cons in Hnd as [Hn _].
  rewrite Forall_forall in Hall. specialize (Hall n' Hin).
  split; [done|]. intros Hle. apply Hn.
  by rewrite (anti_symm String.le n n' Hall Hle).
Qed.

(** Lines 87-90 for one node of the level. *)
Lemma write_row_spec k n out ts rows ready :
  graphlib._ready_nodes ts = Some ready →
  sorter_inv dm (n :: out) [] (graphlib._node2info ts) ready →
  inner_inv dm (graphlib._node2info ts) k (n :: out) ready rows →
  ∃ ts' ready',
    write_row dm k (ts, rows) n = Ok (ts', rows ++ [row_of dm k n])
    ∧ graphlib._ready_nodes ts' = Some ready'
    ∧ graphlib._npassedout ts' = graphlib._npassedout ts
    ∧ graphlib._nfinished ts' = S (graphlib._nfinished ts)
    ∧ sorter_inv dm out [] (graphlib._node2info ts') ready'
    ∧ inner_inv dm (graphlib._node2info ts') k out ready' (rows ++ [row_of dm k n]).
Proof.
  intros Hr Hinv (Hhead & Hsorted & Hout).
  destruct (done1_spec dm ts n out ready Hr Hinv)
    as (ts' & ready' & E & Hr' & Hpo & Hfin & Hinv' & Hdone & Hnew & Hold).
  exists ts', ready'. split.
  { unfold write_row, graphlib.done. cbn [foldM]. rewrite E, !bind_Ok. reflexivity. }
  split_and!; try done.
  destruct Hhead as ((R1 & R2 & R3 & R4 & R5 & R6) & Hlv & Hrt).
  cbv beta in R1.
  destruct (Hout n) as (Htn & Hpn & Hltn); [left|].
  assert (NoDup (n :: out)) as Hnd by (by destruct Hinv as (_ & _ & ? & _)).
  assert (has_row (rows ++ [row_of dm k n]) k n) as Hrow.
  { exists (row_of dm k n). rewrite elem_of_app, list_elem_of_singleton. auto. }
  split_and!.
  - split_and!.
    + split_and!.
      * intros m. rewrite Hdone, R1, fmap_app, elem_of_app. simpl.
        rewrite list_elem_of_singleton. tauto.
      * rewrite fmap_app. apply NoDup_app. split_and!; [done| |apply NoDup_singleton].
        intros m Hm ->%list_elem_of_singleton. apply R1 in Hm.
        destruct Hinv as (_ & _ & _ & _ & _ & Ho). destruct (Ho n) as [_ Ho']; [left|].
        simpl in Hm. rewrite Ho' in Hm. done.
      * intros r [?| ->%list_elem_of_singleton]%elem_of_app; auto.
      * intros r p [Hr0| ->%list_elem_of_singleton]%elem_of_app Hp.
        -- destruct (R4 r p Hr0 Hp) as (l' & ? & ?). exists l'. split; [|done].
           by apply has_row_app.
        -- destruct (Hpn p Hp) as (l' & ? & ?). exists l'. split; [|done].
           by apply has_row_app.
      * intros r [Hr0| ->%list_elem_of_singleton]%elem_of_app.
        -- by apply tight_app, R5.
        -- simpl. by apply tight_app.
      * apply StronglySorted_app_2; [|done|by repeat constructor].
        intros r1 r2 Hr1 ->%list_elem_of_singleton. auto.
    + intros r [Hr0| ->%list_elem_of_singleton]%elem_of_app; [by apply Hlv|simpl; lia].
    + intros x Hx. destruct (Hnew x Hx) as [?|Hp].
      * by apply tight_app, Hrt.
      * right. exists n, k. auto.
  - by apply StronglySorted_inv in Hsorted as [? _].
  - intros n' Hn'. destruct (Hout n') as (Ht' & Hp' & Hlt'); [by right|].
    split_and!.
    + by apply tight_app.
    + intros p Hp. destruct (Hp' p Hp) as (l' & ? & ?). exists l'. split; [|done].
      by apply has_row_app.
    + intros r [Hr0| ->%list_elem_of_singleton]%elem_of_app; [auto|].
      right. split; [done|]. simpl. by eapply strict_le_of_sorted.
Qed.

(** The [for node in ready_nodes] loop. *)
Lemma write_rows_spec k out : ∀ ts rows ready,
  graphlib._ready_nodes ts = Some ready →
  sorter_inv dm out [] (graphlib._node2info ts) ready →
  inner_inv dm (graphlib._node2info ts) k out ready rows →
  ∃ ts' ready' rows',
    foldM (write_row dm k) (ts, rows) out = Ok (ts', rows')
    ∧ graphlib._ready_nodes ts' = Some ready'
    ∧ graphlib._npassedout ts' = graphlib._npassedout ts
    ∧ graphlib._nfinished ts' = graphlib._nfinished ts + length out
    ∧ sorter_inv dm [] [] (graphlib._node2info ts') ready'
    ∧ head_inv dm (graphlib._node2info ts') (S k) ready' rows'
    ∧ length rows' = length rows + length out.
Proof.
  induction out as [|n out IH]; intros ts rows ready Hr Hinv Hin.
  - exists ts, ready, rows. cbn [foldM]. split_and!; try done; try (simpl; lia).
    by destruct Hin as (? & _).
  - destruct (write_row_spec k n out ts rows ready Hr Hinv Hin)
      as (ts1 & ready1 & E1 & Hr1 & Hpo1 & Hfin1 & Hinv1 & Hin1).
    destruct (IH ts1 _ ready1 Hr1 Hinv1 Hin1)
      as (ts2 & ready2 & rows2 & E2 & Hr2 & Hpo2 & Hfin2 & Hinv2 & Hin2 & Hlen).
    exists ts2, ready2, rows2. cbn [foldM]. rewrite E1, bind_Ok.
    split_and!; try done; try congruence.
    + rewrite Hfin2, Hfin1. simpl. lia.
    + rewrite Hlen, length_app. simpl. lia.
Qed.


Lemma sorter_inv_perm out out' pend n2i ready :
  out ≡ₚ out' → sorter_inv dm out pend n2i ready → sorter_inv dm out' pend n2i ready.
Proof.
  intros Hp (Hst & Hrnd & Hond & Hready & Hnodes & Hout).
  split_and!; try done.
  - by rewrite <-Hp.
  - intros n Hn. destruct (Hnodes n Hn) as [?|[(? & ? & ?)|?]]; [by left| |by right; right].
    right; left. by rewrite <-Hp.
  - intros n. rewrite <-Hp. apply Hout.
Qed.

Lemma rows_inv_ext (done done' : string → Prop) rows :
  (∀ n, done n ↔ done' n) → rows_inv dm done rows → rows_inv dm done' rows.
Proof.
  intros H (R1 & R2). split; [|done]. intros n. by rewrite <-H.
Qed.

Lemma npred_of_done_key n2i n :
  npred_of n2i n = graphlib._NODE_DONE → n ∈ Dict.keys n2i.
Proof.
  intros H. apply get_is_Some. unfold npred_of in H.
  destruct (Dict.get n2i n); [eauto|done].
Qed.

(** The [while ts.is_active()] loop on a graph whose nodes can be taken
    in dependency order: it ends within the fuel, never prints the cycle
    message, and has leveled every node. *)
Lemma level_loop_spec fuel : ∀ ts k rows ready,
  (∀ D : string → bool,
     (∃ n, n ∈ graph_nodes dm ∧ D n = false) →
     ∃ m, m ∈ graph_nodes dm ∧ D m = false
          ∧ ∀ p, p ∈ graph_preds dm m → D p = true) →
  graphlib._ready_nodes ts = Some ready →
  sorter_inv dm [] [] (graphlib._node2info ts) ready →
  head_inv dm (graphlib._node2info ts) k ready rows →
  graphlib._nfinished ts = graphlib._npassedout ts →
  (∀ l : list string, NoDup l → (∀ x, x ∈ l → x ∈ graph_nodes dm) →
                      length l < fuel + length rows) →
  ∃ rows', level_loop fuel dm ts k rows = Ok (rows', false) ∧ leveled dm rows'.
Proof.
  induction fuel as [|fuel IH]; intros ts k rows ready Hwf Hr Hinv Hhead Hcnt Hfuel.
  { exfalso. destruct Hhead as ((R1 & R2 & _) & _).
    specialize (Hfuel (Resource <$> rows) R2). rewrite length_fmap in Hfuel.
    cut (length rows < 0 + length rows); [lia|]. apply Hfuel.
    intros x Hx. apply R1, npred_of_done_key in Hx.
    destruct Hinv as ((_ & Hk & _) & _). by apply Hk. }
  cbn [level_loop]. unfold graphlib.is_active. rewrite Hr, bind_Ok.
  rewrite bool_decide_false by lia. simpl orb.
  case_bool_decide as Hne.
  - (* a level is written *)
    destruct (get_ready_spec dm ts ready Hr Hinv)
      as (ts1 & -> & Hr1 & Hpo1 & Hfin1 & Hinv1 & Hdone1).
    rewrite bind_Ok.
    assert (sorter_inv dm (Str.sorted ready) [] (graphlib._node2info ts1) []) as Hinv1'.
    { eapply sorter_inv_perm; [|done]. symmetry. apply sorted_perm. }
    assert (inner_inv dm (graphlib._node2info ts1) k (Str.sorted ready) [] rows) as Hin1.
    { destruct Hhead as (Hrows & Hlv & Hrt). split_and!.
      - split_and!.
        + eapply rows_inv_ext; [|done]. intros n. by rewrite Hdone1.
        + intros r ?%Hlv. lia.
        + by intros n ?%elem_of_nil.
      - apply sorted_Sorted.
      - intros n Hn. apply (proj1 (elem_of_sorted _ _)) in Hn. split_and!.
        + by apply Hrt.
        + intros p Hp.
          destruct Hinv as (_ & _ & _ & Hready & Hnodes & _).
          apply Hready in Hn as [Hn Hz].
          assert (waiting (graphlib._node2info ts) (graph_preds dm n) = 0) as Hw.
          { destruct (Hnodes n Hn) as [(Hd & _)|[(Hd & _)|Hd]];
              rewrite Hz in Hd; [discriminate Hd..|]. lia. }
          rewrite waiting_0 in Hw. specialize (Hw p Hp).
          destruct Hrows as (R1 & _). apply R1 in Hw.
          apply list_elem_of_fmap in Hw as (r & -> & Hrin).
          exists (Level r). split; [by exists r|]. by apply Hlv.
        + intros r ?%Hlv. left. simpl. lia. }
    destruct (Str.sorted ready) as [|s l] eqn:Es.
    { apply (proj1 (sorted_nil _)) in Es. done. }
    destruct (write_rows_spec k (s :: l) ts1 rows [] Hr1 Hinv1' Hin1)
      as (ts2 & ready2 & rows2 & -> & Hr2 & Hpo2 & Hfin2 & Hinv2 & Hhead2 & Hlen).
    rewrite bind_Ok. apply (IH ts2 (S k) rows2 ready2); try done.
    + rewrite Hfin2, Hpo2, Hpo1, Hfin1, Hcnt. f_equal.
      by rewrite <-Es, sorted_perm.
    + intros l' Hl' Hsub. specialize (Hfuel l' Hl' Hsub).
      rewrite Hlen. simpl. lia.
  - (* nothing is ready: every node has its line *)
    subst ready.
    exists rows. split; [done|].
    destruct Hhead as (Hrows & _). eapply rows_inv_ext; [|done].
    intros n. cbv beta.
    destruct Hinv as ((_ & Hk & _) & _ & _ & Hready & Hnodes & _).
    split; [by intros ?%npred_of_done_key%Hk|].
    intros Hn. apply dec_stable. intros Hnd.
    destruct (Hwf (λ x, bool_decide (npred_of (graphlib._node2info ts) x
                                     = graphlib._NODE_DONE)))
      as (m & Hm & Hmd & Hpreds).
    { exists n. split; [done|]. by apply bool_decide_eq_false. }
    apply bool_decide_eq_false in Hmd.
    assert (waiting (graphlib._node2info ts) (graph_preds dm m) = 0) as Hw.
    { apply waiting_0. intros p Hp. by apply Hpreds, bool_decide_eq_true in Hp. }
    apply Hk in Hm.
    destruct (Hnodes m Hm) as [(? & _)|[(_ & []%elem_of_nil & _)|Hz]]; [done|].
    rewrite Hw in Hz. change (count m []) with 0 in Hz.
    assert (m ∈ []) as []%elem_of_nil. apply Hready. done.
Qed.


Lemma tc_edge_depends n2i x y :
  (∀ m, succs_of n2i m = graph_succs dm m) →
  tc (edge n2i) x y ↔ tc (depends dm) y x.
Proof.
  intros Hs.
  assert (∀ a b, edge n2i a b ↔ depends dm b a) as Hstep.
  { intros a b. unfold edge, depends. by rewrite Hs, elem_of_graph_succs. }
  split; intros H.
  - induction H as [a b H|a b c H _ IH].
    + apply tc_once. by apply Hstep.
    + eapply tc_r; [done|]. by apply Hstep.
  - induction H as [a b H|a b c H _ IH].
    + apply tc_once. by apply Hstep.
    + eapply tc_r; [done|]. by apply Hstep.
Qed.

(** Lines 73-92 as a whole. Either [prepare] raises [CycleError], there
    is a cycle and nothing is written; or there is no cycle, the loop
    ends without the cycle message and the table levels every node. *)
Lemma leveler_spec :
  (∃ c, leveler dm = Raise (CycleError c) ∧ ∃ x, tc (depends dm) x x)
  ∨ (∃ rows, leveler dm = Ok (rows, false) ∧ leveled dm rows ∧ acyclic dm).
Proof.
  destruct (init_spec dm) as (ts & E & Hr & Hp & Hf & Hn & Hs & Hk & Hnd).
  pose proof (init_closed _ _ E) as Hclosed.
  unfold leveler. rewrite E, bind_Ok.
  destruct (prepare_spec dm ts E) as [(c & -> & x & Hx)|(ready & F & -> & Hinv & Hnone & HF & HkF)].
  - left. exists c. split; [done|]. exists x. by apply (tc_edge_depends _ x x Hs).
  - right. rewrite bind_Ok. cbn [graphlib._node2info].
    destruct (level_loop_spec (S (length (graphlib._node2info ts)))
                {| graphlib._node2info := graphlib._node2info ts;
                   graphlib._ready_nodes := Some ready;
                   graphlib._npassedout := 0; graphlib._nfinished := 0 |}
                0 [] ready) as (rows & Hrows & Hlev); try done.
    + intros D (n & Hn0 & HDn).
      destruct (finishing_order_first (graphlib._node2info ts) F
                  (λ x, D x || negb (bool_decide (x ∈ graph_nodes dm))) HF)
        as (m & HmF & HDm & Hpreds).
      { exists n. split; [by apply HkF, Hk|].
        rewrite HDn, bool_decide_true by done. done. }
      apply orb_false_iff in HDm as [HDm Hm%negb_false_iff%bool_decide_eq_true].
      exists m. split_and!; [done..|].
      intros p Hpm. pose proof (graph_preds_nodes _ _ _ Hpm) as [_ Hpn].
      specialize (Hpreds p). rewrite (bool_decide_true _ Hpn) in Hpreds.
      rewrite orb_false_r in Hpreds. apply Hpreds; [by apply HkF, Hk|].
      unfold edge. by rewrite Hs, elem_of_graph_succs.
    + split_and!.
      * split_and!.
        -- intros n. simpl. rewrite elem_of_nil. split; [|done]. apply Hnone.
        -- apply NoDup_nil_2.
        -- by intros r ?%elem_of_nil.
        -- by intros r p ?%elem_of_nil.
        -- by intros r ?%elem_of_nil.
        -- constructor.
      * by intros r ?%elem_of_nil.
      * intros n Hin. left. split; [done|].
        destruct Hinv as (_ & _ & _ & Hready & _). apply Hready in Hin as [_ Hz].
        simpl in Hz. rewrite Hn in Hz. apply nil_length_inv. lia.
    + intros l Hl Hsub. simpl.
      cut (length l ≤ length (graphlib._node2info ts)); [lia|].
      rewrite <-(length_fmap fst). apply submseteq_length, NoDup_submseteq; [done|].
      intros x Hx. by apply Hk, Hsub.
    + exists rows. split_and!; [done..|].
      intros x Hx. apply (tc_edge_depends _ x x Hs) in Hx.
      eapply finishing_order_acyclic; [done| |done].
      apply HkF. inversion Hx as [? ? Hstep|? ? ? Hstep _]; subst;
        by apply Hclosed in Hstep as [? _].
Qed.

End leveler.

(** ** What a leveled table says *)

Section leveled_facts.
Variable dependency_map : Dict.t PySet.t.
Hypothesis Hkeys : NoDup (Dict.keys dependency_map).
Local Abbreviation dm := dependency_map.
Implicit Types (n d : string) (rows : list row).

Lemma depends_deps_of n d : depends dm n d ↔ d ∈ deps_of dm n.
Proof. unfold depends, deps_of. by rewrite graph_preds_get. Qed.

Lemma graph_nodes_spec n :
  n ∈ graph_nodes dm ↔ n ∈ Dict.keys dm ∨ ∃ P, n ∈ deps_of dm P.
Proof.
  unfold graph_nodes. rewrite list_elem_of_bind. split.
  - intros ([k ps] & Hn & Hin). apply elem_of_cons in Hn as [->|Hn].
    + left. apply list_elem_of_fmap. by exists (k, ps).
    + right. exists k. unfold deps_of. by rewrite (elem_of_get _ _ _ Hkeys Hin).
  - intros [Hn|[P Hn]].
    + apply get_is_Some in Hn as [ps Hps]. exists (n, ps).
      split; [left|by apply get_Some_elem_of].
    + unfold deps_of in Hn. destruct (Dict.get dm P) as [ps|] eqn:E;
        [|by apply elem_of_nil in Hn].
      exists (P, ps). split; [by right|by apply get_Some_elem_of].
Qed.

Lemma has_row_unique rows l l' n :
  NoDup (Resource <$> rows) → has_row rows l n → has_row rows l' n → l = l'.
Proof.
  intros Hnd (r & Hr & <- & <-) (r' & Hr' & <- & Heq).
  induction rows as [|r0 rows IH]; [by apply elem_of_nil in Hr|].
  rewrite fmap_cons in Hnd. apply NoDup_cons in Hnd as [Hr0 Hnd].
  apply elem_of_cons in Hr as [->|Hr], Hr' as [->|Hr']; auto.
  - destruct Hr0. rewrite <-Heq. by apply list_elem_of_fmap_2.
  - destruct Hr0. rewrite Heq. by apply list_elem_of_fmap_2.
Qed.

(** The level of a node is the length of the longest chain of
    dependencies that starts at it. *)
Lemma leveled_chain rows :
  leveled dm rows →
  ∀ l n, has_row rows l n → chain dm n l ∧ ∀ k, chain dm n k → k ≤ l.
Proof.
  intros (R1 & R2 & R3 & R4 & R5 & R6). intros l n H. split.
  - revert n H. induction l as [l IH] using lt_wf_ind. intros n (r & Hr & <- & <-).
    destruct (R5 r Hr) as [[-> _]|(p & l' & Hp & Hrow & Heq)]; [constructor|].
    rewrite Heq. econstructor; [done|]. apply IH; [lia|done].
  - intros k Hc. revert l H. induction Hc as [n|n d k Hd Hc IH]; intros l H; [lia|].
    destruct H as (r & Hr & <- & <-).
    destruct (R4 r d Hr Hd) as (l' & Hrow & Hlt).
    specialize (IH l' Hrow). lia.
Qed.

Lemma leveled_min rows l n :
  leveled dm rows → has_row rows l n →
  (∀ d, d ∈ deps_of dm n → ∃ l', has_row rows l' d ∧ l' < l)
  ∧ (∀ l0, (∀ d, d ∈ deps_of dm n → ∃ l', has_row rows l' d ∧ l' < l0) → l ≤ l0)
  ∧ (deps_of dm n = [] → l = 0).
Proof.
  intros (R1 & R2 & R3 & R4 & R5 & R6) (r & Hr & <- & <-).
  assert (tight dm rows (Level r) (Resource r)) as Ht by auto.
  split_and!.
  - intros d Hd. apply (R4 r d Hr). by apply depends_deps_of.
  - intros l0 Hl0. destruct Ht as [[-> _]|(p & l' & Hp & Hrow & ->)]; [lia|].
    destruct (Hl0 p) as (l'' & Hrow' & Hlt); [by apply depends_deps_of|].
    rewrite (has_row_unique rows l' l'' p R2 Hrow Hrow'). lia.
  - intros Hnil. destruct Ht as [[-> _]|(p & l' & Hp & _)]; [done|].
    apply depends_deps_of in Hp. rewrite Hnil in Hp. by apply elem_of_nil in Hp.
Qed.

End leveled_facts.

Lemma NoDup_keys_add_dependencies t2r R raw : ∀ dm : Dict.t PySet.t,
  NoDup (Dict.keys dm) → NoDup (Dict.keys (foldl (add_dependency t2r R) dm raw)).
Proof.
  induction raw as [|dep raw IH]; intros dm Hdm; simpl; [done|].
  apply IH. unfold add_dependency.
  destruct (_ || _); [done|]. case_bool_decide; [|done]. by apply NoDup_keys_set.
Qed.

(** The dependency map [main] builds is a dictionary: its keys are distinct. *)
Lemma NoDup_keys_build file_data type_to_resource_map :
  NoDup (Dict.keys (build_dependency_map file_data type_to_resource_map)).
Proof.
  unfold build_dependency_map.
  assert (NoDup (Dict.keys ([] : Dict.t PySet.t))) as H by apply NoDup_nil_2.
  revert H. generalize ([] : Dict.t PySet.t).
  induction file_data as [|[R raw] fd IH]; intros dm Hdm; simpl; [done|].
  by apply IH, NoDup_keys_add_dependencies.
Qed.

Lemma tc_impl {A} (R R' : relation A) x y :
  (∀ a b, R a b → R' a b) → tc R x y → tc R' x y.
Proof.
  intros H Htc. induction Htc as [a b ?|a b c ? _ IH].
  - apply tc_once. auto.
  - eapply tc_l; eauto.
Qed.

Section same_graph.
Variables dm1 dm2 : Dict.t PySet.t.
Hypothesis Hk1 : NoDup (Dict.keys dm1).
Hypothesis Hk2 : NoDup (Dict.keys dm2).
Hypothesis Hsame : same_graph dm1 dm2.

Lemma same_graph_depends a b : depends dm1 a b → depends dm2 a b.
Proof.
  rewrite !depends_deps_of by done. destruct Hsame as [_ Hd]. by rewrite (Hd a).
Qed.

Lemma same_graph_chain n k : chain dm1 n k → chain dm2 n k.
Proof.
  induction 1 as [|n d k Hd _ IH]; [constructor|].
  econstructor; [|done]. by apply same_graph_depends.
Qed.

Lemma same_graph_nodes n : n ∈ graph_nodes dm1 → n ∈ graph_nodes dm2.
Proof.
  rewrite !graph_nodes_spec by done. destruct Hsame as [Hk Hd].
  intros [Hn|[P Hn]]; [left; by rewrite <-Hk|right].
  exists P. by rewrite <-(Hd P).
Qed.

Lemma same_graph_acyclic : acyclic dm1 → acyclic dm2.
Proof.
  intros H x Hx. apply (H x). revert Hx. apply tc_impl.
  intros a b. rewrite !depends_deps_of by done.
  destruct Hsame as [_ Hd]. by rewrite (Hd a).
Qed.

End same_graph.

Lemma same_graph_sym dm1 dm2 : same_graph dm1 dm2 → same_graph dm2 dm1.
Proof. intros [? ?]. split; [done|]. intros n. by symmetry. Qed.

(** Two leveled tables of the same graph have the same lines. *)
Lemma leveled_subset dm1 dm2 rows1 rows2 :
  NoDup (Dict.keys dm1) → NoDup (Dict.keys dm2) → same_graph dm1 dm2 →
  leveled dm1 rows1 → leveled dm2 rows2 →
  ∀ r, r ∈ rows1 → r ∈ rows2.
Proof.
  intros Hk1 Hk2 Hsame H1 H2 r Hr.
  pose proof (leveled_chain dm1 rows1 H1) as Hc1.
  pose proof (leveled_chain dm2 rows2 H2) as Hc2.
  destruct H1 as (R1 & _ & R3 & _). destruct H2 as (R1' & _ & R3' & _).
  assert (Resource r ∈ graph_nodes dm2) as Hn.
  { apply (same_graph_nodes dm1 dm2); try done. apply R1. by apply list_elem_of_fmap_2. }
  apply R1', list_elem_of_fmap in Hn as (r2 & Hres & Hr2).
  destruct (Hc1 (Level r) (Resource r)) as [Hch1 Hmax1]; [by exists r|].
  destruct (Hc2 (Level r2) (Resource r)) as [Hch2 Hmax2]; [by exists r2|].
  assert (Level r = Level r2) as Hlv.
  { apply Nat.le_antisymm.
    - apply Hmax2. by apply (same_graph_chain dm1 dm2).
    - apply Hmax1. apply (same_graph_chain dm2 dm1); try done. by apply same_graph_sym. }
  rewrite (R3 r Hr). rewrite (R3' r2 Hr2) in Hr2.
  rewrite <-Hres, <-Hlv in Hr2. unfold row_of in *.
  destruct Hsame as [_ Hd]. by rewrite (sorted_unique _ _ (Hd (Resource r))).
Qed.

#[local] Instance row_lt_antisymm : AntiSymm (=) row_lt.
Proof.
  intros r1 r2 [H1|[H1 [_ H1']]] [H2|[H2 [H2' _]]]; try lia. done.
Qed.

(** ** The tree builder on a graph without cycles *)

Section tree_termination.
Variable dependency_map : Dict.t PySet.t.
Hypothesis Hkeys : NoDup (Dict.keys dependency_map).
Local Abbreviation dm := dependency_map.


Lemma build_node_S fuel memo n :
  build_node (S fuel) dm memo n
  = match Dict.get memo n with
    | Some t => Ok (t, memo)
    | None =>
        match Str.sorted (deps_of dm n) with
        | [] => Ok (Node n None, Dict.set memo n (Node n None))
        | _ :: _ =>
            '(cs, memo') ← mapM_st (build_node fuel dm) memo
                             (Str.sorted (deps_of dm n));
            Ok (Node n (Some cs), Dict.set memo' n (Node n (Some cs)))
        end
    end.
Proof. reflexivity. Qed.






End tree_termination.


(** ** The claims about levels, cycles and termination *)

(** C2. On a graph without cycles the leveler gives every node one level;
    the level is above the levels of all the dependencies of the node and
    is the least such number: 0 for a node without dependencies, and in
    general the length of the longest chain of dependencies that starts at
    the node. *)
Theorem levels_are_tight (dependency_map : Dict.t PySet.t) :
  NoDup (Dict.keys dependency_map) → acyclic dependency_map →
  ∃ rows, leveler dependency_map = Ok (rows, false)
    ∧ (∀ n, n ∈ Dict.keys dependency_map ∨ (∃ P, n ∈ deps_of dependency_map P) →
            ∃ l, has_row rows l n)
    ∧ (∀ n l l', has_row rows l n → has_row rows l' n → l = l')
    ∧ ∀ n l, has_row rows l n →
        (∀ d, d ∈ deps_of dependency_map n → ∃ l', has_row rows l' d ∧ l' < l)
        ∧ (∀ l0, (∀ d, d ∈ deps_of dependency_map n → ∃ l', has_row rows l' d ∧ l' < l0) →
                 l ≤ l0)
        ∧ (deps_of dependency_map n = [] → l = 0)
        ∧ chain dependency_map n l
        ∧ (∀ k, chain dependency_map n k → k ≤ l).
Proof.
  intros Hkeys Hacyc.
  destruct (leveler_spec dependency_map) as [(c & _ & x & Hx)|(rows & E & Hlev & _)].
  { by destruct (Hacyc x). }
  exists rows. split; [done|]. split_and!.
  - intros n Hn%graph_nodes_spec; [|done].
    destruct Hlev as (R1 & _). apply R1, list_elem_of_fmap in Hn as (r & -> & Hr).
    exists (Level r), r. auto.
  - intros n l l'. apply has_row_unique. by destruct Hlev as (_ & ? & _).
  - intros n l Hrow.
    destruct (leveled_min dependency_map Hkeys rows l n Hlev Hrow) as (? & ? & ?).
    destruct (leveled_chain dependency_map rows Hlev l n Hrow) as (? & ?).
    auto.
Qed.

Lemma levels_are_tight_witness :
  ∃ rows, leveler [("Aa", ["Bb"; "Cc"]); ("Bb", ["Cc"])] = Ok (rows, false)
    ∧ rows = [ {| Level := 0; Resource := "Cc"; Dependencies := "" |};
               {| Level := 1; Resource := "Bb"; Dependencies := "Cc" |};
               {| Level := 2; Resource := "Aa"; Dependencies := "Bb, Cc" |} ]
    ∧ chain [("Aa", ["Bb"; "Cc"]); ("Bb", ["Cc"])] "Aa" 2.
Proof.
  assert (NoDup (Dict.keys [("Aa", ["Bb"; "Cc"]); ("Bb", ["Cc"])])) as Hk.
  { apply (proj1 (bool_decide_eq_true _)). vm_compute. reflexivity. }
  assert (acyclic [("Aa", ["Bb"; "Cc"]); ("Bb", ["Cc"])]) as Hac.
  { destruct (leveler_spec [("Aa", ["Bb"; "Cc"]); ("Bb", ["Cc"])])
      as [(c & E & _)|(rows & _ & _ & Hac)]; [|done].
    vm_compute in E. discriminate E. }
  destruct (levels_are_tight [("Aa", ["Bb"; "Cc"]); ("Bb", ["Cc"])] Hk Hac)
    as (rows & E & _ & _ & Hrows).
  exists rows. split; [done|].
  assert (rows = [ {| Level := 0; Resource := "Cc"; Dependencies := "" |};
                   {| Level := 1; Resource := "Bb"; Dependencies := "Cc" |};
                   {| Level := 2; Resource := "Aa"; Dependencies := "Bb, Cc" |} ]) as ->.
  { vm_compute in E. by injection E as <-. }
  split; [done|].
  apply (Hrows "Aa" 2).
  exists {| Level := 2; Resource := "Aa"; Dependencies := "Bb, Cc" |}.
  split; [|done]. apply elem_of_cons; right. apply elem_of_cons; right.
  apply elem_of_cons; left; done.
Defined.

(** C3. What the code does where the cycle report of lines 84-86 is
    expected. On every dependency map with a cycle [prepare] (line 75)
    raises [CycleError], which nothing catches, before the table is opened;
    and the leveler never ends in the branch that prints the cycle message,
    whatever the map. So nothing is kept of the levels that do not depend
    on the cycle: with [Aa] and [Bb] referring to each other and [Cc]
    referring to [Dd], [main] ends in the exception, although the file of
    [Cc] alone gives [Dd] level 0 and [Cc] level 1. With the one-letter
    names [A] and [B] no name is extracted at all, and nothing is reported. *)
Theorem cycle_error_precedes_leveling :
  (∀ dependency_map : Dict.t PySet.t,
     (∃ x, tc (depends dependency_map) x x) →
     ∃ c, leveler dependency_map = Raise (CycleError c))
  ∧ (∀ (dependency_map : Dict.t PySet.t) rows, leveler dependency_map ≠ Ok (rows, true))
  ∧ (∀ fuel, main fuel [("a.graphql", "type Aa { b: Bb }");
                        ("b.graphql", "type Bb { a: Aa }");
                        ("c.graphql", "type Cc { d: Dd }")]
             = Raise (CycleError ["Aa"; "Bb"; "Aa"]))
  ∧ main 2 [("c.graphql", "type Cc { d: Dd }")]
    = Ok {| csv_rows := [ {| Level := 0; Resource := "Dd"; Dependencies := "" |};
                          {| Level := 1; Resource := "Cc"; Dependencies := "Dd" |} ];
            cycle_message := false;
            json_tree := [Node "Cc" (Some [Node "Dd" None])] |}
  ∧ ∀ fuel, main fuel [("a.graphql", "type A { b: B }"); ("b.graphql", "type B { a: A }")]
            = Ok {| csv_rows := []; cycle_message := false; json_tree := [] |}.
Proof.
  split_and!.
  - intros dm [x Hx].
    destruct (leveler_spec dm) as [(c & E & _)|(rows & _ & _ & Hac)]; [eauto|].
    by destruct (Hac x).
  - intros dm rows E.
    destruct (leveler_spec dm) as [(c & E' & _)|(rows' & E' & _)]; congruence.
  - intros fuel. vm_compute. reflexivity.
  - vm_compute. reflexivity.
  - intros fuel. vm_compute. reflexivity.
Qed.

(** C4, as the program has it. On a graph without cycles the table has
    one row for every node the graph names, as a key or as a dependency,
    and for no other name; a dependency that is not a key gets level 0 and
    an empty dependency list. *)
Theorem named_nodes_are_leveled (dependency_map : Dict.t PySet.t) :
  NoDup (Dict.keys dependency_map) → acyclic dependency_map →
  ∃ rows, leveler dependency_map = Ok (rows, false)
    ∧ (∀ n, n ∈ Resource <$> rows
            ↔ n ∈ Dict.keys dependency_map ∨ ∃ P, n ∈ deps_of dependency_map P)
    ∧ NoDup (Resource <$> rows)
    ∧ ∀ n, n ∉ Dict.keys dependency_map → (∃ P, n ∈ deps_of dependency_map P) →
           {| Level := 0; Resource := n; Dependencies := "" |} ∈ rows.
Proof.
  intros Hkeys Hacyc.
  destruct (leveler_spec dependency_map) as [(c & _ & x & Hx)|(rows & E & Hlev & _)].
  { by destruct (Hacyc x). }
  exists rows. split; [done|].
  pose proof Hlev as (R1 & R2 & R3 & _). split_and!; [|done|].
  - intros n. rewrite <-R1. by apply graph_nodes_spec.
  - intros n Hn HP.
    assert (n ∈ graph_nodes dependency_map) as Hin by (apply graph_nodes_spec; auto).
    apply R1, list_elem_of_fmap in Hin as (r & -> & Hr).
    assert (deps_of dependency_map (Resource r) = []) as Hnil.
    { unfold deps_of. by apply get_None in Hn as ->. }
    destruct (leveled_min dependency_map Hkeys rows (Level r) (Resource r) Hlev)
      as (_ & _ & H0); [by exists r|].
    rewrite (R3 r Hr) in Hr. unfold row_of in Hr.
    rewrite (H0 Hnil), Hnil in Hr. exact Hr.
Qed.

Lemma named_nodes_are_leveled_witness :
  ∃ rows, leveler [("Aa", ["Bb"])] = Ok (rows, false)
          ∧ {| Level := 0; Resource := "Bb"; Dependencies := "" |} ∈ rows.
Proof.
  assert (NoDup (Dict.keys [("Aa", ["Bb"])])) as Hk.
  { apply (proj1 (bool_decide_eq_true _)). vm_compute. reflexivity. }
  assert (acyclic [("Aa", ["Bb"])]) as Hac.
  { destruct (leveler_spec [("Aa", ["Bb"])]) as [(c & E & _)|(rows & _ & _ & Hac)]; [|done].
    vm_compute in E. discriminate E. }
  destruct (named_nodes_are_leveled [("Aa", ["Bb"])] Hk Hac) as (rows & E & _ & _ & H0).
  exists rows. split; [done|]. apply H0.
  - apply (proj1 (bool_decide_eq_true _)). vm_compute. reflexivity.
  - exists "Aa". apply (proj1 (bool_decide_eq_true _)). vm_compute. reflexivity.
Defined.

(** C4, as stated, fails: [Cc] is a resource of the corpus and nothing it
    depends on is blocked, yet the table has no row for it, because all its
    references are scalars and no other resource refers to it. [Bb] is in
    the same position except that [Aa] refers to it, and it does get level 0. *)
Lemma isolated_resource_has_no_row :
  Dict.keys (read_files [("a.graphql", "type Aa { b: Bb }");
                         ("b.graphql", "type Bb { x: ID }");
                         ("c.graphql", "type Cc { y: String }")]).1 = ["Aa"; "Bb"; "Cc"]
  ∧ main 2 [("a.graphql", "type Aa { b: Bb }");
            ("b.graphql", "type Bb { x: ID }");
            ("c.graphql", "type Cc { y: String }")]
    = Ok {| csv_rows := [ {| Level := 0; Resource := "Bb"; Dependencies := "" |};
                          {| Level := 1; Resource := "Aa"; Dependencies := "Bb" |} ];
            cycle_message := false;
            json_tree := [Node "Aa" (Some [Node "Bb" None])] |}.
Proof. split; vm_compute; reflexivity. Qed.




(** C7. On a graph without cycles the table does not depend on the order
    in which the dictionary yields its keys or the sets their elements: two
    dictionaries holding the same graph give the same rows in the same
    order, sorted by level and, within a level, by name. *)
Theorem leveling_is_deterministic (dm1 dm2 : Dict.t PySet.t) :
  NoDup (Dict.keys dm1) → NoDup (Dict.keys dm2) → same_graph dm1 dm2 → acyclic dm1 →
  ∃ rows, leveler dm1 = Ok (rows, false) ∧ leveler dm2 = Ok (rows, false)
          ∧ StronglySorted row_lt rows.
Proof.
  intros Hk1 Hk2 Hsame Hac1.
  pose proof (same_graph_acyclic dm1 dm2 Hk1 Hk2 Hsame Hac1) as Hac2.
  destruct (leveler_spec dm1) as [(c & _ & x & Hx)|(rows1 & E1 & Hlev1 & _)].
  { by destruct (Hac1 x). }
  destruct (leveler_spec dm2) as [(c & _ & x & Hx)|(rows2 & E2 & Hlev2 & _)].
  { by destruct (Hac2 x). }
  assert (rows1 = rows2) as <-.
  { apply (StronglySorted_unique row_lt).
    - by destruct Hlev1 as (_ & _ & _ & _ & _ & ?).
    - by destruct Hlev2 as (_ & _ & _ & _ & _ & ?).
    - apply NoDup_Permutation.
      + destruct Hlev1 as (_ & ? & _). by eapply NoDup_fmap_1.
      + destruct Hlev2 as (_ & ? & _). by eapply NoDup_fmap_1.
      + intros r. split.
        * by apply (leveled_subset dm1 dm2).
        * apply (leveled_subset dm2 dm1); try done. by apply same_graph_sym. }
  exists rows1. split_and!; [done..|]. by destruct Hlev1 as (_ & _ & _ & _ & _ & ?).
Qed.

Lemma leveling_is_deterministic_witness :
  ∃ rows, leveler [("Aa", ["Bb"; "Cc"]); ("Dd", ["Cc"; "Aa"])] = Ok (rows, false)
          ∧ leveler [("Dd", ["Aa"; "Cc"]); ("Aa", ["Cc"; "Bb"])] = Ok (rows, false)
          ∧ StronglySorted row_lt rows.
Proof.
  apply leveling_is_deterministic.
  - apply (proj1 (bool_decide_eq_true _)). vm_compute. reflexivity.
  - apply (proj1 (bool_decide_eq_true _)). vm_compute. reflexivity.
  - split.
    + apply (proj1 (bool_decide_eq_true _)). vm_compute. reflexivity.
    + intros n. unfold deps_of. cbn [Dict.get].
      destruct (String.eqb_spec "Aa" n) as [<-|Ha]; [apply Permutation_swap|].
      destruct (String.eqb_spec "Dd" n) as [<-|Hd]; [apply Permutation_swap|done].
  - destruct (leveler_spec [("Aa", ["Bb"; "Cc"]); ("Dd", ["Cc"; "Aa"])])
      as [(c & E & _)|(rows & _ & _ & Hac)]; [|done].
    vm_compute in E. discriminate E.
Defined.

(** * Further properties *)

(** ** What the patterns capture *)

Section captures.

Lemma append_nil (b : string) : "" +:+ b = b.
Proof. reflexivity. Qed.

Lemma append_cons c (a b : string) : String c a +:+ b = String c (a +:+ b).
Proof. reflexivity. Qed.

Lemma length_append (a b : string) :
  String.length (a +:+ b) = String.length a + String.length b.
Proof.
  induction a as [|c a IH]; rewrite ?append_nil, ?append_cons; simpl; [done|].
  by rewrite IH.
Qed.

Lemma append_assoc (a b c : string) : (a +:+ b) +:+ c = a +:+ (b +:+ c).
Proof.
  induction a as [|x a IH]; rewrite ?append_nil, ?append_cons; [done|]. by rewrite IH.
Qed.

Lemma take_append (a b : string) :
  Str.take (String.length (a +:+ b) - String.length b) (a +:+ b) = a.
Proof.
  rewrite length_append. replace (_ + _ - _) with (String.length a) by lia.
  induction a as [|c a IH]; rewrite ?append_nil, ?append_cons; simpl;
    [by destruct b|]. by rewrite IH.
Qed.

Lemma all_chars_append p (a b : string) :
  all_chars p (a +:+ b) = all_chars p a && all_chars p b.
Proof.
  induction a as [|c a IH]; rewrite ?append_nil, ?append_cons; simpl; [done|].
  by rewrite IH, andb_assoc.
Qed.

Lemma occurs_append c (a b : string) : occurs c (a +:+ b) = occurs c a || occurs c b.
Proof.
  induction a as [|x a IH]; rewrite ?append_nil, ?append_cons; simpl; [done|].
  by rewrite IH, orb_assoc.
Qed.

Lemma strip_prefix_append p s s' : Str.strip_prefix p s = Some s' → s = p +:+ s'.
Proof.
  revert s; induction p as [|a p IH]; intros s; simpl.
  - by intros [= ->].
  - destruct s as [|b s]; [done|].
    destruct (Ascii.eqb_spec a b) as [->|]; [|done].
    intros H. by rewrite (IH _ H).
Qed.

(** What a repetition consumes is a run of what its body consumes. *)
Lemma star_greedy_prefix (P : string → Prop) step :
  P "" → (∀ a b, P a → P b → P (a +:+ b)) →
  (∀ s s', s' ∈ step s → ∃ pre, s = pre +:+ s' ∧ P pre) →
  ∀ n s s', s' ∈ Re.star_greedy step n s → ∃ pre, s = pre +:+ s' ∧ P pre.
Proof.
  intros P0 Papp Hstep. induction n as [|n IH]; intros s s'; simpl.
  - rewrite list_elem_of_singleton; intros ->. by exists "".
  - rewrite elem_of_app, list_elem_of_bind, list_elem_of_singleton.
    intros [(s1 & Hs' & Hs1)| ->]; [|by exists ""].
    apply list_elem_of_filter in Hs1 as [_ Hs1].
    destruct (Hstep _ _ Hs1) as (p1 & -> & ?). destruct (IH _ _ Hs') as (p2 & -> & ?).
    exists (p1 +:+ p2). by rewrite append_assoc; auto.
Qed.

Lemma star_lazy_prefix (P : string → Prop) step :
  P "" → (∀ a b, P a → P b → P (a +:+ b)) →
  (∀ s s', s' ∈ step s → ∃ pre, s = pre +:+ s' ∧ P pre) →
  ∀ n s s', s' ∈ Re.star_lazy step n s → ∃ pre, s = pre +:+ s' ∧ P pre.
Proof.
  intros P0 Papp Hstep. induction n as [|n IH]; intros s s'; simpl.
  - rewrite list_elem_of_singleton; intros ->. by exists "".
  - rewrite elem_of_cons, list_elem_of_bind.
    intros [->|(s1 & Hs' & Hs1)]; [by exists ""|].
    apply list_elem_of_filter in Hs1 as [_ Hs1].
    destruct (Hstep _ _ Hs1) as (p1 & -> & ?). destruct (IH _ _ Hs') as (p2 & -> & ?).
    exists (p1 +:+ p2). by rewrite append_assoc; auto.
Qed.

(** A match consumes a prefix of the input. *)
Lemma matches_prefix r : ∀ s s', s' ∈ Re.matches r s → ∃ pre, s = pre +:+ s'.
Proof.
  induction r as [l|p|r1 IH1 r2 IH2|r1 IH1 r2 IH2|r IH|r IH]; intros s s'; simpl.
  - destruct (Str.strip_prefix l s) as [s0|] eqn:E; [|by rewrite elem_of_nil].
    rewrite list_elem_of_singleton; intros ->. exists l. by apply strip_prefix_append.
  - destruct s as [|c s]; [by rewrite elem_of_nil|].
    destruct (p c); [|by rewrite elem_of_nil].
    rewrite list_elem_of_singleton; intros ->. by exists (String c "").
  - rewrite list_elem_of_bind. intros (s1 & H2 & H1).
    destruct (IH1 _ _ H1) as (p1 & ->). destruct (IH2 _ _ H2) as (p2 & ->).
    exists (p1 +:+ p2). by rewrite append_assoc.
  - rewrite elem_of_app. intros [H|H]; eauto.
  - intros H. destruct (star_greedy_prefix (λ _, True) (Re.matches r)) with
      (n := String.length s) (s := s) (s' := s') as (pre & ? & _); eauto.
    intros a b Hab. destruct (IH _ _ Hab) as (pre & ?). eauto.
  - intros H. destruct (star_lazy_prefix (λ _, True) (Re.matches r)) with
      (n := String.length s) (s := s) (s' := s') as (pre & ? & _); eauto.
    intros a b Hab. destruct (IH _ _ Hab) as (pre & ?). eauto.
Qed.

Lemma type_name_prefix s s' :
  s' ∈ Re.matches Re.type_name s → ∃ g, s = g +:+ s' ∧ is_type_name g = true.
Proof.
  unfold Re.type_name, Re.Plus, Re.ident. simpl Re.matches.
  rewrite list_elem_of_bind. intros (s1 & H2 & H1).
  destruct s as [|c s]; [by apply elem_of_nil in H1|].
  destruct (Str.is_upper c) eqn:Hc; [|by apply elem_of_nil in H1].
  apply list_elem_of_singleton in H1 as ->.
  apply list_elem_of_bind in H2 as (s2 & H3 & H2).
  destruct s as [|c' s]; [by apply elem_of_nil in H2|].
  destruct (Str.is_ident c') eqn:Hc'; [|by apply elem_of_nil in H2].
  apply list_elem_of_singleton in H2 as ->.
  destruct (star_greedy_prefix (λ a, all_chars Str.is_ident a = true)
              (Re.matches (Re.Class Str.is_ident))) with
    (n := String.length s) (s := s) (s' := s') as (pre & -> & Hpre); try done.
  - intros a b Ha Hb. by rewrite all_chars_append, Ha, Hb.
  - intros a b. simpl. destruct a as [|x a]; [by rewrite elem_of_nil|].
    destruct (Str.is_ident x) eqn:Hx; [|by rewrite elem_of_nil].
    rewrite list_elem_of_singleton; intros ->. exists (String x "").
    simpl. by rewrite Hx.
  - exists (String c (String c' pre)). split; [done|]. simpl. by rewrite Hc, Hc', Hpre.
Qed.

(** The parts of a successful match: what [pre], the group and [post]
    consumed, and what is left. *)
Lemma match_at_parts p s g rest :
  Re.match_at p s = Some (g, rest) →
  ∃ a b s2, s = a +:+ g +:+ b +:+ rest
            ∧ a +:+ g +:+ s2 = s ∧ s2 = b +:+ rest
            ∧ (g +:+ s2) ∈ Re.matches (Re.pre p) s
            ∧ s2 ∈ Re.matches (Re.grp p) (g +:+ s2)
            ∧ rest ∈ Re.matches (Re.post p) s2.
Proof.
  unfold Re.match_at. intros H. apply head_Some_elem_of in H.
  apply list_elem_of_bind in H as (s1 & H & H1).
  apply list_elem_of_bind in H as (s2 & H & H2).
  apply list_elem_of_bind in H as (s3 & H & H3).
  apply list_elem_of_singleton in H. injection H as Hg Hr. subst rest.
  destruct (matches_prefix _ _ _ H1) as (a & ->).
  destruct (matches_prefix _ _ _ H2) as (g' & Hs1). subst s1.
  destruct (matches_prefix _ _ _ H3) as (b & Hs2). subst s2.
  rewrite take_append in Hg. subst g.
  exists a, b, (b +:+ s3). split_and!; auto.
Qed.

Lemma match_at_type_name p s g rest :
  Re.grp p = Re.type_name → Re.match_at p s = Some (g, rest) → is_type_name g = true.
Proof.
  intros Hp H. destruct (match_at_parts _ _ _ _ H) as (a & b & s2 & _ & _ & _ & _ & Hg & _).
  rewrite Hp in Hg. destruct (type_name_prefix _ _ Hg) as (g' & Heq & Hg').
  by rewrite <-(take_append g s2), Heq, take_append.
Qed.

Lemma search_match_at p s g :
  Re.search p s = Some g → ∃ a s' rest, s = a +:+ s' ∧ Re.match_at p s' = Some (g, rest).
Proof.
  induction s as [|c s IH]; simpl.
  - destruct (Re.match_at p "") as [[g' r]|] eqn:E; [|done].
    intros [= ->]. by exists "", "", r.
  - destruct (Re.match_at p (String c s)) as [[g' r]|] eqn:E.
    + intros [= ->]. by exists "", (String c s), r.
    + intros H. destruct (IH H) as (a & s' & r & -> & ?). by exists (String c a), s', r.
Qed.

Lemma findall_match_at p n : ∀ s g,
  g ∈ Re.findall_from p n s →
  ∃ a s' rest, s = a +:+ s' ∧ Re.match_at p s' = Some (g, rest).
Proof.
  induction n as [|n IH]; intros s g; simpl; [by rewrite elem_of_nil|].
  destruct (Re.match_at p s) as [[g' r]|] eqn:E.
  - rewrite elem_of_cons. intros [->|H]; [by exists "", s, r|].
    destruct (IH _ _ H) as (a & s' & r' & -> & ?).
    destruct (match_at_parts _ _ _ _ E) as (a0 & b0 & _ & -> & _).
    exists (a0 +:+ g' +:+ b0 +:+ a), s', r'. split; [|done].
    by rewrite !append_assoc.
  - destruct s as [|c s]; [by rewrite elem_of_nil|].
    intros H. destruct (IH _ _ H) as (a & s' & r' & -> & ?). by exists (String c a), s', r'.
Qed.

End captures.

(** X1. Whatever the text, every name the extractor returns is a
    capitalized identifier: an upper-case ASCII letter followed by letters,
    digits and underscores. *)
Theorem extracted_names_are_identifiers (content : string) :
  (∀ t, t ∈ get_defined_types content → is_type_name t = true)
  ∧ (∀ t, declared_resource_name content = Some t → is_type_name t = true)
  ∧ (∀ t, t ∈ get_dependencies_from_content content → is_type_name t = true).
Proof.
  split_and!.
  - intros t (a & s' & r & _ & H)%findall_match_at. refine (match_at_type_name _ _ _ _ _ H); reflexivity.
  - intros t. unfold declared_resource_name; simpl.
    destruct (Re.search (implements_pattern "IDomainResource") content) eqn:E1.
    { intros [= ->]. apply search_match_at in E1 as (a & s' & r & _ & H).
      refine (match_at_type_name _ _ _ _ _ H); reflexivity. }
    destruct (Re.search (implements_pattern "IResource") content) eqn:E2.
    { intros [= ->]. apply search_match_at in E2 as (a & s' & r & _ & H).
      refine (match_at_type_name _ _ _ _ _ H); reflexivity. }
    intros (a & s' & r & _ & H)%search_match_at. refine (match_at_type_name _ _ _ _ _ H); reflexivity.
  - intros t. rewrite elem_of_get_dependencies. unfold field_types_of_content.
    rewrite list_elem_of_bind. intros (body & (a & s' & r & _ & H)%findall_match_at & _).
    refine (match_at_type_name _ _ _ _ _ H); reflexivity.
Qed.

Lemma extracted_names_are_identifiers_witness :
  is_type_name "Patient_Contact" = true.
Proof.
  apply (proj1 (extracted_names_are_identifiers
                  "type Patient { c: Patient_Contact } type Patient_Contact { x: ID }")).
  vm_compute. right. left.
Defined.

Section body_blocks.

Lemma matches_Cat r1 r2 s s' :
  s' ∈ Re.matches (Re.Cat r1 r2) s ↔ ∃ s1, s1 ∈ Re.matches r1 s ∧ s' ∈ Re.matches r2 s1.
Proof.
  change (Re.matches (Re.Cat r1 r2) s) with (s1 ← Re.matches r1 s; Re.matches r2 s1).
  rewrite list_elem_of_bind. naive_solver.
Qed.

Lemma matches_Lit l s s' : s' ∈ Re.matches (Re.Lit l) s → s = l +:+ s'.
Proof.
  simpl. destruct (Str.strip_prefix l s) as [s0|] eqn:E; [|by rewrite elem_of_nil].
  rewrite list_elem_of_singleton; intros ->. by apply strip_prefix_append.
Qed.

(** A match of [r] followed by the literal [l] has consumed [l]. *)
Lemma matches_Cat_Lit r l s s' :
  s' ∈ Re.matches (Re.Cat r (Re.Lit l)) s → ∃ a, s = a +:+ l +:+ s'.
Proof.
  rewrite matches_Cat. intros (s1 & H1 & H2).
  destruct (matches_prefix _ _ _ H1) as (a & ->).
  apply matches_Lit in H2 as ->. eauto.
Qed.

Lemma occurs_append_r c (a b : string) : occurs c b = true → occurs c (a +:+ b) = true.
Proof. intros H. by rewrite occurs_append, H, orb_true_r. Qed.

Lemma occurs_append_l c (a b : string) : occurs c a = true → occurs c (a +:+ b) = true.
Proof. intros H. by rewrite occurs_append, H. Qed.

Lemma occurs_head c (b : string) : occurs c (String c "" +:+ b) = true.
Proof. rewrite append_cons. simpl. by rewrite Ascii.eqb_refl. Qed.

(** A type body is found only where the text has an opening and a closing
    brace. *)
Lemma type_body_braces s g rest :
  Re.match_at type_body_pattern s = Some (g, rest) →
  occurs "{"%char s = true ∧ occurs "}"%char s = true
  ∧ ∃ a b, s = a +:+ g +:+ b.
Proof.
  intros H. destruct (match_at_parts _ _ _ _ H) as (a & b & s2 & Hs & Hs' & Hs2 & Hpre & _ & Hpost).
  split_and!.
  - unfold type_body_pattern in Hpre. cbn [Re.pre] in Hpre.
    apply matches_Cat in Hpre as (s1 & H1 & Hpre).
    apply matches_Cat in Hpre as (s3 & H3 & Hpre).
    apply matches_Cat in Hpre as (s4 & H4 & Hpre).
    apply matches_Cat in Hpre as (s5 & H5 & Hpre).
    apply matches_Cat in Hpre as (s6 & H6 & Hpre).
    apply matches_Cat_Lit in Hpre as (a7 & ->).
    destruct (matches_prefix _ _ _ H6) as (a6 & ->).
    destruct (matches_prefix _ _ _ H5) as (a5 & ->).
    destruct (matches_prefix _ _ _ H4) as (a4 & ->).
    destruct (matches_prefix _ _ _ H3) as (a3 & ->).
    destruct (matches_prefix _ _ _ H1) as (a1 & ->).
    do 6 apply occurs_append_r. apply occurs_head.
  - cbn [type_body_pattern Re.post] in Hpost. apply matches_Lit in Hpost.
    rewrite <-Hs', Hpost. do 2 apply occurs_append_r. apply occurs_head.
  - exists a, (b +:+ rest). by rewrite Hs.
Qed.

Lemma field_type_colon s g rest :
  Re.match_at field_type_pattern s = Some (g, rest) → occurs ":"%char s = true.
Proof.
  intros H. destruct (match_at_parts _ _ _ _ H) as (a & b & s2 & _ & _ & _ & Hpre & _).
  unfold field_type_pattern in Hpre. cbn [Re.pre] in Hpre.
  apply matches_Cat in Hpre as (s1 & H1 & _). apply matches_Lit in H1 as ->.
  apply occurs_head.
Qed.

Lemma field_type_needs content t :
  t ∈ field_types_of_content content →
  occurs "{"%char content = true ∧ occurs "}"%char content = true
  ∧ occurs ":"%char content = true.
Proof.
  unfold field_types_of_content. rewrite list_elem_of_bind.
  intros (body & Ht & Hbody).
  apply findall_match_at in Hbody as (a & s' & r & -> & Hm).
  apply findall_match_at in Ht as (a' & s'' & r' & -> & Hm').
  apply type_body_braces in Hm as (Ho & Hc & a1 & b1 & Hs').
  apply field_type_colon in Hm'.
  split_and!; [by apply occurs_append_r..|].
  apply occurs_append_r. rewrite Hs'.
  apply occurs_append_r, occurs_append_l. by apply occurs_append_r.
Qed.

End body_blocks.

(** X2. References are read only from closed brace blocks and only after a
    colon: a text that lacks an opening brace, a closing brace or a colon
    yields no reference at all. *)
Theorem references_need_a_closed_body (content : string) :
  occurs "{"%char content = false ∨ occurs "}"%char content = false
  ∨ occurs ":"%char content = false →
  get_dependencies_from_content content = [].
Proof.
  intros Hmiss.
  assert (field_types_of_content content = []) as Hnil.
  { apply elem_of_nil_inv. intros t Ht.
    apply field_type_needs in Ht as (Ho & Hc & Hk).
    destruct Hmiss as [H|[H|H]]; congruence. }
  unfold get_dependencies_from_content. by rewrite Hnil.
Qed.

Lemma references_need_a_closed_body_witness :
  get_dependencies_from_content "type Patient { name: HumanName" = [].
Proof.
  apply references_need_a_closed_body. right; left. vm_compute. reflexivity.
Defined.

(** ** The pass over the files (lines 46-59) *)

Section file_pass.
Implicit Types (listing files : list (string * string)).
Implicit Types (st : Dict.t PySet.t * Dict.t string).

Lemma get_foldl_set {V} (ts : list string) (v : V) (m : Dict.t V) k :
  Dict.get (foldl (λ m t, Dict.set m t v) m ts) k
  = if decide (k ∈ ts) then Some v else Dict.get m k.
Proof.
  revert m. induction ts as [|t ts IH]; intros m; cbn [foldl].
  - by rewrite decide_False by apply not_elem_of_nil.
  - rewrite IH, get_set.
    destruct (decide (k ∈ ts)) as [Hin|Hin], (decide (k ∈ t :: ts)) as [Hin'|Hin'];
      try done.
    + destruct Hin'. by right.
    + apply elem_of_cons in Hin' as [->|?]; [by rewrite decide_True|done].
    + rewrite decide_False; [done|]. intros ->. apply Hin'. left.
Qed.

Lemma keys_foldl_set {V} (ts : list string) (v : V) (m : Dict.t V) x :
  x ∈ Dict.keys (foldl (λ m t, Dict.set m t v) m ts) ↔ x ∈ Dict.keys m ∨ x ∈ ts.
Proof.
  rewrite <-!get_is_Some, get_foldl_set. case_decide; split; eauto.
  intros [?|?]; [done|tauto].
Qed.

Lemma read_file_fst st f c :
  (read_file st (f, c)).1
  = Dict.set st.1 (get_main_resource_name c f) (get_dependencies_from_content c).
Proof. by destruct st. Qed.

Lemma read_file_snd st f c :
  (read_file st (f, c)).2
  = foldl (λ m t, Dict.set m t (get_main_resource_name c f)) st.2 (get_defined_types c).
Proof. by destruct st. Qed.

Lemma graphql_files_app l1 l2 :
  graphql_files (l1 ++ l2) = graphql_files l1 ++ graphql_files l2.
Proof. apply filter_app. Qed.

Lemma graphql_files_cons f c l :
  graphql_files ((f, c) :: l)
  = if is_graphql f then (f, c) :: graphql_files l else graphql_files l.
Proof.
  unfold graphql_files. rewrite filter_cons. simpl.
  destruct (is_graphql f); by case_decide.
Qed.

Lemma elem_of_graphql_files listing f c :
  (f, c) ∈ graphql_files listing ↔ (f, c) ∈ listing ∧ is_graphql f = true.
Proof. unfold graphql_files. rewrite list_elem_of_filter. simpl. tauto. Qed.

(** Later files leave an entry alone unless they write it. *)
Lemma owner_untouched files : ∀ st t,
  (∀ f c, (f, c) ∈ files → t ∉ get_defined_types c) →
  Dict.get (foldl read_file st files).2 t = Dict.get st.2 t.
Proof.
  induction files as [|[f c] files IH]; intros st t Hno; simpl; [done|].
  rewrite IH by (intros f' c' ?; apply (Hno f' c'); by right).
  rewrite read_file_snd, get_foldl_set, decide_False; [done|]. apply (Hno f c). left.
Qed.

Lemma raw_deps_untouched files : ∀ st R,
  (∀ f c, (f, c) ∈ files → get_main_resource_name c f ≠ R) →
  Dict.get (foldl read_file st files).1 R = Dict.get st.1 R.
Proof.
  induction files as [|[f c] files IH]; intros st R Hno; simpl; [done|].
  rewrite IH by (intros f' c' ?; apply (Hno f' c'); by right).
  rewrite read_file_fst, get_set, decide_False; [done|]. apply (Hno f c). left.
Qed.

Lemma read_files_invariant files : ∀ st,
  NoDup (Dict.keys st.1) →
  (∀ t R, Dict.get st.2 t = Some R → R ∈ Dict.keys st.1) →
  NoDup (Dict.keys (foldl read_file st files).1)
  ∧ (∀ R, R ∈ Dict.keys (foldl read_file st files).1
          ↔ R ∈ Dict.keys st.1
            ∨ ∃ f c, (f, c) ∈ files ∧ get_main_resource_name c f = R)
  ∧ (∀ t R, Dict.get (foldl read_file st files).2 t = Some R →
            R ∈ Dict.keys (foldl read_file st files).1)
  ∧ (∀ t R, Dict.get (foldl read_file st files).2 t = Some R →
            Dict.get st.2 t = Some R
            ∨ ∃ f c, (f, c) ∈ files ∧ t ∈ get_defined_types c
                     ∧ get_main_resource_name c f = R)
  ∧ (∀ t, Dict.get (foldl read_file st files).2 t = None →
          Dict.get st.2 t = None
          ∧ ∀ f c, (f, c) ∈ files → t ∉ get_defined_types c).
Proof.
  induction files as [|[f c] files IH]; intros st Hnd Hown; simpl.
  - split_and!.
    + done.
    + intros R. split; [auto|]. intros [?|(f & c & Hin & _)]; [done|].
      by apply elem_of_nil in Hin.
    + done.
    + auto.
    + intros t Ht. split; [done|]. intros f c Hin. by apply elem_of_nil in Hin.
  - destruct (IH (read_file st (f, c))) as (H1 & H2 & H3 & H4 & H5).
    { rewrite read_file_fst. by apply NoDup_keys_set. }
    { intros t R. rewrite read_file_snd, read_file_fst, get_foldl_set.
      rewrite <-get_is_Some, get_set. case_decide.
      - intros [= <-]. rewrite decide_True by done. eauto.
      - intros Ht. case_decide; [eauto|]. apply get_is_Some. eauto. }
    split_and!; [done| |done| |].
    + intros R. rewrite H2, read_file_fst, <-get_is_Some, get_set.
      setoid_rewrite elem_of_cons. split.
      * intros [Hk|(f' & c' & ? & ?)]; [|right; eauto 6].
        case_decide; [right; exists f, c; auto|left; by apply get_is_Some].
      * intros [Hk|(f' & c' & [[= -> ->]|?] & ?)]; [| |right; eauto].
        -- left. case_decide; [eauto|by apply get_is_Some].
        -- left. rewrite decide_True by done. eauto.
    + intros t R Ht. setoid_rewrite elem_of_cons.
      destruct (H4 t R Ht) as [Hg|(f' & c' & ? & ? & ?)]; [|right; eauto 8].
      rewrite read_file_snd, get_foldl_set in Hg. case_decide; [|by left].
      injection Hg as <-. right. exists f, c. auto.
    + intros t Ht. destruct (H5 t Ht) as [Hg Hno].
      rewrite read_file_snd, get_foldl_set in Hg. case_decide; [done|].
      split; [done|]. intros f' c' [[= -> ->]|?]%elem_of_cons; eauto.
Qed.

End file_pass.

(** X3. [file_data] has one entry per resource: its keys are distinct and
    are exactly the main resource names of the [.graphql] files; every
    other file of the directory is ignored. *)
Theorem file_data_keys_are_the_resources (listing : list (string * string)) (R : string) :
  NoDup (Dict.keys (read_files listing).1)
  ∧ (R ∈ Dict.keys (read_files listing).1
     ↔ ∃ f c, (f, c) ∈ listing ∧ is_graphql f = true ∧ get_main_resource_name c f = R).
Proof.
  destruct (read_files_invariant (graphql_files listing) ([], []))
    as (H1 & H2 & _); [apply NoDup_nil_2|done|].
  split; [done|]. unfold read_files. fold (graphql_files listing). rewrite H2.
  setoid_rewrite elem_of_graphql_files. simpl. rewrite elem_of_nil. naive_solver.
Qed.

(** X4. [type_to_resource_map] knows exactly the types that some
    [.graphql] file defines, and the owner it records is the main resource
    of a file that defines the type, hence a key of [file_data]. *)
Theorem owners_are_resources (listing : list (string * string)) (t : string) :
  (∀ R, Dict.get (read_files listing).2 t = Some R →
        R ∈ Dict.keys (read_files listing).1
        ∧ ∃ f c, (f, c) ∈ listing ∧ is_graphql f = true
                 ∧ t ∈ get_defined_types c ∧ get_main_resource_name c f = R)
  ∧ (Dict.get (read_files listing).2 t = None
     ↔ ∀ f c, (f, c) ∈ listing → is_graphql f = true → t ∉ get_defined_types c).
Proof.
  destruct (read_files_invariant (graphql_files listing) ([], []))
    as (_ & _ & H3 & H4 & H5); [apply NoDup_nil_2|done|].
  unfold read_files. fold (graphql_files listing). split.
  - intros R HR. split; [by eapply H3|].
    destruct (H4 t R HR) as [?|(f & c & (? & ?)%elem_of_graphql_files & ? & ?)]; [done|].
    eauto 8.
  - split.
    + intros Hn f c Hin Hg. apply (proj2 (H5 t Hn) f c). by apply elem_of_graphql_files.
    + intros Hno. rewrite owner_untouched; [done|].
      intros f c (? & ?)%elem_of_graphql_files. eauto.
Qed.

Lemma owners_are_resources_witness :
  "Patient" ∈ Dict.keys
    (read_files [("patient.graphql",
                  "type Patient implements IResource { c: Patient_Contact } type Patient_Contact { x: ID }")]).1.
Proof.
  apply (proj1 (owners_are_resources
                  [("patient.graphql",
                    "type Patient implements IResource { c: Patient_Contact } type Patient_Contact { x: ID }")]
                  "Patient_Contact") "Patient").
  vm_compute. reflexivity.
Defined.

(** X5. When several files define the same type, the owner recorded is
    the main resource of the last [.graphql] file, in the order of the
    listing, that defines it. *)
Theorem last_definition_owns (l1 l2 : list (string * string)) (f c t : string) :
  is_graphql f = true →
  t ∈ get_defined_types c →
  (∀ f' c', (f', c') ∈ l2 → is_graphql f' = true → t ∉ get_defined_types c') →
  Dict.get (read_files (l1 ++ (f, c) :: l2)).2 t = Some (get_main_resource_name c f).
Proof.
  intros Hg Ht Hlater. unfold read_files. fold (graphql_files (l1 ++ (f, c) :: l2)).
  rewrite graphql_files_app, graphql_files_cons, Hg, foldl_app. simpl.
  rewrite owner_untouched.
  - rewrite read_file_snd, get_foldl_set. by rewrite decide_True.
  - intros f' c' (? & ?)%elem_of_graphql_files. eauto.
Qed.

Lemma last_definition_owns_witness :
  Dict.get (read_files ([("a.graphql", "type Aa { x: ID } type Shared { y: ID }")]
                        ++ ("b.graphql", "type Bb { x: ID } type Shared { z: ID }")
                        :: [("c.graphql", "type Cc { s: Shared }")])).2 "Shared"
  = Some (get_main_resource_name "type Bb { x: ID } type Shared { z: ID }" "b.graphql").
Proof.
  apply last_definition_owns.
  - vm_compute. reflexivity.
  - vm_compute. right. left.
  - intros f' c' Hin _. apply list_elem_of_singleton in Hin. injection Hin as -> ->.
    apply (bool_decide_unpack _). vm_compute. exact I.
Defined.

(** X6. Two files with the same main resource share one entry of
    [file_data]: it holds the references of the last such file only. *)
Theorem last_file_of_a_resource_wins (l1 l2 : list (string * string)) (f c : string) :
  is_graphql f = true →
  (∀ f' c', (f', c') ∈ l2 → is_graphql f' = true →
            get_main_resource_name c' f' ≠ get_main_resource_name c f) →
  Dict.get (read_files (l1 ++ (f, c) :: l2)).1 (get_main_resource_name c f)
  = Some (get_dependencies_from_content c).
Proof.
  intros Hg Hlater. unfold read_files. fold (graphql_files (l1 ++ (f, c) :: l2)).
  rewrite graphql_files_app, graphql_files_cons, Hg, foldl_app. simpl.
  rewrite raw_deps_untouched.
  - by rewrite read_file_fst, get_set_eq.
  - intros f' c' (? & ?)%elem_of_graphql_files. eauto.
Qed.

Lemma last_file_of_a_resource_wins_witness :
  Dict.get (read_files ([("x.graphql", "type Patient { a: Address }")]
                        ++ ("y.graphql", "type Patient { n: HumanName }") :: [])).1
           (get_main_resource_name "type Patient { n: HumanName }" "y.graphql")
  = Some (get_dependencies_from_content "type Patient { n: HumanName }").
Proof.
  apply last_file_of_a_resource_wins.
  - vm_compute. reflexivity.
  - intros f' c' Hin. by apply elem_of_nil in Hin.
Defined.

(** X7. A file whose name does not end in [.graphql] changes nothing of
    what [main] produces. *)
Theorem other_files_are_ignored (l1 l2 : list (string * string)) (f c : string) (fuel : nat) :
  is_graphql f = false →
  main fuel (l1 ++ (f, c) :: l2) = main fuel (l1 ++ l2).
Proof.
  intros Hg. unfold main, read_files.
  fold (graphql_files (l1 ++ (f, c) :: l2)) (graphql_files (l1 ++ l2)).
  by rewrite !graphql_files_app, graphql_files_cons, Hg.
Qed.

Lemma other_files_are_ignored_witness :
  main 3 ([("a.graphql", "type Aa { b: Bb }")] ++ ("notes.txt", "type Zz { a: Aa }") :: [])
  = main 3 ([("a.graphql", "type Aa { b: Bb }")] ++ []).
Proof. apply other_files_are_ignored. vm_compute. reflexivity. Defined.

(** ** The dependency map as a graph (lines 61-71) *)

Section map_shape.
Implicit Types (file_data dependency_map : Dict.t PySet.t).
Implicit Types (type_to_resource_map : Dict.t string).

Lemma add_nonempty y (s : PySet.t) : PySet.add y s ≠ [].
Proof.
  unfold PySet.add, PySet.mem. case_bool_decide as H.
  - intros ->. by apply elem_of_nil in H.
  - by destruct s.
Qed.

Lemma map_shape_add keys type_to_resource_map R dependency_map dep :
  R ∈ keys → map_shape keys dependency_map →
  map_shape keys (add_dependency type_to_resource_map R dependency_map dep).
Proof.
  intros HR Hm. unfold add_dependency.
  destruct (_ || _); [done|]. case_bool_decide; [|done].
  intros R' ds. rewrite get_set. case_decide as E; [|apply Hm].
  intros [= <-]. subst R'. split_and!; [apply add_nonempty| |done].
  apply NoDup_add. destruct (Dict.get dependency_map R) as [ds|] eqn:Eg; simpl.
  - by apply (Hm R ds).
  - apply NoDup_nil_2.
Qed.

Lemma map_shape_add_all keys type_to_resource_map R raw : ∀ dependency_map,
  R ∈ keys → map_shape keys dependency_map →
  map_shape keys (foldl (add_dependency type_to_resource_map R) dependency_map raw).
Proof.
  induction raw as [|dep raw IH]; intros dm HR Hm; simpl; [done|].
  apply IH; [done|]. by apply map_shape_add.
Qed.

Lemma map_shape_build file_data type_to_resource_map :
  map_shape (Dict.keys file_data) (build_dependency_map file_data type_to_resource_map).
Proof.
  unfold build_dependency_map.
  assert (∀ keys fd dm, (∀ R, R ∈ Dict.keys fd → R ∈ keys) → map_shape keys dm →
            map_shape keys
              (foldl (λ dm '(resource, raw_deps),
                        foldl (add_dependency type_to_resource_map resource) dm raw_deps)
                     dm fd)) as H.
  { intros keys fd. induction fd as [|[R raw] fd IH]; intros dm Hk Hm; simpl; [done|].
    apply IH.
    - intros R' HR'. apply Hk. unfold Dict.keys. rewrite fmap_cons. by right.
    - apply map_shape_add_all; [|done]. apply Hk. unfold Dict.keys. rewrite fmap_cons. left. }
  apply H; [done|]. intros R ds. done.
Qed.

Lemma main_unfold fuel listing :
  main fuel listing
  = ('(rows, msg) ← leveler (dependency_map_of listing);
     trees ← build_trees fuel (dependency_map_of listing);
     Ok {| csv_rows := rows; cycle_message := msg; json_tree := trees |}).
Proof. unfold main, dependency_map_of. by destruct (read_files listing). Qed.

End map_shape.

(** X8. The dependency map is a well-formed graph: its keys are distinct
    and are keys of [file_data]; a resource is a key exactly when it has at
    least one dependency; no dependency set holds a name twice. A resource
    whose references are all scalars or its own types is therefore no key. *)
Theorem dependency_map_is_well_formed
    (file_data : Dict.t PySet.t) (type_to_resource_map : Dict.t string) (R : string) :
  NoDup (Dict.keys (build_dependency_map file_data type_to_resource_map))
  ∧ NoDup (deps_of (build_dependency_map file_data type_to_resource_map) R)
  ∧ (R ∈ Dict.keys (build_dependency_map file_data type_to_resource_map)
     ↔ deps_of (build_dependency_map file_data type_to_resource_map) R ≠ [])
  ∧ (R ∈ Dict.keys (build_dependency_map file_data type_to_resource_map) →
     R ∈ Dict.keys file_data).
Proof.
  pose proof (map_shape_build file_data type_to_resource_map) as Hm.
  split_and!.
  - apply NoDup_keys_build.
  - unfold deps_of.
    destruct (Dict.get _ R) as [ds|] eqn:E; simpl; [by apply (Hm R ds)|apply NoDup_nil_2].
  - rewrite <-get_is_Some. unfold deps_of. split.
    + intros [ds E]. rewrite E. simpl. by apply (Hm R ds).
    + destruct (Dict.get _ R) as [ds|]; [eauto|done].
  - rewrite <-get_is_Some. intros [ds E]. by apply (Hm R ds).
Qed.

(** X9. A type is never a dependency of the resource that owns it: when
    every [.graphql] file that defines [D] has main resource [R], no edge
    goes from [R] to [D], however often the files of [R] refer to [D]. *)
Theorem local_types_are_not_dependencies
    (listing : list (string * string)) (R D : string) :
  (∃ f c, (f, c) ∈ listing ∧ is_graphql f = true ∧ D ∈ get_defined_types c) →
  (∀ f c, (f, c) ∈ listing → is_graphql f = true → D ∈ get_defined_types c →
          get_main_resource_name c f = R) →
  D ∉ deps_of (dependency_map_of listing) R.
Proof.
  intros (f & c & Hin & Hg & HD) Hown Hdep.
  apply build_dependency_map_spec in Hdep as (_ & _ & _ & Hne). apply Hne.
  destruct (read_files_invariant (graphql_files listing) ([], []))
    as (_ & _ & _ & H4 & H5); [apply NoDup_nil_2|done|].
  fold (read_files listing) in H4, H5.
  destruct (Dict.get (read_files listing).2 D) as [R'|] eqn:E.
  - destruct (H4 D R' E) as [?|(f' & c' & (? & ?)%elem_of_graphql_files & ? & <-)]; [done|].
    f_equal. by apply Hown.
  - destruct (H5 D E) as [_ Hno]. destruct (Hno f c); [|done].
    by apply elem_of_graphql_files.
Qed.

Lemma local_types_are_not_dependencies_witness :
  "Patient_Contact" ∉ deps_of
     (dependency_map_of
        [("patient.graphql",
          "type Patient implements IResource { c: Patient_Contact n: HumanName } type Patient_Contact { x: ID }")])
     "Patient".
Proof.
  apply local_types_are_not_dependencies.
  - eexists _, _. split; [left|]. split; [reflexivity|].
    apply (bool_decide_unpack _). vm_compute. exact I.
  - intros f c Hin _ _. apply list_elem_of_singleton in Hin. injection Hin as -> ->.
    vm_compute. reflexivity.
Defined.

(** X10. A reference to a type of another resource, or to a type that no
    file defines, becomes an edge to the name referred to: for the last
    file of resource [R], every reference [D] that is no scalar, is not
    [R] and is defined in no file of [R] is a dependency of [R]. *)
Theorem foreign_references_are_dependencies
    (l1 l2 : list (string * string)) (f c D : string) :
  is_graphql f = true →
  (∀ f' c', (f', c') ∈ l2 → is_graphql f' = true →
            get_main_resource_name c' f' ≠ get_main_resource_name c f) →
  D ∈ get_dependencies_from_content c →
  D ∉ SCALAR_TYPES →
  D ≠ get_main_resource_name c f →
  (∀ f' c', (f', c') ∈ l1 ++ (f, c) :: l2 → is_graphql f' = true →
            D ∈ get_defined_types c' →
            get_main_resource_name c' f' ≠ get_main_resource_name c f) →
  D ∈ deps_of (dependency_map_of (l1 ++ (f, c) :: l2)) (get_main_resource_name c f).
Proof.
  intros Hg Hlast HD Hs Hne Hforeign.
  set (listing := l1 ++ (f, c) :: l2) in *.
  apply build_dependency_map_spec. split_and!; [|done|done|].
  - exists (get_dependencies_from_content c). split; [|done].
    apply get_Some_elem_of. unfold listing, read_files.
    fold (graphql_files (l1 ++ (f, c) :: l2)).
    rewrite graphql_files_app, graphql_files_cons, Hg, foldl_app. simpl.
    rewrite raw_deps_untouched.
    + by rewrite read_file_fst, get_set_eq.
    + intros f' c' (? & ?)%elem_of_graphql_files. eauto.
  - intros E.
    destruct (read_files_invariant (graphql_files listing) ([], []))
      as (_ & _ & _ & H4 & _); [apply NoDup_nil_2|done|].
    fold (read_files listing) in H4.
    destruct (H4 D _ E) as [?|(f' & c' & (? & ?)%elem_of_graphql_files & ? & ?)]; [done|].
    by eapply Hforeign.
Qed.

Lemma foreign_references_are_dependencies_witness :
  "HumanName" ∈ deps_of
     (dependency_map_of ([] ++ ("patient.graphql", "type Patient { n: HumanName i: ID }") :: []))
     (get_main_resource_name "type Patient { n: HumanName i: ID }" "patient.graphql").
Proof.
  apply foreign_references_are_dependencies.
  - reflexivity.
  - intros f' c' Hin. by apply elem_of_nil in Hin.
  - apply (bool_decide_unpack _). vm_compute. exact I.
  - apply (bool_decide_unpack _). vm_compute. exact I.
  - vm_compute. discriminate.
  - intros f' c' Hin _. apply list_elem_of_singleton in Hin. injection Hin as -> ->.
    intros Hd. exfalso. revert Hd. apply (bool_decide_unpack _). vm_compute. exact I.
Defined.

(** ** From the files to the edges *)

Section corpus_edges.

Lemma elem_of_set {V} (d : Dict.t V) k v k' v' :
  (k', v') ∈ Dict.set d k v → (k', v') ∈ d ∨ (k' = k ∧ v' = v).
Proof.
  induction d as [|[k0 v0] d IH]; simpl.
  - intros [= -> ->]%list_elem_of_singleton. by right.
  - destruct (String.eqb k0 k) eqn:E.
    + apply String.eqb_eq in E as ->. rewrite !elem_of_cons.
      intros [[= -> ->]|?]; auto.
    + rewrite !elem_of_cons. intros [?|[?|?]%IH]; auto.
Qed.

Lemma read_files_raw_deps files : ∀ (st : Dict.t PySet.t * Dict.t string) R raw,
  (R, raw) ∈ (foldl read_file st files).1 →
  (R, raw) ∈ st.1
  ∨ ∃ f c, (f, c) ∈ files ∧ get_main_resource_name c f = R
           ∧ raw = get_dependencies_from_content c.
Proof.
  induction files as [|[f c] files IH]; intros st R raw; simpl; [auto|].
  intros [Hin|(f' & c' & ? & ? & ?)]%IH.
  - rewrite read_file_fst in Hin. apply elem_of_set in Hin as [?|[-> ->]]; [by left|].
    right. exists f, c. split; [left|done].
  - right. exists f', c'. split; [by right|done].
Qed.

Lemma dependency_is_type_name content t :
  t ∈ get_dependencies_from_content content → is_type_name t = true.
Proof.
  rewrite elem_of_get_dependencies. unfold field_types_of_content.
  rewrite list_elem_of_bind. intros (body & (a & s' & r & _ & H)%findall_match_at & _).
  refine (match_at_type_name _ _ _ _ _ H); reflexivity.
Qed.

Lemma corpus_edge listing R D :
  D ∈ deps_of (dependency_map_of listing) R →
  (∃ f c, (f, c) ∈ listing ∧ is_graphql f = true ∧ get_main_resource_name c f = R
          ∧ D ∈ get_dependencies_from_content c)
  ∧ (D ∉ SCALAR_TYPES) ∧ D ≠ R.
Proof.
  intros ((raw & Hin & HD) & Hs & Hne & _)%build_dependency_map_spec.
  split; [|done].
  apply read_files_raw_deps in Hin as [Hin|(f & c & (? & ?)%elem_of_graphql_files & ? & ->)].
  - by apply elem_of_nil in Hin.
  - by exists f, c.
Qed.

End corpus_edges.

(** X11. Every edge of the dependency map comes from a reference in a
    file of its resource, and its target is a capitalized identifier that
    is no scalar and is not the resource itself. *)
Theorem edges_come_from_references (listing : list (string * string)) (R D : string) :
  D ∈ deps_of (dependency_map_of listing) R →
  (∃ f c, (f, c) ∈ listing ∧ is_graphql f = true ∧ get_main_resource_name c f = R
          ∧ D ∈ get_dependencies_from_content c)
  ∧ (D ∉ SCALAR_TYPES) ∧ D ≠ R ∧ is_type_name D = true.
Proof.
  intros Hdep. destruct (corpus_edge listing R D Hdep) as ((f & c & ? & ? & ? & HD) & ? & ?).
  split_and!; [by exists f, c|done|done|]. by eapply dependency_is_type_name.
Qed.

Lemma edges_come_from_references_witness :
  ("HumanName" ∉ SCALAR_TYPES) ∧ is_type_name "HumanName" = true.
Proof.
  assert ("HumanName" ∈ deps_of
            (dependency_map_of [("patient.graphql", "type Patient { n: HumanName i: ID }")])
            "Patient") as H.
  { apply (bool_decide_unpack _). vm_compute. exact I. }
  destruct (edges_come_from_references _ _ _ H) as (_ & Hs & _ & Ht). by split.
Defined.

(** ** What [main] can end with *)

Section outcomes.

Lemma mapM_st_no_raise {A B S : Type} (f : S → A → run (B * S)) (l : list A) :
  (∀ s a e, f s a ≠ Raise e) → ∀ s e, mapM_st f s l ≠ Raise e.
Proof.
  intros Hf. induction l as [|a l IH]; intros s e; simpl; [done|].
  destruct (f s a) as [[b s1]| |] eqn:Ef; simpl; [|by destruct (Hf s a e0)|done].
  destruct (mapM_st f s1 l) as [[bs s2]| |] eqn:El; simpl; [done| |done].
  by destruct (IH s1 e0).
Qed.

Lemma build_node_no_raise fuel dm : ∀ memo n e, build_node fuel dm memo n ≠ Raise e.
Proof.
  induction fuel as [|fuel IH]; intros memo n e; [done|].
  rewrite build_node_S. destruct (Dict.get memo n); [done|].
  destruct (Str.sorted (deps_of dm n)) as [|d ds]; [done|].
  destruct (mapM_st (build_node fuel dm) memo (d :: ds)) as [[cs memo']|e'|] eqn:E;
    [done| |done].
  by destruct (mapM_st_no_raise (build_node fuel dm) (d :: ds) IH memo e').
Qed.

Lemma build_trees_no_raise fuel dm e : build_trees fuel dm ≠ Raise e.
Proof.
  unfold build_trees.
  destruct (mapM_st _ _ _) as [[ts memo]|e'|] eqn:E; [done| |done].
  by destruct (mapM_st_no_raise (build_node fuel dm) _ (build_node_no_raise fuel dm) _ _ E).
Qed.

Lemma main_Ok fuel listing out :
  main fuel listing = Ok out →
  leveler (dependency_map_of listing) = Ok (csv_rows out, false)
  ∧ cycle_message out = false
  ∧ build_trees fuel (dependency_map_of listing) = Ok (json_tree out)
  ∧ leveled (dependency_map_of listing) (csv_rows out)
  ∧ acyclic (dependency_map_of listing).
Proof.
  rewrite main_unfold.
  destruct (leveler_spec (dependency_map_of listing))
    as [(c & -> & _)|(rows & -> & Hlev & Hac)]; [done|].
  rewrite bind_Ok.
  destruct (build_trees fuel (dependency_map_of listing)) as [trees| |]; [|done|done].
  intros [= <-]. done.
Qed.

End outcomes.

(** X12. Once the files are read, the only exception that escapes [main]
    is the [CycleError] of [prepare], and it is raised only when the
    dependency map has a cycle (failures of the file system and Python's
    recursion limit are outside the embedding). A run that ends normally
    has met no cycle and has not printed the cycle message: the branch of
    the loop that prints it is never taken. *)
Theorem main_outcomes (fuel : nat) (listing : list (string * string)) :
  (∀ e, main fuel listing = Raise e →
        ∃ c, e = CycleError c ∧ ∃ x, tc (depends (dependency_map_of listing)) x x)
  ∧ (∀ out, main fuel listing = Ok out →
            cycle_message out = false ∧ acyclic (dependency_map_of listing)).
Proof.
  split.
  - intros e. rewrite main_unfold.
    destruct (leveler_spec (dependency_map_of listing))
      as [(c & -> & Hx)|(rows & -> & _)].
    + intros [= <-]. eauto.
    + rewrite bind_Ok.
      destruct (build_trees fuel (dependency_map_of listing)) as [trees|e'|] eqn:E;
        [done| |done].
      by destruct (build_trees_no_raise _ _ _ E).
  - intros out H. by destruct (main_Ok fuel listing out H) as (_ & ? & _ & _ & ?).
Qed.

Lemma main_outcomes_witness :
  ∃ x, tc (depends (dependency_map_of [("a.graphql", "type Aa { b: Bb }");
                                       ("b.graphql", "type Bb { a: Aa }")])) x x.
Proof.
  destruct (proj1 (main_outcomes 1 [("a.graphql", "type Aa { b: Bb }");
                                    ("b.graphql", "type Bb { a: Aa }")])
                  (CycleError ["Aa"; "Bb"; "Aa"])) as (c & _ & H).
  - vm_compute. reflexivity.
  - exact H.
Defined.

(** ** The lines of the table *)

Section table_lines.

Lemma join_nonempty sep c x l : Str.join sep (String c x :: l) ≠ "".
Proof.
  unfold Str.join. destruct l as [|y l]; simpl; [done|]. by rewrite append_cons.
Qed.

Lemma leveled_level_0 (dm : Dict.t PySet.t) rows r :
  NoDup (Dict.keys dm) → leveled dm rows → r ∈ rows →
  Level r = 0 ↔ deps_of dm (Resource r) = [].
Proof.
  intros Hk Hlev Hr. split.
  - intros H0. destruct Hlev as (_ & _ & _ & _ & R5 & _).
    destruct (R5 r Hr) as [[_ Hp]|(p & l' & _ & _ & ?)]; [|lia].
    unfold deps_of. by rewrite <-graph_preds_get.
  - intros Hd. by apply (leveled_min dm Hk rows (Level r) (Resource r) Hlev); [exists r|].
Qed.

End table_lines.

(** X13. In the table that [main] writes, the last cell of a line lists
    the dependencies of the resource in ascending order, separated by a
    comma and a space; the lines of level 0 are exactly the lines of names
    that are no key of the dependency map, and exactly the lines whose last
    cell is empty. *)
Theorem table_lines_of_main (fuel : nat) (listing : list (string * string)) (out : output)
    (r : row) :
  main fuel listing = Ok out → r ∈ csv_rows out →
  Dependencies r = Str.join ", " (Str.sorted (deps_of (dependency_map_of listing) (Resource r)))
  ∧ (Level r = 0 ↔ Resource r ∉ Dict.keys (dependency_map_of listing))
  ∧ (Level r = 0 ↔ Dependencies r = "").
Proof.
  intros Hmain Hr.
  destruct (main_Ok fuel listing out Hmain) as (_ & _ & _ & Hlev & _).
  assert (NoDup (Dict.keys (dependency_map_of listing))) as Hk by apply NoDup_keys_build.
  pose proof (leveled_level_0 _ _ r Hk Hlev Hr) as H0.
  assert (Dependencies r
          = Str.join ", " (Str.sorted (deps_of (dependency_map_of listing) (Resource r))))
    as Hcell.
  { destruct Hlev as (_ & _ & R3 & _). by rewrite (R3 r Hr) at 1. }
  split_and!; [done| |].
  - rewrite H0, <-get_None. unfold deps_of. split.
    + destruct (Dict.get _ (Resource r)) as [ds|] eqn:E; [|done]. simpl. intros ->.
      by destruct (map_shape_build _ _ _ _ E) as [? _].
    + by intros ->.
  - rewrite H0, Hcell. split; [by intros ->|].
    destruct (Str.sorted _) as [|d ds] eqn:Es; [intros _; by apply sorted_nil|].
    assert (d ∈ deps_of (dependency_map_of listing) (Resource r)) as Hd.
    { apply elem_of_sorted. rewrite Es. left. }
    destruct (corpus_edge listing _ _ Hd) as ((f & c & _ & _ & _ & Hd') & _).
    apply dependency_is_type_name in Hd'. destruct d as [|a d]; [done|].
    intros Hj. by destruct (join_nonempty ", " a d ds).
Qed.

Lemma table_lines_of_main_witness :
  Dependencies {| Level := 1; Resource := "Aa"; Dependencies := "Bb, Cc" |}
  = Str.join ", " (Str.sorted (deps_of (dependency_map_of [("a.graphql", "type Aa { c: Cc b: Bb }")])
                                       "Aa")).
Proof.
  eapply (table_lines_of_main 2 [("a.graphql", "type Aa { c: Cc b: Bb }")]).
  - vm_compute. reflexivity.
  - simpl. right. right. left.
Defined.

(** ** The shape of the trees *)

Section tree_shape.
Variable dependency_map : Dict.t PySet.t.
Local Abbreviation dm := dependency_map.
Implicit Types (t nd c : TreeNode) (cs : list TreeNode) (n : string).

Lemma tree_ind' (P : TreeNode → Prop) :
  (∀ n, P (Node n None)) →
  (∀ n cs, Forall P cs → P (Node n (Some cs))) →
  ∀ t, P t.
Proof.
  intros H0 H1. fix IH 1. intros [n [cs|]]; [|apply H0].
  apply H1. induction cs as [|c cs IHcs]; constructor; [apply IH|apply IHcs].
Qed.

Lemma nodes_of_self t : t ∈ nodes_of t.
Proof. destruct t as [n [cs|]]; [rewrite nodes_of_inner|simpl]; left. Qed.

Lemma nodes_of_child n cs c nd :
  c ∈ cs → nd ∈ nodes_of c → nd ∈ nodes_of (Node n (Some cs)).
Proof.
  intros Hc Hnd. rewrite nodes_of_inner. right. apply list_elem_of_bind. eauto.
Qed.

Lemma elem_of_nodes_of n cs nd :
  nd ∈ nodes_of (Node n (Some cs)) ↔ nd = Node n (Some cs) ∨ ∃ c, c ∈ cs ∧ nd ∈ nodes_of c.
Proof.
  rewrite nodes_of_inner, elem_of_cons, list_elem_of_bind. naive_solver.
Qed.

Lemma nodes_of_trans t : ∀ nd x, nd ∈ nodes_of t → x ∈ nodes_of nd → x ∈ nodes_of t.
Proof.
  induction t as [n|n cs IH] using tree_ind'; intros nd x.
  - simpl. by intros ->%list_elem_of_singleton.
  - rewrite !elem_of_nodes_of. intros [->|(c & Hc & Hnd)] Hx.
    + by apply elem_of_nodes_of.
    + right. exists c. split; [done|].
      rewrite Forall_forall in IH. by eapply IH.
Qed.

Lemma matches_sub t nd :
  Forall (node_matches dm) (nodes_of t) → nd ∈ nodes_of t →
  Forall (node_matches dm) (nodes_of nd).
Proof.
  rewrite !Forall_forall. intros H Hnd x Hx. apply H. by eapply nodes_of_trans.
Qed.

Lemma matches_root t : Forall (node_matches dm) (nodes_of t) → node_matches dm t.
Proof. rewrite Forall_forall. intros H. apply H, nodes_of_self. Qed.

Lemma matches_leaf n : node_matches dm (Node n None) ↔ deps_of dm n = [].
Proof. done. Qed.

Lemma matches_inner n cs :
  node_matches dm (Node n (Some cs))
  ↔ deps_of dm n ≠ [] ∧ name <$> cs = Str.sorted (deps_of dm n).
Proof. done. Qed.

Lemma matches_children n cs :
  Forall (node_matches dm) (nodes_of (Node n (Some cs))) →
  ∀ c, c ∈ cs → Forall (node_matches dm) (nodes_of c).
Proof.
  intros H c Hc. eapply matches_sub; [exact H|].
  eapply nodes_of_child; [done|apply nodes_of_self].
Qed.

(** A resource has one tree only. *)
Lemma tree_ok_unique t1 : ∀ t2,
  name t1 = name t2 →
  Forall (node_matches dm) (nodes_of t1) → Forall (node_matches dm) (nodes_of t2) →
  t1 = t2.
Proof.
  induction t1 as [n|n cs IH] using tree_ind'; intros [n2 c2] Hn H1 H2;
    cbn [name] in Hn; subst n2.
  - apply matches_root, matches_leaf in H1.
    destruct c2 as [cs2|]; [|done].
    apply matches_root, matches_inner in H2. by destruct H2 as [? _].
  - pose proof (matches_root _ H1) as [Hne Hcs]%matches_inner.
    destruct c2 as [cs2|].
    + pose proof (matches_root _ H2) as [_ Hcs2]%matches_inner.
      do 2 f_equal.
      cbn [name] in Hcs, Hcs2.
      assert (name <$> cs = name <$> cs2) as Hnames by (by rewrite Hcs, Hcs2).
      pose proof (matches_children _ _ H1) as Hok1.
      pose proof (matches_children _ _ H2) as Hok2.
      clear H1 H2 Hcs Hcs2 Hne. revert cs2 Hnames Hok2.
      induction IH as [|c cs Hc _ IHcs]; intros [|c2 cs2]; csimpl; try done.
      intros [= Hn Hns] Hok2. f_equal.
      * apply Hc; [done|apply Hok1; left|apply Hok2; left].
      * apply IHcs; [|done|].
        -- intros c' Hc'. apply Hok1. by right.
        -- intros c' Hc'. apply Hok2. by right.
    + apply matches_root, matches_leaf in H2. done.
Qed.

Lemma height_inner n cs : height (Node n (Some cs)) = S (max_list_with height cs).
Proof. reflexivity. Qed.

Lemma height_child_le c cs : c ∈ cs → height c ≤ max_list_with height cs.
Proof.
  induction 1 as [c cs|c c' cs _ IH]; cbn [max_list_with]; lia.
Qed.

Lemma height_child_max cs : cs ≠ [] → ∃ c, c ∈ cs ∧ height c = max_list_with height cs.
Proof.
  induction cs as [|c cs IH]; [done|]. intros _. cbn [max_list_with].
  destruct cs as [|c' cs].
  - exists c. split; [left|]. cbn [max_list_with]. lia.
  - destruct IH as (c0 & Hc0 & Hh); [done|].
    destruct (Nat.max_spec (height c) (max_list_with height (c' :: cs))) as [[? ->]|[? ->]].
    + exists c0. split; [by right|done].
    + exists c. split; [left|done].
Qed.

Hypothesis Hkeys : NoDup (Dict.keys dependency_map).

(** The height of the tree of a resource is the length of the longest
    chain of dependencies that starts at the resource. *)
Lemma tree_height_chain t :
  Forall (node_matches dm) (nodes_of t) →
  chain dm (name t) (height t) ∧ ∀ k, chain dm (name t) k → k ≤ height t.
Proof.
  induction t as [n|n cs IH] using tree_ind'; intros Hok.
  - apply matches_root, matches_leaf in Hok. cbn [name].
    split; [constructor|]. intros k Hc. inversion Hc as [|? d k' Hd _]; subst; [lia|].
    apply depends_deps_of in Hd; [|done]. rewrite Hok in Hd.
    by apply elem_of_nil in Hd.
  - pose proof (matches_root _ Hok) as [Hne Hcs]%matches_inner.
    cbn [name] in Hne, Hcs.
    pose proof (matches_children _ _ Hok) as Hsub.
    assert (∀ c, c ∈ cs → depends dm n (name c)) as Hdep.
    { intros c Hc. apply depends_deps_of; [done|]. apply elem_of_sorted.
      rewrite <-Hcs. by apply list_elem_of_fmap_2. }
    rewrite Forall_forall in IH. rewrite height_inner. cbn [name]. split.
    + destruct (height_child_max cs) as (c & Hc & <-).
      { intros ->. csimpl in Hcs. symmetry in Hcs. by apply (proj1 (sorted_nil _)) in Hcs. }
      econstructor; [by apply Hdep|]. by apply IH; [|apply Hsub].
    + intros k Hc. inversion Hc as [|? d k' Hd Hc']; subst; [lia|].
      apply depends_deps_of in Hd; [|done].
      apply elem_of_sorted in Hd. rewrite <-Hcs in Hd.
      apply list_elem_of_fmap in Hd as (c & -> & Hin).
      destruct (IH c Hin (Hsub c Hin)) as [_ Hmax].
      pose proof (Hmax k' Hc'). pose proof (height_child_le c cs Hin). lia.
Qed.

(** The names in the tree of a resource are the resource and all it
    depends on, directly or through other names. *)
Lemma tree_reaches t :
  Forall (node_matches dm) (nodes_of t) →
  ∀ x, x ∈ name <$> nodes_of t ↔ rtc (depends dm) (name t) x.
Proof.
  intros Hok x. split.
  - intros (nd & -> & Hnd)%list_elem_of_fmap. revert nd Hnd Hok.
    induction t as [n|n cs IH] using tree_ind'; intros nd Hnd Hok.
    + simpl in Hnd. by apply list_elem_of_singleton in Hnd as ->.
    + apply elem_of_nodes_of in Hnd as [->|(c & Hc & Hnd)]; [done|].
      pose proof (matches_root _ Hok) as [_ Hcs]%matches_inner.
      cbn [name] in Hcs.
      apply rtc_l with (name c).
      * apply depends_deps_of; [done|]. apply elem_of_sorted. cbn [name].
        rewrite <-Hcs. by apply list_elem_of_fmap_2.
      * rewrite Forall_forall in IH. apply IH; [done..|].
        by eapply matches_children.
  - intros Hr. apply rtc_nsteps in Hr as [k Hr].
    assert (∀ a, a ∈ name <$> nodes_of t → ∀ b, depends dm a b → b ∈ name <$> nodes_of t)
      as Hstep.
    { intros a (nd & -> & Hnd)%list_elem_of_fmap b Hb.
      pose proof (matches_sub _ _ Hok Hnd) as Hm.
      apply depends_deps_of in Hb; [|done].
      destruct nd as [n [cs|]]; cbn [name] in Hb.
      - apply matches_root, matches_inner in Hm as [_ Hcs]. cbn [name] in Hcs.
        apply elem_of_sorted in Hb. rewrite <-Hcs in Hb.
        apply list_elem_of_fmap in Hb as (c & -> & Hc).
        apply list_elem_of_fmap_2. eapply nodes_of_trans; [exact Hnd|].
        eapply nodes_of_child; [done|apply nodes_of_self].
      - apply matches_root, matches_leaf in Hm.
        rewrite Hm in Hb. by apply elem_of_nil in Hb. }
    assert (∀ k' a, nsteps (depends dm) k' a x → a ∈ name <$> nodes_of t →
                    x ∈ name <$> nodes_of t) as Hn.
    { intros k' a Hs. induction Hs as [a|k' a b c Hab _ IH]; [done|]. intros Ha. eauto. }
    eapply Hn; [exact Hr|]. apply list_elem_of_fmap_2, nodes_of_self.
Qed.

End tree_shape.

Section trees_built.
Variable dependency_map : Dict.t PySet.t.
Local Abbreviation dm := dependency_map.
Hypothesis Hkeys : NoDup (Dict.keys dependency_map).

Lemma build_trees_matches fuel trees t :
  build_trees fuel dm = Ok trees → t ∈ trees → Forall (node_matches dm) (nodes_of t).
Proof.
  intros H%build_trees_ok Ht.
  induction H as [|x c l cs' [_ Hx] _ IHl]; [by apply elem_of_nil in Ht|].
  apply elem_of_cons in Ht as [->|Ht]; auto.
Qed.

Lemma root_nodes_spec x :
  x ∈ root_nodes dm ↔ x ∈ Dict.keys dm ∧ ∀ P, x ∉ deps_of dm P.
Proof.
  rewrite elem_of_root_nodes. split; intros [Hx Hno]; (split; [done|]).
  - intros P. unfold deps_of. destruct (Dict.get dm P) as [deps|] eqn:E; simpl.
    + apply (Hno P). by apply get_Some_elem_of.
    + apply not_elem_of_nil.
  - intros P deps Hin Hd. apply (Hno P). unfold deps_of.
    by rewrite (elem_of_get _ _ _ Hkeys Hin).
Qed.

(** A node with a line is a root, or something with a higher level
    depends on it. *)
Lemma root_or_dependency rows n l :
  leveled dm rows → has_row rows l n →
  n ∈ root_nodes dm
  ∨ ∃ P l', depends dm P n ∧ has_row rows l' P ∧ l < l'.
Proof.
  intros (R1 & R2 & _ & R4 & _) Hrow.
  destruct (decide (Exists (λ pd : string * PySet.t, n ∈ pd.2) dm)) as [He|He].
  - right. apply Exists_exists in He as ([P deps] & Hin & Hn). simpl in Hn.
    assert (depends dm P n) as Hdep.
    { apply depends_deps_of; [done|]. unfold deps_of.
      by rewrite (elem_of_get _ _ _ Hkeys Hin). }
    assert (P ∈ graph_nodes dm) as HP.
    { apply graph_nodes_spec; [done|]. left. apply list_elem_of_fmap. by exists (P, deps). }
    apply R1, list_elem_of_fmap in HP as (rP & -> & HrP).
    destruct (R4 rP n HrP Hdep) as (l' & Hrow' & Hlt).
    rewrite (has_row_unique rows l l' n R2 Hrow Hrow').
    exists (Resource rP), (Level rP). split_and!; [done|by exists rP|done].
  - left. apply root_nodes_spec.
    assert (∀ P, n ∉ deps_of dm P) as Hno.
    { intros P Hn. apply He, Exists_exists. unfold deps_of in Hn.
      destruct (Dict.get dm P) as [deps|] eqn:E; [|by apply elem_of_nil in Hn].
      exists (P, deps). split; [by apply get_Some_elem_of|done]. }
    split; [|done]. destruct Hrow as (r & Hr & _ & <-).
    assert (Resource r ∈ graph_nodes dm) as Hg by (apply R1; by apply list_elem_of_fmap_2).
    apply graph_nodes_spec in Hg as [?|[P HP]]; [done|by destruct (Hno P)|done].
Qed.

(** Every node of a leveled graph is a root or below a root. *)
Lemma root_above rows M :
  leveled dm rows → (∀ l n, has_row rows l n → l ≤ M) →
  ∀ k n l, has_row rows l n → M - l ≤ k →
    ∃ R, R ∈ root_nodes dm ∧ rtc (depends dm) R n.
Proof.
  intros Hlev HM. induction k as [|k IH]; intros n l Hrow Hk.
  all: destruct (root_or_dependency rows n l Hlev Hrow)
         as [?|(P & l' & Hdep & Hrow' & Hlt)]; [by exists n| ].
  all: pose proof (HM l' P Hrow').
  - lia.
  - destruct (IH P l' Hrow') as (R & HR & Hreach); [lia|].
    exists R. split; [done|]. by eapply rtc_r.
Qed.

Lemma leveler_Ok rows b :
  leveler dm = Ok (rows, b) → leveled dm rows ∧ acyclic dm.
Proof.
  destruct (leveler_spec dm) as [(c & -> & _)|(rows' & -> & ? & ?)]; [done|].
  by intros [= <- <-].
Qed.

End trees_built.

Section trees_same_graph.
Variables dm1 dm2 : Dict.t PySet.t.
Hypothesis Hk1 : NoDup (Dict.keys dm1).
Hypothesis Hk2 : NoDup (Dict.keys dm2).
Hypothesis Hsame : same_graph dm1 dm2.

Lemma same_graph_roots : Str.sorted (root_nodes dm1) = Str.sorted (root_nodes dm2).
Proof.
  apply sorted_unique, NoDup_Permutation; try apply NoDup_root_nodes.
  intros x. rewrite !root_nodes_spec by done. destruct Hsame as [Hk Hd].
  rewrite Hk. split; intros [? Hno]; (split; [done|]); intros P.
  - rewrite <-(Hd P). apply Hno.
  - rewrite (Hd P). apply Hno.
Qed.

Lemma same_graph_matches t : node_matches dm1 t → node_matches dm2 t.
Proof.
  destruct Hsame as [_ Hd]. unfold node_matches.
  destruct (children t) as [cs|].
  - intros [Hne Hcs]. split.
    + intros E. apply Hne. apply Permutation_nil_r. by rewrite <-E, (Hd (name t)).
    + rewrite Hcs. apply sorted_unique, Hd.
  - intros E. apply Permutation_nil_r. by rewrite <-E, (Hd (name t)).
Qed.

End trees_same_graph.

(** X14. The tree output repeats a shared dependency in full: wherever a
    name occurs in the trees, the node is the same, with the same subtree
    below it. The [memo] of [build_node] only saves work. *)
Theorem equal_names_equal_subtrees
    (dependency_map : Dict.t PySet.t) (fuel : nat) (trees : list TreeNode)
    (t1 t2 nd1 nd2 : TreeNode) :
  build_trees fuel dependency_map = Ok trees →
  t1 ∈ trees → t2 ∈ trees → nd1 ∈ nodes_of t1 → nd2 ∈ nodes_of t2 →
  name nd1 = name nd2 → nd1 = nd2.
Proof.
  intros Hb Ht1 Ht2 Hn1 Hn2 Hname.
  apply (tree_ok_unique dependency_map); [done| |].
  - eapply matches_sub; [|done]. by eapply build_trees_matches.
  - eapply matches_sub; [|done]. by eapply build_trees_matches.
Qed.

Lemma equal_names_equal_subtrees_witness :
  Node "Cc" None = Node "Cc" None.
Proof.
  apply (equal_names_equal_subtrees
           [("Aa", ["Cc"]); ("Bb", ["Cc"])] 2
           [Node "Aa" (Some [Node "Cc" None]); Node "Bb" (Some [Node "Cc" None])]
           (Node "Aa" (Some [Node "Cc" None])) (Node "Bb" (Some [Node "Cc" None]))).
  - vm_compute. reflexivity.
  - left.
  - right. left.
  - simpl. right. left.
  - simpl. right. left.
  - reflexivity.
Defined.

(** X15. The tree output depends on the graph only: two dictionaries that
    hold the same graph, with whatever order of keys and of set elements
    and whatever fuel, give the same list of trees. *)
Theorem trees_depend_on_the_graph_only
    (dm1 dm2 : Dict.t PySet.t) (fuel1 fuel2 : nat) (trees1 trees2 : list TreeNode) :
  NoDup (Dict.keys dm1) → NoDup (Dict.keys dm2) → same_graph dm1 dm2 →
  build_trees fuel1 dm1 = Ok trees1 → build_trees fuel2 dm2 = Ok trees2 →
  trees1 = trees2.
Proof.
  intros Hk1 Hk2 Hsame H1 H2.
  assert (name <$> trees1 = name <$> trees2) as Hnames.
  { rewrite (build_trees_names _ _ _ H1), (build_trees_names _ _ _ H2).
    by apply same_graph_roots. }
  assert (∀ t, t ∈ trees1 → Forall (node_matches dm2) (nodes_of t)) as Hok1.
  { intros t Ht.
    apply (Forall_impl (node_matches dm1));
      [exact (build_trees_matches dm1 fuel1 trees1 t H1 Ht)|].
    intros nd. by apply same_graph_matches. }
  assert (∀ t, t ∈ trees2 → Forall (node_matches dm2) (nodes_of t)) as Hok2
    by (intros t Ht; exact (build_trees_matches dm2 fuel2 trees2 t H2 Ht)).
  clear H1 H2. revert trees2 Hnames Hok2.
  induction trees1 as [|t1 trees1 IH]; intros [|t2 trees2]; csimpl; try done.
  intros [= Hn Hns] Hok2. f_equal.
  - apply (tree_ok_unique dm2); [done|apply Hok1; left|apply Hok2; left].
  - apply IH; [|done|].
    + intros t Ht. apply Hok1. by right.
    + intros t Ht. apply Hok2. by right.
Qed.

Lemma trees_depend_on_the_graph_only_witness :
  [Node "Aa" (Some [Node "Bb" None; Node "Cc" None])]
  = [Node "Aa" (Some [Node "Bb" None; Node "Cc" None])].
Proof.
  apply (trees_depend_on_the_graph_only [("Aa", ["Cc"; "Bb"])] [("Aa", ["Bb"; "Cc"])] 2 5).
  - apply (bool_decide_unpack _). vm_compute. exact I.
  - apply (bool_decide_unpack _). vm_compute. exact I.
  - split; [done|]. intros n. unfold deps_of. cbn [Dict.get].
    destruct (String.eqb "Aa" n); simpl; [apply Permutation_swap|done].
  - vm_compute. reflexivity.
  - vm_compute. reflexivity.
Defined.

(** X16. The tree of a root holds the root and everything the root
    depends on, directly or through other names, and nothing else. *)
Theorem tree_spans_what_the_root_reaches
    (dependency_map : Dict.t PySet.t) (fuel : nat) (trees : list TreeNode)
    (t : TreeNode) (x : string) :
  NoDup (Dict.keys dependency_map) →
  build_trees fuel dependency_map = Ok trees → t ∈ trees →
  x ∈ name <$> nodes_of t ↔ rtc (depends dependency_map) (name t) x.
Proof.
  intros Hk Hb Ht. apply tree_reaches; [done|]. by eapply build_trees_matches.
Qed.

Lemma tree_spans_what_the_root_reaches_witness :
  rtc (depends [("Aa", ["Bb"]); ("Bb", ["Cc"])]) "Aa" "Cc".
Proof.
  apply (tree_spans_what_the_root_reaches
           [("Aa", ["Bb"]); ("Bb", ["Cc"])] 3
           [Node "Aa" (Some [Node "Bb" (Some [Node "Cc" None])])]
           (Node "Aa" (Some [Node "Bb" (Some [Node "Cc" None])])) "Cc").
  - apply (bool_decide_unpack _). vm_compute. exact I.
  - vm_compute. reflexivity.
  - left.
  - simpl. right. right. left.
Defined.

(** X17. The two outputs agree: the level that the table gives a resource
    is the height of the subtree that the tree output hangs below it. *)
Theorem height_is_level
    (dependency_map : Dict.t PySet.t) (fuel : nat) (rows : list row) (b : bool)
    (trees : list TreeNode) (t nd : TreeNode) :
  NoDup (Dict.keys dependency_map) →
  leveler dependency_map = Ok (rows, b) →
  build_trees fuel dependency_map = Ok trees →
  t ∈ trees → nd ∈ nodes_of t →
  has_row rows (height nd) (name nd).
Proof.
  intros Hk Hl Hb Ht Hnd.
  destruct (leveler_Ok _ rows b Hl) as [Hlev _].
  pose proof (build_trees_matches _ _ _ _ Hb Ht) as Hok.
  assert (name nd ∈ graph_nodes dependency_map) as Hg.
  { assert (rtc (depends dependency_map) (name t) (name nd)) as Hr.
    { apply tree_reaches; [done..|]. by apply list_elem_of_fmap_2. }
    apply rtc_inv_r in Hr as [<-|(y & _ & Hy)].
    - apply graph_nodes_spec; [done|]. left.
      assert (name t ∈ Str.sorted (root_nodes dependency_map)) as Hroot.
      { rewrite <-(build_trees_names _ _ _ Hb). by apply list_elem_of_fmap_2. }
      apply elem_of_sorted, elem_of_root_nodes in Hroot. by destruct Hroot.
    - by apply graph_preds_nodes in Hy as [_ ?]. }
  pose proof Hlev as (R1 & _).
  apply R1, list_elem_of_fmap in Hg as (r & Hname & Hr).
  assert (has_row rows (Level r) (name nd)) as Hrow by (by exists r).
  destruct (leveled_chain _ rows Hlev _ _ Hrow) as [Hc1 Hm1].
  destruct (tree_height_chain _ Hk nd (matches_sub _ _ _ Hok Hnd)) as [Hc2 Hm2].
  pose proof (Hm1 _ Hc2). pose proof (Hm2 _ Hc1).
  by replace (height nd) with (Level r) by lia.
Qed.

Lemma height_is_level_witness :
  has_row [ {| Level := 0; Resource := "Cc"; Dependencies := "" |};
            {| Level := 1; Resource := "Bb"; Dependencies := "Cc" |};
            {| Level := 2; Resource := "Aa"; Dependencies := "Bb, Cc" |} ]
          (height (Node "Bb" (Some [Node "Cc" None])))
          (name (Node "Bb" (Some [Node "Cc" None]))).
Proof.
  apply (height_is_level
           [("Aa", ["Bb"; "Cc"]); ("Bb", ["Cc"])] 3 _ false
           [Node "Aa" (Some [Node "Bb" (Some [Node "Cc" None]); Node "Cc" None])]
           (Node "Aa" (Some [Node "Bb" (Some [Node "Cc" None]); Node "Cc" None]))).
  - apply (bool_decide_unpack _). vm_compute. exact I.
  - vm_compute. reflexivity.
  - vm_compute. reflexivity.
  - left.
  - simpl. right. left.
Defined.

(** X18. The table and the trees name the same resources: a name has a
    line in the table exactly when it occurs in one of the trees. *)
Theorem table_and_trees_name_the_same
    (dependency_map : Dict.t PySet.t) (fuel : nat) (rows : list row) (b : bool)
    (trees : list TreeNode) (n : string) :
  NoDup (Dict.keys dependency_map) →
  leveler dependency_map = Ok (rows, b) →
  build_trees fuel dependency_map = Ok trees →
  n ∈ Resource <$> rows ↔ ∃ t, t ∈ trees ∧ n ∈ name <$> nodes_of t.
Proof.
  intros Hk Hl Hb. destruct (leveler_Ok _ rows b Hl) as [Hlev _].
  pose proof Hlev as (R1 & _). split.
  - intros (r & -> & Hr)%list_elem_of_fmap.
    destruct (root_above _ Hk rows (max_list (Level <$> rows)) Hlev)
      with (k := max_list (Level <$> rows)) (n := Resource r) (l := Level r)
      as (R & HR & Hreach).
    + intros l' n' (r' & Hr' & <- & _). by apply max_list_elem_of_le, list_elem_of_fmap_2.
    + by exists r.
    + lia.
    + assert (R ∈ name <$> trees) as (t & -> & Ht)%list_elem_of_fmap.
      { rewrite (build_trees_names _ _ _ Hb). by apply elem_of_sorted. }
      exists t. split; [done|].
      apply (tree_reaches _ Hk t (build_trees_matches _ _ _ _ Hb Ht)). done.
  - intros (t & Ht & Hn). apply R1.
    pose proof (build_trees_matches _ _ _ _ Hb Ht) as Hok.
    apply (tree_reaches _ Hk t Hok) in Hn.
    apply rtc_inv_r in Hn as [<-|(y & _ & Hy)].
    + apply graph_nodes_spec; [done|]. left.
      assert (name t ∈ Str.sorted (root_nodes dependency_map)) as Hroot.
      { rewrite <-(build_trees_names _ _ _ Hb). by apply list_elem_of_fmap_2. }
      apply elem_of_sorted, elem_of_root_nodes in Hroot. by destruct Hroot.
    + by apply graph_preds_nodes in Hy as [_ ?].
Qed.

Lemma table_and_trees_name_the_same_witness :
  ∃ t, t ∈ [Node "Aa" (Some [Node "Bb" None])] ∧ "Bb" ∈ name <$> nodes_of t.
Proof.
  apply (table_and_trees_name_the_same [("Aa", ["Bb"])] 2
           [ {| Level := 0; Resource := "Bb"; Dependencies := "" |};
             {| Level := 1; Resource := "Aa"; Dependencies := "Bb" |} ] false).
  - apply (bool_decide_unpack _). vm_compute. exact I.
  - vm_compute. reflexivity.
  - vm_compute. reflexivity.
  - simpl. left.
Defined.

(** ** The cycle that [CycleError] carries *)

Section reported_cycle.
Variable n2i : Dict.t graphlib._NodeInfo.
Hypothesis Hclosed : closed n2i.
Implicit Types (F stk c : list string) (its : list (list string)).
Implicit Types (sn : PySet.t) (n2s : Dict.t nat) (R : string → string → Prop).

Lemma is_path_tail R x c : is_path R (x :: c) → is_path R c.
Proof. by intros [_ ?]. Qed.

Lemma is_path_drop R i : ∀ c, is_path R c → is_path R (drop i c).
Proof.
  induction i as [|i IH]; intros [|x c] H; try done.
  simpl. by apply IH, is_path_tail with x.
Qed.

Lemma is_path_snoc R c x y : is_path R (c ++ [x]) → R x y → is_path R ((c ++ [x]) ++ [y]).
Proof.
  intros H Hxy. induction c as [|a c IH]; [by repeat split|].
  destruct H as [Ha H]. split; [|by apply IH].
  by destruct c.
Qed.

Lemma is_path_impl R R' c : (∀ a b, R a b → R' a b) → is_path R c → is_path R' c.
Proof.
  intros HR. induction c as [|x c IH]; [done|].
  intros [Hx H]. split; [|by apply IH]. destruct c; auto.
Qed.

(** The stack, read from its far end and followed by the node being
    looked at, is a path of successor edges. *)
Lemma frames_is_path F above stk its :
  frames n2i F above stk its → is_path (edge n2i) (reverse stk ++ [above]).
Proof.
  revert above its. induction stk as [|x stk IH]; intros above [|it its]; simpl;
    try done.
  intros [(c0 & Hc & _) Hfr]. rewrite reverse_cons.
  apply is_path_snoc; [by eapply IH|]. unfold edge. rewrite Hc. set_solver.
Qed.

Lemma cycle_of_is_cycle F n stk its n2s i :
  frames n2i F n stk its → index_inv stk n2s → Dict.get n2s n = Some i →
  is_cycle (edge n2i) (graphlib.cycle_of stk i n).
Proof.
  intros Hfr Hidx Hi. apply Hidx in Hi.
  pose proof (lookup_lt_Some _ _ _ Hi) as Hlt.
  unfold graphlib.cycle_of. split_and!.
  - rewrite (drop_S _ _ _ Hi). simpl. rewrite length_app. simpl. lia.
  - rewrite last_snoc. by rewrite (drop_S _ _ _ Hi).
  - rewrite <-drop_app_le by lia. apply is_path_drop. by eapply frames_is_path.
Qed.

Lemma index_inv_push stk n2s n :
  index_inv stk n2s → index_inv (n :: stk) (Dict.set n2s n (length stk)).
Proof.
  intros Hidx x i. rewrite get_set, reverse_cons. case_decide as E.
  - intros [= <-]. subst x. rewrite lookup_app_r by (by rewrite length_reverse).
    by rewrite length_reverse, Nat.sub_diag.
  - intros Hx. apply lookup_app_l_Some. by apply Hidx.
Qed.

Lemma index_inv_pop stk n2s top :
  NoDup (Dict.keys n2s) → index_inv (top :: stk) n2s → index_inv stk (Dict.del n2s top).
Proof.
  intros Hnd Hidx x i. rewrite get_del by done. case_decide as E; [done|].
  intros Hx. apply Hidx in Hx. rewrite reverse_cons in Hx.
  apply lookup_app_Some in Hx as [Hx|[Hge Hx]]; [done|].
  apply list_lookup_singleton_Some in Hx as [_ ?]. done.
Qed.

Lemma backtrack_index stk : ∀ its n2s next stk' its' n2s',
  NoDup (Dict.keys n2s) → index_inv stk n2s →
  graphlib.backtrack stk its n2s = Ok (next, (stk', its', n2s')) →
  index_inv stk' n2s'.
Proof.
  induction stk as [|top stk IH]; intros its n2s next stk' its' n2s' Hnd Hidx; simpl.
  - by intros [= _ <- _ <-].
  - destruct its as [|[|nxt it] its]; [done| |].
    + apply IH; [by apply NoDup_keys_del|by apply index_inv_pop].
    + by intros [= _ <- _ <-].
Qed.

Lemma dfs_inv_push F n st :
  dfs_inv n2i F (graphlib.stack st) (graphlib.seen st) (graphlib.node2stacki st) →
  n ∉ graphlib.seen st →
  dfs_inv n2i F (n :: graphlib.stack st) (PySet.add n (graphlib.seen st))
          (Dict.set (graphlib.node2stacki st) n (length (graphlib.stack st))).
Proof.
  intros (Hsn & Hn2s & Hnd & Hstk & Hdis & Hord) Hseen.
  assert (n ∉ graphlib.stack st) as Hnstk by (intros ?; apply Hseen, Hsn; auto).
  assert (n ∉ F) as HnF by (intros ?; apply Hseen, Hsn; auto).
  split_and!; try done.
  - intros x. rewrite elem_of_add, Hsn, elem_of_cons. tauto.
  - intros x. rewrite get_set, elem_of_cons. case_decide.
    + subst. split; eauto.
    + rewrite Hn2s. naive_solver.
  - by apply NoDup_keys_set.
  - by apply NoDup_cons.
  - intros x [->|?]%elem_of_cons; auto.
Qed.

(** A list that [visit] returns is a cycle of successor edges. *)
Lemma visit_cycle fuel : ∀ n st F c st',
  dfs_inv n2i F (graphlib.stack st) (graphlib.seen st) (graphlib.node2stacki st) →
  frames n2i F n (graphlib.stack st) (graphlib.itstack st) →
  index_inv (graphlib.stack st) (graphlib.node2stacki st) →
  n ∈ Dict.keys n2i →
  graphlib.visit fuel n2i n st = Ok (Some c, st') →
  is_cycle (edge n2i) c.
Proof.
  induction fuel as [|fuel IH]; intros n st F c st' Hinv Hfr Hidx Hn; [done|].
  assert (∀ st1 F1,
    dfs_inv n2i F1 (graphlib.stack st1) (graphlib.seen st1) (graphlib.node2stacki st1) →
    frames_top n2i F1 (graphlib.stack st1) (graphlib.itstack st1) →
    index_inv (graphlib.stack st1) (graphlib.node2stacki st1) →
    ('(next, (stk, its, n2s)) ← graphlib.backtrack (graphlib.stack st1)
                                  (graphlib.itstack st1) (graphlib.node2stacki st1);
     match next with
     | Some n' =>
         graphlib.visit fuel n2i n'
           {| graphlib.stack := stk; graphlib.itstack := its;
              graphlib.seen := graphlib.seen st1; graphlib.node2stacki := n2s |}
     | None =>
         Ok (None, {| graphlib.stack := stk; graphlib.itstack := its;
                      graphlib.seen := graphlib.seen st1;
                      graphlib.node2stacki := n2s |})
     end) = Ok (Some c, st') →
    is_cycle (edge n2i) c) as Hcont.
  { intros st1 F1 Hinv1 Hfr1 Hidx1.
    destruct (backtrack_spec n2i Hclosed _ _ _ _ _ Hinv1 Hfr1)
      as (next & stk' & its' & n2s' & F' & E & Hinv' & Hnext).
    rewrite E, bind_Ok. destruct next as [nxt|]; [|done].
    destruct Hnext as (Hfr' & [x Hx] & _).
    apply (IH nxt _ F'); cbn; [done|done| |by apply (Hclosed x)].
    eapply backtrack_index; [|exact Hidx1|exact E]. apply Hinv1. }
  simpl. unfold PySet.mem. case_bool_decide as Hseen.
  - destruct (Dict.get (graphlib.node2stacki st) n) as [i|] eqn:Ei.
    + intros [= <- _]. by eapply cycle_of_is_cycle.
    + apply (Hcont st F); [done| |done].
      eapply frames_frames_top; [done|].
      destruct Hinv as (Hsn & Hn2s & _). apply Hsn in Hseen as [Hs|?]; [|done].
      apply Hn2s in Hs as [? Hs]. congruence.
  - destruct (Dict.get n2i n) as [info|] eqn:Einfo; [|done].
    apply (Hcont {| graphlib.stack := n :: graphlib.stack st;
                    graphlib.itstack := graphlib.successors info :: graphlib.itstack st;
                    graphlib.seen := PySet.add n (graphlib.seen st);
                    graphlib.node2stacki :=
                      Dict.set (graphlib.node2stacki st) n (length (graphlib.stack st)) |}
                 F);
      cbn [graphlib.stack graphlib.itstack graphlib.seen graphlib.node2stacki].
    + by apply dfs_inv_push.
    + split; [|done]. exists []. split; [|by intros ? ?%elem_of_nil].
      unfold succs_of. by rewrite Einfo.
    + by apply index_inv_push.
Qed.

Lemma find_cycle_from_cycle fuel nodes : ∀ st F c,
  dfs_inv n2i F [] (graphlib.seen st) (graphlib.node2stacki st) →
  graphlib.stack st = [] → graphlib.itstack st = [] →
  (∀ x, x ∈ nodes → x ∈ Dict.keys n2i) →
  dfs_weight n2i [] (graphlib.seen st) < fuel →
  graphlib.find_cycle_from fuel n2i nodes st = Ok (Some c) →
  is_cycle (edge n2i) c.
Proof.
  induction nodes as [|n nodes IH]; intros st F c Hinv Hstk Hits Hkeys Hw; simpl; [done|].
  unfold PySet.mem. case_bool_decide as Hseen.
  - apply (IH st F); try done. intros x ?. apply Hkeys. by right.
  - destruct (visit_spec n2i Hclosed fuel n st F) as (found & st' & E & Hres).
    + by rewrite Hstk.
    + by rewrite Hstk, Hits.
    + apply Hkeys. by left.
    + by rewrite Hits.
    + rewrite E, bind_Ok. destruct found as [c'|].
      * intros [= <-]. apply (visit_cycle fuel n st F c' st'); try done.
        -- by rewrite Hstk.
        -- by rewrite Hstk, Hits.
        -- rewrite Hstk. intros x i Hx. destruct Hinv as (_ & Hn2s & _).
           assert (x ∈ ([] : list string)) as Hin by (apply Hn2s; eauto).
           by apply elem_of_nil in Hin.
        -- apply Hkeys. by left.
      * destruct Hres as (Hstk' & Hits' & [F1 Hinv1] & Hn' & Hsub & Hle).
        apply (IH st' F1); try done.
        -- intros x ?. apply Hkeys. by right.
        -- rewrite Hits in Hle. lia.
Qed.

End reported_cycle.

Lemma prepare_cycle graph ts c :
  graphlib.init graph = Ok ts →
  graphlib.prepare ts = Raise (CycleError c) →
  is_cycle (edge (graphlib._node2info ts)) c.
Proof.
  intros E. pose proof (init_closed _ _ E) as Hclosed.
  destruct (init_spec graph) as (ts0 & E0 & Hr & _). rewrite E in E0.
  injection E0 as <-. unfold graphlib.prepare, graphlib._find_cycle. rewrite Hr.
  cbn [graphlib._node2info].
  assert (dfs_inv (graphlib._node2info ts) [] [] (graphlib.seen graphlib.dfs_empty)
            (graphlib.node2stacki graphlib.dfs_empty)) as Hinv.
  { split_and!; try done; try apply NoDup_nil_2.
    - intros y. simpl. rewrite !elem_of_nil. tauto.
    - intros y. rewrite elem_of_nil. split; [by intros [? ?]|done].
    - by intros y ?%elem_of_nil. }
  assert (dfs_weight (graphlib._node2info ts) [] (graphlib.seen graphlib.dfs_empty)
          < graphlib.dfs_fuel (graphlib._node2info ts)) as Hw.
  { unfold dfs_weight. simpl. rewrite <-unseen_weight_nil. lia. }
  destruct (find_cycle_from_spec _ Hclosed _ (Dict.keys (graphlib._node2info ts))
              graphlib.dfs_empty [] Hinv eq_refl eq_refl (λ x H, H) Hw) as (r & Ef & _).
  rewrite Ef, bind_Ok. destruct r as [[|x l]|]; [done| |done].
  intros [= <-].
  by apply (find_cycle_from_cycle _ Hclosed _ _ graphlib.dfs_empty [] _
              Hinv eq_refl eq_refl (λ x H, H) Hw Ef).
Qed.

Lemma leveler_cycle (dm : Dict.t PySet.t) c :
  leveler dm = Raise (CycleError c) → is_cycle (λ a b, depends dm b a) c.
Proof.
  destruct (init_spec dm) as (ts & E & Hr & Hp & Hf & Hn & Hs & Hk & Hnd).
  intros H.
  assert (graphlib.prepare ts = Raise (CycleError c)) as Hprep.
  { destruct (prepare_spec dm ts E)
      as [(c0 & Hc0 & _)|(ready & F & Hok & _ & _ & HF & HkF)].
    - unfold leveler in H. rewrite E, bind_Ok, Hc0 in H. by injection H as <-.
    - exfalso. destruct (leveler_spec dm) as [(c1 & _ & x & Hx)|(rows & Hrows & _)];
        [|congruence].
      apply (tc_edge_depends dm (graphlib._node2info ts) x x Hs) in Hx.
      apply (finishing_order_acyclic _ F x HF); [|done].
      apply HkF. pose proof (init_closed _ _ E) as Hclosed.
      inversion Hx as [? ? Hstep|? y ? Hstep _]; subst; by apply (Hclosed x _ Hstep). }
  destruct (prepare_cycle dm ts c E Hprep) as (Hlen & Hhd & Hpath).
  split_and!; [done..|]. revert Hpath. apply is_path_impl.
  intros a b Hab. unfold edge in Hab. rewrite Hs in Hab. by apply elem_of_graph_succs.
Qed.

(** X19. The list that [CycleError] carries is a cycle of the dependency
    map: it has two names at least, it ends with the name it starts with,
    and every name in it is a dependency of the name that follows it. *)
Theorem reported_cycle_is_real :
  (∀ (dependency_map : Dict.t PySet.t) (c : list string),
     leveler dependency_map = Raise (CycleError c) →
     is_cycle (λ a b, depends dependency_map b a) c)
  ∧ (∀ (fuel : nat) (listing : list (string * string)) (c : list string),
       main fuel listing = Raise (CycleError c) →
       is_cycle (λ a b, depends (dependency_map_of listing) b a) c).
Proof.
  split; [apply leveler_cycle|].
  intros fuel listing c. rewrite main_unfold.
  destruct (leveler (dependency_map_of listing)) as [[rows msg]|e|] eqn:E; [|by intros [= ->]; apply leveler_cycle|done].
  rewrite bind_Ok.
  destruct (build_trees fuel (dependency_map_of listing)) as [trees|e'|] eqn:Et;
    [done| |done].
  by destruct (build_trees_no_raise _ _ _ Et).
Qed.

Lemma reported_cycle_is_real_witness :
  is_cycle (λ a b, depends [("Aa", ["Bb"]); ("Bb", ["Cc"]); ("Cc", ["Aa"])] b a)
           ["Aa"; "Cc"; "Bb"; "Aa"].
Proof.
  apply (proj1 reported_cycle_is_real). vm_compute. reflexivity.
Defined.

(** ** The resource named after its file *)

Section file_name_fallback.

Lemma match_at_is_Some p s :
  is_Some (Re.match_at p s)
  ↔ ∃ s1 s2 s3, s1 ∈ Re.matches (Re.pre p) s ∧ s2 ∈ Re.matches (Re.grp p) s1
                ∧ s3 ∈ Re.matches (Re.post p) s2.
Proof.
  unfold Re.match_at. split.
  - intros [[g r] H]. apply head_Some_elem_of in H.
    apply list_elem_of_bind in H as (s1 & H & H1).
    apply list_elem_of_bind in H as (s2 & H & H2).
    apply list_elem_of_bind in H as (s3 & H & H3). by exists s1, s2, s3.
  - intros (s1 & s2 & s3 & H1 & H2 & H3).
    match goal with |- is_Some (head ?l) => destruct l as [|x l'] eqn:E end; [|by eexists].
    exfalso. eapply (not_elem_of_nil (_ : string * string)). rewrite <-E.
    apply list_elem_of_bind. exists s1. split; [|done].
    apply list_elem_of_bind. exists s2. split; [|done].
    apply list_elem_of_bind. exists s3. split; [|done]. left.
Qed.

(** Where a [type] declaration matches, the pattern of
    [get_defined_types] matches too. *)
Lemma declaration_is_definition p s :
  Re.pre p = Re.Cat (Re.Lit "type") (Re.Plus Re.space) → Re.grp p = Re.type_name →
  is_Some (Re.match_at p s) → is_Some (Re.match_at defined_type_pattern s).
Proof.
  intros Hpre Hgrp. rewrite !match_at_is_Some, Hpre, Hgrp.
  intros (s1 & s2 & s3 & H1 & H2 & _). exists s1, s2, s2. split_and!; [|done|].
  - unfold defined_type_pattern. cbn [Re.pre].
    apply matches_Cat in H1 as (s0 & H0 & H1). apply matches_Cat. exists s0.
    split; [|done]. change (s0 ∈ Re.matches (Re.Lit "type") s ++ Re.matches (Re.Lit "interface") s).
    apply elem_of_app. by left.
  - unfold defined_type_pattern. cbn [Re.post]. simpl. left.
Qed.

Lemma findall_from_nil p n : ∀ s,
  Re.findall_from p n s = [] → String.length s < n →
  ∀ a s', s = a +:+ s' → Re.match_at p s' = None.
Proof.
  induction n as [|n IH]; intros s Hnil Hlen a s' Hs; [lia|].
  simpl in Hnil. destruct (Re.match_at p s) as [[g r]|] eqn:E; [done|].
  destruct a as [|c a].
  - rewrite append_nil in Hs. by subst s'.
  - rewrite append_cons in Hs. subst s. simpl in Hlen.
    apply (IH (a +:+ s') Hnil ltac:(lia) a s' eq_refl).
Qed.

Lemma search_None p s :
  (∀ a s', s = a +:+ s' → Re.match_at p s' = None) → Re.search p s = None.
Proof.
  induction s as [|c s IH]; intros H; simpl.
  - by rewrite (H "" "" eq_refl).
  - rewrite (H "" (String c s) eq_refl). apply IH.
    intros a s' ->. apply (H (String c a) s'). by rewrite append_cons.
Qed.

Lemma no_definition_no_declaration p content :
  Re.pre p = Re.Cat (Re.Lit "type") (Re.Plus Re.space) → Re.grp p = Re.type_name →
  get_defined_types content = [] → Re.search p content = None.
Proof.
  intros Hpre Hgrp Hnil. apply search_None. intros a s' Hs.
  apply eq_None_not_Some. intros H%(declaration_is_definition _ _ Hpre Hgrp).
  unfold get_defined_types, Re.findall in Hnil.
  rewrite (findall_from_nil _ _ _ Hnil (Nat.lt_succ_diag_r _) a s' Hs) in H.
  by destruct H.
Qed.

End file_name_fallback.

(** X20. A document in which [get_defined_types] finds nothing has no
    declared resource: its resource is named after the file, by what comes
    before the first dot of the file name, capitalized as [str.capitalize]
    does it (for the file names whose capitalized form stays below code
    point 256). *)
Theorem undeclared_resource_is_named_after_the_file (content filename : string) :
  get_defined_types content = [] →
  Str.capital_in_range (Str.before "." filename) = true →
  declared_resource_name content = None
  ∧ get_main_resource_name content filename = Str.capitalize (Str.before "." filename).
Proof.
  intros Hnil _.
  assert (declared_resource_name content = None) as Hnone.
  { unfold declared_resource_name, first_implementing.
    rewrite (no_definition_no_declaration (implements_pattern "IDomainResource") content
               eq_refl eq_refl Hnil).
    rewrite (no_definition_no_declaration (implements_pattern "IResource") content
               eq_refl eq_refl Hnil).
    by rewrite (no_definition_no_declaration first_type_pattern content eq_refl eq_refl
                  Hnil). }
  split; [done|]. unfold get_main_resource_name. by rewrite Hnone.
Qed.

Lemma undeclared_resource_is_named_after_the_file_witness :
  get_main_resource_name "type valueSet { c: Coding }"
                         (String (ascii_of_nat 233) "lan.schema.graphql")
  = String (ascii_of_nat 201) "lan".
Proof.
  apply (undeclared_resource_is_named_after_the_file
           "type valueSet { c: Coding }" (String (ascii_of_nat 233) "lan.schema.graphql"));
    vm_compute; reflexivity.
Defined.

(** ** The order of the directory listing *)

Section listing_order.
Implicit Types (listing : list (string * string)).

Lemma corpus_raw_deps listing R raw :
  conflict_free listing →
  Dict.get (read_files listing).1 R = Some raw
  ↔ ∃ f c, (f, c) ∈ graphql_files listing ∧ get_main_resource_name c f = R
           ∧ raw = get_dependencies_from_content c.
Proof.
  intros [Hcf _].
  assert (∀ raw', Dict.get (read_files listing).1 R = Some raw' →
            ∃ f c, (f, c) ∈ graphql_files listing ∧ get_main_resource_name c f = R
                   ∧ raw' = get_dependencies_from_content c) as Hfwd.
  { intros raw' Hin%get_Some_elem_of.
    apply read_files_raw_deps in Hin as [Hin|?]; [by apply elem_of_nil in Hin|done]. }
  split; [apply Hfwd|].
  intros (f & c & Hin & HR & ->).
  destruct (read_files_invariant (graphql_files listing) ([], []))
    as (_ & H2 & _); [apply NoDup_nil_2|done|].
  fold (read_files listing) in H2.
  assert (is_Some (Dict.get (read_files listing).1 R)) as [raw' Hraw'].
  { apply get_is_Some, H2. right. by exists f, c. }
  rewrite Hraw'. destruct (Hfwd raw' Hraw') as (f' & c' & Hin' & HR' & ->).
  assert ((f, c) = (f', c')) as [= -> ->] by (apply Hcf; congruence). done.
Qed.

Lemma corpus_owner listing t R :
  conflict_free listing →
  Dict.get (read_files listing).2 t = Some R
  ↔ ∃ f c, (f, c) ∈ graphql_files listing ∧ t ∈ get_defined_types c
           ∧ get_main_resource_name c f = R.
Proof.
  intros [_ Hcf].
  destruct (read_files_invariant (graphql_files listing) ([], []))
    as (_ & _ & _ & H4 & H5); [apply NoDup_nil_2|done|].
  fold (read_files listing) in H4, H5. split.
  - intros H. by destruct (H4 t R H) as [?|?].
  - intros (f & c & Hin & Ht & HR).
    destruct (Dict.get (read_files listing).2 t) as [R'|] eqn:E.
    + destruct (H4 t R' E) as [?|(f' & c' & Hin' & Ht' & HR')]; [done|].
      f_equal. rewrite <-HR, <-HR'. by apply (Hcf t).
    + destruct (H5 t E) as [_ Hno]. by destruct (Hno f c).
Qed.

Lemma corpus_deps listing R D :
  conflict_free listing →
  D ∈ deps_of (dependency_map_of listing) R
  ↔ (∃ f c, (f, c) ∈ graphql_files listing ∧ get_main_resource_name c f = R
            ∧ D ∈ get_dependencies_from_content c)
    ∧ (D ∉ SCALAR_TYPES) ∧ D ≠ R
    ∧ ¬ (∃ f c, (f, c) ∈ graphql_files listing ∧ D ∈ get_defined_types c
                ∧ get_main_resource_name c f = R).
Proof.
  intros Hcf. unfold dependency_map_of.
  rewrite build_dependency_map_spec, (corpus_owner listing D R Hcf).
  assert (NoDup (Dict.keys (read_files listing).1)) as Hnd.
  { destruct (read_files_invariant (graphql_files listing) ([], []))
      as (? & _); [apply NoDup_nil_2|done|done]. }
  split.
  - intros ((raw & Hin & HD) & ? & ? & ?). split_and!; [|done..].
    apply (elem_of_get _ _ _ Hnd), (corpus_raw_deps listing R raw Hcf) in Hin
      as (f & c & ? & ? & ->).
    by exists f, c.
  - intros ((f & c & Hin & HR & HD) & ? & ? & ?). split_and!; [|done..].
    exists (get_dependencies_from_content c). split; [|done].
    apply get_Some_elem_of, (corpus_raw_deps listing R _ Hcf). by exists f, c.
Qed.

Lemma graphql_files_perm (l1 l2 : list (string * string)) f c :
  l1 ≡ₚ l2 → (f, c) ∈ graphql_files l1 ↔ (f, c) ∈ graphql_files l2.
Proof. intros Hp. rewrite !elem_of_graphql_files. by rewrite Hp. Qed.

Lemma conflict_free_perm (l1 l2 : list (string * string)) : l1 ≡ₚ l2 → conflict_free l1 → conflict_free l2.
Proof.
  intros Hp [H1 H2]. split.
  - intros f c f' c' Hin Hin'.
    apply (graphql_files_perm l1 l2 _ _ Hp) in Hin, Hin'. by apply H1.
  - intros t f c f' c' Hin Hin'.
    apply (graphql_files_perm l1 l2 _ _ Hp) in Hin, Hin'. by apply H2.
Qed.

Lemma deps_of_NoDup file_data type_to_resource_map R :
  NoDup (deps_of (build_dependency_map file_data type_to_resource_map) R).
Proof.
  unfold deps_of. destruct (Dict.get _ R) as [ds|] eqn:E; simpl; [|apply NoDup_nil_2].
  by apply (map_shape_build _ _ _ _ E).
Qed.

Lemma keys_deps_of file_data type_to_resource_map R :
  R ∈ Dict.keys (build_dependency_map file_data type_to_resource_map)
  ↔ ∃ D, D ∈ deps_of (build_dependency_map file_data type_to_resource_map) R.
Proof.
  rewrite <-get_is_Some. unfold deps_of. split.
  - intros [ds E]. rewrite E. simpl.
    destruct (map_shape_build _ _ _ _ E) as [Hne _].
    destruct ds as [|d ds]; [done|]. exists d. left.
  - intros [D HD]. destruct (Dict.get _ R) as [ds|]; [eauto|by apply elem_of_nil in HD].
Qed.

Lemma listing_same_graph (l1 l2 : list (string * string)) :
  l1 ≡ₚ l2 → conflict_free l1 →
  same_graph (dependency_map_of l1) (dependency_map_of l2).
Proof.
  intros Hp Hcf1. pose proof (conflict_free_perm _ _ Hp Hcf1) as Hcf2.
  assert (∀ R D, D ∈ deps_of (dependency_map_of l1) R
                 ↔ D ∈ deps_of (dependency_map_of l2) R) as Hd.
  { intros R D. rewrite (corpus_deps l1 R D Hcf1), (corpus_deps l2 R D Hcf2).
    by setoid_rewrite (graphql_files_perm l1 l2 _ _ Hp). }
  split.
  - apply NoDup_Permutation; try apply NoDup_keys_build.
    intros R. unfold dependency_map_of. rewrite !keys_deps_of.
    by setoid_rewrite (Hd R).
  - intros R. apply NoDup_Permutation; try apply deps_of_NoDup. intros D. apply Hd.
Qed.

Lemma mapM_st_ext {A B S : Type} (f g : S → A → run (B * S)) (l : list A) :
  (∀ s a, f s a = g s a) → ∀ s, mapM_st f s l = mapM_st g s l.
Proof.
  intros Hfg. induction l as [|a l IH]; intros s; simpl; [done|].
  rewrite Hfg. destruct (g s a) as [[b s1]| |]; simpl; [|done..]. by rewrite IH.
Qed.

Lemma build_node_same_graph dm1 dm2 fuel :
  same_graph dm1 dm2 → ∀ memo n, build_node fuel dm1 memo n = build_node fuel dm2 memo n.
Proof.
  intros [_ Hd]. induction fuel as [|fuel IH]; intros memo n; [done|].
  rewrite !build_node_S, (sorted_unique _ _ (Hd n)).
  destruct (Dict.get memo n); [done|].
  destruct (Str.sorted (deps_of dm2 n)) as [|d ds]; [done|].
  by rewrite (mapM_st_ext _ _ _ IH).
Qed.

Lemma build_trees_same_graph dm1 dm2 fuel :
  NoDup (Dict.keys dm1) → NoDup (Dict.keys dm2) → same_graph dm1 dm2 →
  build_trees fuel dm1 = build_trees fuel dm2.
Proof.
  intros Hk1 Hk2 Hsame. unfold build_trees.
  rewrite (same_graph_roots dm1 dm2 Hk1 Hk2 Hsame).
  by rewrite (mapM_st_ext _ _ _ (build_node_same_graph dm1 dm2 fuel Hsame)).
Qed.

Lemma same_graph_rows dm1 dm2 rows1 rows2 :
  NoDup (Dict.keys dm1) → NoDup (Dict.keys dm2) → same_graph dm1 dm2 →
  leveled dm1 rows1 → leveled dm2 rows2 → rows1 = rows2.
Proof.
  intros Hk1 Hk2 Hsame Hlev1 Hlev2.
  apply (StronglySorted_unique row_lt).
  - by destruct Hlev1 as (_ & _ & _ & _ & _ & ?).
  - by destruct Hlev2 as (_ & _ & _ & _ & _ & ?).
  - apply NoDup_Permutation.
    + destruct Hlev1 as (_ & ? & _). by eapply NoDup_fmap_1.
    + destruct Hlev2 as (_ & ? & _). by eapply NoDup_fmap_1.
    + intros r. split.
      * by apply (leveled_subset dm1 dm2).
      * apply (leveled_subset dm2 dm1); try done. by apply same_graph_sym.
Qed.

End listing_order.

(** X21. For files without naming conflicts the result of [main] does not
    depend on the order in which the directory lists them: the table and
    the trees are the same. Only when the dependencies have a cycle may the
    two runs differ, in the cycle that their [CycleError] reports. The
    file names are those whose capitalized form stays below code point
    256, so that the names compared are the names the program gives. *)
Theorem listing_order_is_immaterial (fuel : nat) (l1 l2 : list (string * string)) :
  l1 ≡ₚ l2 →
  (∀ f c, (f, c) ∈ graphql_files l1 → Str.capital_in_range (Str.before "." f) = true) →
  conflict_free l1 →
  main fuel l1 = main fuel l2
  ∨ ∃ c1 c2, main fuel l1 = Raise (CycleError c1) ∧ main fuel l2 = Raise (CycleError c2).
Proof.
  intros Hp _ Hcf. pose proof (listing_same_graph l1 l2 Hp Hcf) as Hsame.
  assert (NoDup (Dict.keys (dependency_map_of l1))) as Hk1 by apply NoDup_keys_build.
  assert (NoDup (Dict.keys (dependency_map_of l2))) as Hk2 by apply NoDup_keys_build.
  rewrite !main_unfold.
  destruct (leveler_spec (dependency_map_of l1))
    as [(c1 & E1 & x & Hx)|(rows1 & E1 & Hlev1 & Hac1)];
    destruct (leveler_spec (dependency_map_of l2))
      as [(c2 & E2 & y & Hy)|(rows2 & E2 & Hlev2 & Hac2)]; rewrite E1, E2.
  - right. by exists c1, c2.
  - destruct (Hac2 x). revert Hx. apply tc_impl. intros a b.
    by apply same_graph_depends.
  - destruct (Hac1 y). revert Hy. apply tc_impl. intros a b.
    apply same_graph_depends; [done..|]. by apply same_graph_sym.
  - left. rewrite (same_graph_rows _ _ rows1 rows2 Hk1 Hk2 Hsame Hlev1 Hlev2), !bind_Ok.
    by rewrite (build_trees_same_graph _ _ fuel Hk1 Hk2 Hsame).
Qed.

Lemma listing_order_is_immaterial_witness :
  main 3 [("a.graphql", "type Aa { b: Bb }"); ("b.graphql", "type Bb { i: ID }")]
  = main 3 [("b.graphql", "type Bb { i: ID }"); ("a.graphql", "type Aa { b: Bb }")]
  ∨ ∃ c1 c2,
      main 3 [("a.graphql", "type Aa { b: Bb }"); ("b.graphql", "type Bb { i: ID }")]
      = Raise (CycleError c1)
      ∧ main 3 [("b.graphql", "type Bb { i: ID }"); ("a.graphql", "type Aa { b: Bb }")]
        = Raise (CycleError c2).
Proof.
  apply listing_order_is_immaterial; [apply Permutation_swap| |].
  { intros f c [Hin _]%elem_of_graphql_files.
    apply elem_of_cons in Hin as [Hin|Hin%list_elem_of_singleton];
      injection Hin as -> ->; vm_compute; reflexivity. }
  split.
  - intros f c f' c' [Hin _]%elem_of_graphql_files [Hin' _]%elem_of_graphql_files.
    apply elem_of_cons in Hin as [Hin|Hin%list_elem_of_singleton];
      apply elem_of_cons in Hin' as [Hin'|Hin'%list_elem_of_singleton];
      injection Hin as -> ->; injection Hin' as -> ->; intros H; try done;
      vm_compute in H; discriminate H.
  - intros t f c f' c' [Hin _]%elem_of_graphql_files [Hin' _]%elem_of_graphql_files.
    apply elem_of_cons in Hin as [Hin|Hin%list_elem_of_singleton];
      apply elem_of_cons in Hin' as [Hin'|Hin'%list_elem_of_singleton];
      injection Hin as -> ->; injection Hin' as -> ->; intros Ht Ht'; try done;
      vm_compute in Ht, Ht'; apply list_elem_of_singleton in Ht, Ht'; subst t;
      discriminate Ht'.
Defined.

(** ** Where the names come from *)

Section occurrences.

Lemma substring_trans t u s : substring t u → substring u s → substring t s.
Proof.
  intros (a & b & ->) (a' & b' & ->). exists (a' +:+ a), (b +:+ b').
  by rewrite !append_assoc.
Qed.

Lemma match_at_substring p s g rest :
  Re.match_at p s = Some (g, rest) → substring g s.
Proof.
  intros H. destruct (match_at_parts _ _ _ _ H) as (a & b & s2 & -> & _).
  by exists a, (b +:+ rest).
Qed.

Lemma findall_substring p s g : g ∈ Re.findall p s → substring g s.
Proof.
  intros (a & s' & rest & -> & H)%findall_match_at.
  apply match_at_substring in H as (a' & b' & ->).
  exists (a +:+ a'), b'. by rewrite !append_assoc.
Qed.

Lemma search_substring p s g : Re.search p s = Some g → substring g s.
Proof.
  intros (a & s' & rest & -> & H)%search_match_at.
  apply match_at_substring in H as (a' & b' & ->).
  exists (a +:+ a'), b'. by rewrite !append_assoc.
Qed.

End occurrences.

(** X22. The extractors invent no name: every defined type, every
    declared resource name and every reference they return occurs in the
    text they were given. *)
Theorem extracted_names_occur_in_the_text (content t : string) :
  (t ∈ get_defined_types content → substring t content)
  ∧ (declared_resource_name content = Some t → substring t content)
  ∧ (t ∈ get_dependencies_from_content content → substring t content).
Proof.
  split_and!.
  - apply findall_substring.
  - unfold declared_resource_name, first_implementing.
    destruct (Re.search (implements_pattern "IDomainResource") content) eqn:E1.
    { intros [= ->]. by eapply search_substring. }
    destruct (Re.search (implements_pattern "IResource") content) eqn:E2.
    { intros [= ->]. by eapply search_substring. }
    apply search_substring.
  - rewrite elem_of_get_dependencies. unfold field_types_of_content.
    rewrite list_elem_of_bind. intros (body & Ht & Hbody).
    eapply substring_trans; by eapply findall_substring.
Qed.

Lemma extracted_names_occur_in_the_text_witness :
  substring "HumanName" "type Patient { name: [HumanName] }".
Proof.
  apply (extracted_names_occur_in_the_text "type Patient { name: [HumanName] }" "HumanName").
  apply (bool_decide_unpack _). vm_compute. exact I.
Defined.

(** ** The tree builder below a cycle *)

Section builder_on_cycles.
Variable dependency_map : Dict.t PySet.t.
Hypothesis Hkeys : NoDup (Dict.keys dependency_map).
Local Abbreviation dm := dependency_map.




End builder_on_cycles.


